(** * tilewarm: the command-line option parser (src/cli-parser.js)

    A shallow embedding of [cli-parser.js] and the properties of its
    parsers, validators and of the [getOpts] entry point.

    Conventions of the embedding.
    - A JavaScript string is a [string]: a sequence of code units, here
      restricted to the code units 0..255.
    - A JavaScript number is a [jsnum]: an IEEE-754 binary64 value.  A finite
      double is an integral multiple of 2^-1074, and is stored as that
      multiple.
    - A thrown exception is the [Throw] case of [outcome]; code that reads the
      file system or the module-level [defaultOpts] object runs in the state
      monad [M] over [world].
    - The services of the host (the JavaScript engine and Node) that the
      module calls but does not define are the fields of [Host]. *)

From Stdlib Require Import ZArith List Bool Ascii String Lia Permutation Sorted.
From Stdlib Require SpecFloat.
Import ListNotations.

Local Open Scope string_scope.
Local Open Scope Z_scope.

Set Implicit Arguments.
Set Warnings "-register-all".

(* ================================================================= *)
(** ** Strings *)

Module Str.

(** The double quote, for messages that contain one. *)
Definition dquote : string := String (ascii_of_nat 34) "".

Definition is_digit (c : ascii) : bool :=
  let n := nat_of_ascii c in (48 <=? n)%nat && (n <=? 57)%nat.

Definition digit_val (c : ascii) : Z := Z.of_nat (nat_of_ascii c) - 48.

Fixpoint all_digits (s : string) : bool :=
  match s with
  | "" => true
  | String c s' => is_digit c && all_digits s'
  end.

(** [String.prototype.indexOf(needle)]: the first position at which
    [needle] occurs, or -1. *)
Fixpoint indexOf_from (needle s : string) (i : Z) : Z :=
  if prefix needle s then i
  else match s with
       | "" => -1
       | String _ s' => indexOf_from needle s' (i + 1)
       end.

Definition indexOf (s needle : string) : Z := indexOf_from needle s 0.

(** [String.prototype.split(sep)] for a separator of one code unit. *)
Fixpoint split (sep : ascii) (s : string) : list string :=
  match s with
  | "" => [""]
  | String c s' =>
      if Ascii.eqb c sep then "" :: split sep s'
      else match split sep s' with
           | h :: t => String c h :: t
           | [] => [String c ""]
           end
  end.

(** The string ends with the given suffix. *)
Definition ends_with (suffix s : string) : Prop :=
  exists front, s = front ++ suffix.

Definition starts_with (pre s : string) : Prop :=
  exists back, s = pre ++ back.

Definition contains (needle s : string) : Prop :=
  exists front back, s = front ++ needle ++ back.

End Str.

(* ================================================================= *)
(** ** Regular expressions

  The regular-expression literals of the module are written as terms of
  [re] and matched by derivatives. *)

Module Regex.

Inductive re : Type :=
| Void
| Eps
| Chr (c : ascii)
| Digit                      (* \d *)
| AnyUnit                    (* any code unit *)
| Seq (r1 r2 : re)
| Alt (r1 r2 : re)
| Star (r : re).

Definition Plus (r : re) : re := Seq r (Star r).
Definition Opt (r : re) : re := Alt r Eps.

Fixpoint Lit (s : string) : re :=
  match s with
  | "" => Eps
  | String c s' => Seq (Chr c) (Lit s')
  end.

Fixpoint nullable (r : re) : bool :=
  match r with
  | Void => false
  | Eps => true
  | Chr _ => false
  | Digit => false
  | AnyUnit => false
  | Seq r1 r2 => nullable r1 && nullable r2
  | Alt r1 r2 => nullable r1 || nullable r2
  | Star _ => true
  end.

Fixpoint deriv (c : ascii) (r : re) : re :=
  match r with
  | Void => Void
  | Eps => Void
  | Chr d => if Ascii.eqb c d then Eps else Void
  | Digit => if Str.is_digit c then Eps else Void
  | AnyUnit => Eps
  | Seq r1 r2 =>
      if nullable r1 then Alt (Seq (deriv c r1) r2) (deriv c r2)
      else Seq (deriv c r1) r2
  | Alt r1 r2 => Alt (deriv c r1) (deriv c r2)
  | Star r1 => Seq (deriv c r1) (Star r1)
  end.

Fixpoint matches (r : re) (s : string) : bool :=
  match s with
  | "" => nullable r
  | String c s' => matches (deriv c r) s'
  end.

(** A literal [/^body$/], [/^body/] or [/body$/]: the anchors say which
    ends of the subject the match must reach. *)
Record regexp : Type := RegExp {
  anchor_start : bool;
  body : re;
  anchor_end : bool
}.

(** [RegExp.prototype.test] on a string subject. *)
Definition test (rx : regexp) (s : string) : bool :=
  matches
    (Seq (if anchor_start rx then Eps else Star AnyUnit)
         (Seq (body rx) (if anchor_end rx then Eps else Star AnyUnit)))
    s.

(** The language of a regular expression. *)
Inductive lang : re -> string -> Prop :=
| L_eps : lang Eps ""
| L_chr c : lang (Chr c) (String c "")
| L_digit c : Str.is_digit c = true -> lang Digit (String c "")
| L_any c : lang AnyUnit (String c "")
| L_seq r1 r2 s1 s2 : lang r1 s1 -> lang r2 s2 -> lang (Seq r1 r2) (s1 ++ s2)
| L_alt_l r1 r2 s : lang r1 s -> lang (Alt r1 r2) s
| L_alt_r r1 r2 s : lang r2 s -> lang (Alt r1 r2) s
| L_star_nil r : lang (Star r) ""
| L_star_app r s1 s2 :
    lang r s1 -> lang (Star r) s2 -> lang (Star r) (s1 ++ s2).

End Regex.

(* ================================================================= *)
(** ** Numbers

    IEEE-754 binary64 with round-to-nearest, ties-to-even.  Every finite
    double is [k * 2^-1074] for one integer [k], so [Fin k] stores [k]; the
    number one is [Fin (2^1074)]. *)

Module Num.

Inductive jsnum : Type :=
| NaN
| PInf
| NInf
| NegZero
| Fin (k : Z).                 (* [Fin 0] is +0 *)

(** Units in 1. *)
Definition unit_scale : Z := 2 ^ 1074.

(** [Number.MAX_VALUE], in units: (2^53 - 1) * 2^971. *)
Definition max_units : Z := (2 ^ 53 - 1) * 2 ^ 2045.

(** Rounds the magnitude [a] to 53 significant bits, dropping at least
    [smin] low bits; ties go to the even neighbour. *)
Definition round_mag (smin a : Z) : Z :=
  let s := Z.max (Z.log2 a + 1 - 53) smin in
  if s <=? 0 then a
  else
    let q := Z.shiftr a s in
    let r := a - Z.shiftl q s in
    let half := Z.shiftl 1 (s - 1) in
    let up := (half <? r) || ((r =? half) && Z.odd q) in
    Z.shiftl (if up then q + 1 else q) s.

Definition of_units (neg : bool) (a : Z) : jsnum :=
  if max_units <? a then (if neg then NInf else PInf)
  else if a =? 0 then (if neg then NegZero else Fin 0)
  else Fin (if neg then - a else a).

(** The double nearest to [k] units. *)
Definition round_units (k : Z) : jsnum :=
  of_units (k <? 0) (round_mag 0 (Z.abs k)).

(** The double nearest to the rational [p / q] ([0 <= p], [0 < q]), with the
    given sign.  The quotient is taken in quarter units, with a sticky bit. *)
Definition round_ratio (neg : bool) (p q : Z) : jsnum :=
  let n := p * 2 ^ 1076 in
  let t := n / q in
  let t' := if n mod q =? 0 then t else Z.lor t 1 in
  of_units neg (Z.shiftr (round_mag 2 t') 2).

(** The double nearest to [m * 10^e], [0 <= m]. *)
Definition of_decimal (neg : bool) (m e : Z) : jsnum :=
  if 0 <=? e then round_ratio neg (m * 10 ^ e) 1
  else round_ratio neg m (10 ^ (- e)).

(** The integer [n] as a double; exact for [|n| <= 2^53]. *)
Definition of_int (n : Z) : jsnum := Fin (n * unit_scale).

Definition is_nan (x : jsnum) : bool :=
  match x with NaN => true | _ => false end.

Definition isFinite (x : jsnum) : bool :=
  match x with
  | NegZero | Fin _ => true
  | _ => false
  end.

Definition neg (x : jsnum) : jsnum :=
  match x with
  | NaN => NaN
  | PInf => NInf
  | NInf => PInf
  | NegZero => Fin 0
  | Fin k => if k =? 0 then NegZero else Fin (- k)
  end.

Definition units (x : jsnum) : Z :=
  match x with Fin k => k | _ => 0 end.

Definition is_neg (x : jsnum) : bool :=
  match x with
  | NInf | NegZero => true
  | Fin k => k <? 0
  | _ => false
  end.

(** [x + y] *)
Definition add (x y : jsnum) : jsnum :=
  match x, y with
  | NaN, _ | _, NaN => NaN
  | PInf, NInf | NInf, PInf => NaN
  | PInf, _ | _, PInf => PInf
  | NInf, _ | _, NInf => NInf
  | NegZero, NegZero => NegZero
  | _, _ =>
      let k := units x + units y in
      if k =? 0 then Fin 0 else round_units k
  end.

(** [x - y] *)
Definition sub (x y : jsnum) : jsnum := add x (neg y).

(** [x / y] *)
Definition div (x y : jsnum) : jsnum :=
  let sgn := xorb (is_neg x) (is_neg y) in
  match x, y with
  | NaN, _ | _, NaN => NaN
  | (PInf | NInf), (PInf | NInf) => NaN
  | (PInf | NInf), _ => if sgn then NInf else PInf
  | _, (PInf | NInf) => if sgn then NegZero else Fin 0
  | _, _ =>
      if units y =? 0 then
        if units x =? 0 then NaN else if sgn then NInf else PInf
      else round_ratio sgn (Z.abs (units x)) (Z.abs (units y))
  end.

(** [x * y] *)
Definition mul (x y : jsnum) : jsnum :=
  let sgn := xorb (is_neg x) (is_neg y) in
  match x, y with
  | NaN, _ | _, NaN => NaN
  | (PInf | NInf), _ =>
      if units y =? 0 then (if isFinite y then NaN else if sgn then NInf else PInf)
      else if sgn then NInf else PInf
  | _, (PInf | NInf) =>
      if units x =? 0 then NaN else if sgn then NInf else PInf
  | _, _ =>
      round_ratio sgn (Z.abs (units x) * Z.abs (units y))
        (unit_scale * unit_scale)
  end.

(** [x < y] *)
Definition ltb (x y : jsnum) : bool :=
  match x, y with
  | NaN, _ | _, NaN => false
  | _, NInf => false
  | PInf, _ => false
  | NInf, _ => true
  | _, PInf => true
  | _, _ => units x <? units y
  end.

(** [x > y] *)
Definition gtb (x y : jsnum) : bool := ltb y x.

(** [x === y] *)
Definition strict_eqb (x y : jsnum) : bool :=
  match x, y with
  | NaN, _ | _, NaN => false
  | PInf, PInf | NInf, NInf => true
  | (NegZero | Fin _), (NegZero | Fin _) => units x =? units y
  | _, _ => false
  end.

(** [Math.ceil] *)
Definition ceil (x : jsnum) : jsnum :=
  match x with
  | Fin k =>
      let c := - ((- k) / unit_scale) * unit_scale in
      if (c =? 0) && (k <? 0) then NegZero else Fin c
  | _ => x
  end.

(** [Math.max] of two numbers; +0 is larger than -0. *)
Definition max (x y : jsnum) : jsnum :=
  match x, y with
  | NaN, _ | _, NaN => NaN
  | NegZero, Fin 0 => Fin 0
  | _, _ => if ltb x y then y else x
  end.

(** Truthiness of a number: [0], [-0] and [NaN] are falsy. *)
Definition truthy (x : jsnum) : bool :=
  match x with
  | NaN | NegZero => false
  | Fin k => negb (k =? 0)
  | _ => true
  end.

(** The same number in the Standard Library's specification of binary64
    (mantissa of 53 bits, exponents up to 1024). *)
Definition to_spec (x : jsnum) : SpecFloat.spec_float :=
  match x with
  | NaN => SpecFloat.S754_nan
  | PInf => SpecFloat.S754_infinity false
  | NInf => SpecFloat.S754_infinity true
  | NegZero => SpecFloat.S754_zero true
  | Fin k => SpecFloat.binary_normalize 53 1024 k (-1074) false
  end.

(** A valid array length is an integer in [0, 2^32 - 1]. *)
Definition array_length (x : jsnum) : option Z :=
  match x with
  | NegZero => Some 0
  | Fin k =>
      if (k mod unit_scale =? 0) && (0 <=? k)
         && (k / unit_scale <=? 2 ^ 32 - 1)
      then Some (k / unit_scale) else None
  | _ => None
  end.

End Num.

(* ================================================================= *)
(** ** Values, exceptions and the global functions of the language *)

Module Js.

Import Num.

(** A value that may be [undefined] or [null]. *)
Inductive opt (A : Type) : Type :=
| Undefined
| Null
| Val (a : A).
Arguments Undefined {A}.
Arguments Null {A}.
Arguments Val {A} a.

(** Plain data: what [JSON.parse] or a compiled function can return. *)
Inductive jsval : Type :=
| VUndef
| VNull
| VBool (b : bool)
| VNum (n : jsnum)
| VStr (s : string)
| VArr (items : list jsval)
| VObj (props : list (string * jsval)).

(** An [Error] object: its constructor name, its message and whether it
    carries the property [argumentError: true]. *)
Record jserror : Type := JsError {
  err_name : string;
  err_message : string;
  argumentError : bool
}.

(** The result of running code: a value, a thrown exception, or the end of
    the process ([process.exit], called by the option parser). *)
Inductive outcome (A : Type) : Type :=
| Ok (a : A)
| Throw (e : jserror)
| Exit (code : Z).
Arguments Ok {A} a.
Arguments Throw {A} e.
Arguments Exit {A} code.

Definition bindO {A B : Type} (m : outcome A) (k : A -> outcome B)
  : outcome B :=
  match m with
  | Ok a => k a
  | Throw e => Throw e
  | Exit c => Exit c
  end.

(** [String(v)] for an optional string. *)
Definition ToString (v : opt string) : string :=
  match v with
  | Undefined => "undefined"
  | Null => "null"
  | Val s => s
  end.

(** Truthiness of an optional string: only a non-empty string is truthy. *)
Definition truthy (v : opt string) : bool :=
  match v with
  | Val s => negb (String.eqb s "")
  | _ => false
  end.

(** White space and line terminators among the code units 0..255. *)
Definition is_space (c : ascii) : bool :=
  let n := nat_of_ascii c in
  ((9 <=? n)%nat && (n <=? 13)%nat) || (n =? 32)%nat || (n =? 160)%nat.

Fixpoint trim_start (s : string) : string :=
  match s with
  | String c s' => if is_space c then trim_start s' else s
  | "" => ""
  end.

Fixpoint trim_end (s : string) : string :=
  match s with
  | "" => ""
  | String c s' =>
      let t := trim_end s' in
      if is_space c && String.eqb t "" then "" else String c t
  end.

(** Reads a run of decimal digits: the accumulated value, the number of
    digits read and the rest of the string. *)
Fixpoint scan_digits (s : string) (acc count : Z) : Z * Z * string :=
  match s with
  | String c s' =>
      if Str.is_digit c
      then scan_digits s' (acc * 10 + Str.digit_val c) (count + 1)
      else (acc, count, s)
  | "" => (acc, count, "")
  end.

(** A scanned decimal literal. *)
Inductive literal : Type :=
| LitInfinity (negative : bool)
| LitDecimal (negative : bool) (mantissa exponent : Z).

Definition scan_sign (s : string) : bool * string :=
  match s with
  | String c s' =>
      if Ascii.eqb c "-" then (true, s')
      else if Ascii.eqb c "+" then (false, s')
      else (false, s)
  | "" => (false, s)
  end.

(** The exponent part [e±ddd], when one is there. *)
Definition scan_exponent (s : string) : Z * string :=
  match s with
  | String c s' =>
      if Ascii.eqb c "e" || Ascii.eqb c "E" then
        let '(negative, s'') := scan_sign s' in
        let '(e, n, rest) := scan_digits s'' 0 0 in
        if n =? 0 then (0, s) else ((if negative then - e else e), rest)
      else (0, s)
  | "" => (0, s)
  end.

(** The fraction part [.ddd] after an integer part of [ni] digits and value
    [ip]: the mantissa, the number of fraction digits and the rest.  A dot
    with no digit on either side is not read. *)
Definition scan_fraction (ip ni : Z) (r1 : string) : Z * Z * string :=
  match r1 with
  | String c r1' =>
      if Ascii.eqb c "." then
        let '(m, nf, r2) := scan_digits r1' ip 0 in
        if (ni =? 0) && (nf =? 0) then (ip, 0, r1) else (m, nf, r2)
      else (ip, 0, r1)
  | "" => (ip, 0, r1)
  end.

(** The longest prefix of [s] that is a [StrDecimalLiteral], and what
    follows it. *)
Definition scan_decimal (s : string) : option (literal * string) :=
  let '(negative, s1) := scan_sign s in
  if prefix "Infinity" s1
  then Some (LitInfinity negative, substring 8 (String.length s1 - 8) s1)
  else
    let '(ip, ni, r1) := scan_digits s1 0 0 in
    let '(m, nf, r2) := scan_fraction ip ni r1 in
    if (ni =? 0) && (nf =? 0) then None
    else
      let '(e, rest) := scan_exponent r2 in
      Some (LitDecimal negative m (e - nf), rest).

Definition literal_value (l : literal) : jsnum :=
  match l with
  | LitInfinity negative => if negative then NInf else PInf
  | LitDecimal negative m e => of_decimal negative m e
  end.

(** [parseFloat(s)] *)
Definition parseFloat (s : string) : jsnum :=
  match scan_decimal (trim_start s) with
  | Some (l, _) => literal_value l
  | None => NaN
  end.

Definition digit_of_base (base : Z) (c : ascii) : option Z :=
  let n := Z.of_nat (nat_of_ascii c) in
  let d :=
    if (48 <=? n) && (n <=? 57) then n - 48
    else if (97 <=? n) && (n <=? 102) then n - 87
    else if (65 <=? n) && (n <=? 70) then n - 55
    else 16 in
  if d <? base then Some d else None.

Fixpoint scan_base (base : Z) (s : string) (acc : Z) : option Z :=
  match s with
  | "" => Some acc
  | String c s' =>
      match digit_of_base base c with
      | Some d => scan_base base s' (acc * base + d)
      | None => None
      end
  end.

(** [0x], [0o] and [0b] literals, which take no sign. *)
Definition non_decimal (s : string) : option Z :=
  match s with
  | String z (String c (String d ds)) =>
      let base :=
        if Ascii.eqb c "x" || Ascii.eqb c "X" then 16
        else if Ascii.eqb c "o" || Ascii.eqb c "O" then 8
        else if Ascii.eqb c "b" || Ascii.eqb c "B" then 2
        else 0 in
      if negb (Ascii.eqb z "0") || (base =? 0) then None
      else scan_base base (String d ds) 0
  | _ => None
  end.

(** [Number(s)] for a string. *)
Definition Number (s : string) : jsnum :=
  let t := trim_end (trim_start s) in
  if String.eqb t "" then Fin 0
  else
    match non_decimal t with
    | Some n => of_decimal false n 0
    | None =>
        match scan_decimal t with
        | Some (l, "") => literal_value l
        | _ => NaN
        end
    end.

End Js.

(* ================================================================= *)
(** ** The functions of lodash that the module calls (lodash 4) *)

Module Lodash.

Import Num Js.

(** [_.isFinite] on a number. *)
Definition isFinite (x : jsnum) : bool := Num.isFinite x.

Definition MAX_INTEGER : jsnum := Fin max_units.

Definition toFinite (x : jsnum) : jsnum :=
  match x with
  | NaN => Fin 0
  | PInf => MAX_INTEGER
  | NInf => neg MAX_INTEGER
  | _ => x
  end.

Definition RangeError : jserror :=
  JsError "RangeError" "Invalid array length" false.

(** The loop of [baseRange]: [while (length--) { result[++index] = start;
    start += step; }] *)
Fixpoint baseRange_fill (length : nat) (start step : jsnum) : list jsnum :=
  match length with
  | O => []
  | S n => start :: baseRange_fill n (add start step) step
  end.

Definition baseRange (start end_ step : jsnum) : outcome (list jsnum) :=
  let length :=
    Num.max
      (ceil (div (sub end_ start) (if Num.truthy step then step else of_int 1)))
      (Fin 0) in
  match array_length length with
  | Some n => Ok (baseRange_fill (Z.to_nat n) start step)
  | None => Throw RangeError      (* [Array(length)] *)
  end.

(** [_.range(start, end)], without a step. *)
Definition range (start end_ : jsnum) : outcome (list jsnum) :=
  let start := toFinite start in
  let end_ := toFinite end_ in
  let step := if ltb start end_ then of_int 1 else of_int (-1) in
  baseRange start end_ step.

(** The comparator of [_.sortBy], on numbers. *)
Definition compareAscending (value other : jsnum) : Z :=
  if strict_eqb value other then 0
  else if gtb value other || is_nan value then 1
  else if ltb value other || is_nan other then -1
  else 0.

Fixpoint insert_sorted (x : jsnum) (l : list jsnum) : list jsnum :=
  match l with
  | [] => [x]
  | y :: l' =>
      if compareAscending x y <=? 0 then x :: l else y :: insert_sorted x l'
  end.

(** [_.sortBy(nums)]: a stable sort under [compareAscending].  On numbers
    without [NaN] the comparator is a total preorder, so the sorted order is
    the same whichever stable algorithm computes it. *)
Definition sortBy (l : list jsnum) : list jsnum :=
  fold_right insert_sorted [] l.

(** [_.merge] on one property that holds a primitive: an [undefined] source
    leaves the destination as it is. *)
Definition merge_prim {A : Type} (dst src : opt A) : opt A :=
  match src with
  | Undefined => dst
  | _ => src
  end.

Fixpoint assign (k v : string) (o : list (string * string))
  : list (string * string) :=
  match o with
  | [] => [(k, v)]
  | (k', v') :: o' =>
      if String.eqb k k' then (k, v) :: o' else (k', v') :: assign k v o'
  end.

(** [_.merge] reads the source through [safeGet], which gives [undefined]
    for the key [__proto__]; as that key is found in every object, nothing is
    assigned for it. *)
Definition unsafe_key (k : string) : bool := String.eqb k "__proto__".

(** [_.merge] on a property that holds a plain object of strings: the keys of
    the source are merged into the destination one by one. *)
Definition merge_obj (dst src : opt (list (string * string)))
  : opt (list (string * string)) :=
  match src with
  | Val s =>
      let base := match dst with Val d => d | _ => [] end in
      Val (fold_left
             (fun o kv =>
                if unsafe_key (fst kv) then o else assign (fst kv) (snd kv) o)
             s base)
  | Undefined => dst
  | Null => Null
  end.

(** [_.merge] on a property that holds an array: the elements of the source
    overwrite those of the destination index by index. *)
Definition merge_arr {A : Type} (dst src : opt (list A)) : opt (list A) :=
  match src with
  | Val s =>
      let base := match dst with Val d => d | _ => [] end in
      Val (s ++ skipn (List.length s) base)%list
  | Undefined => dst
  | Null => Null
  end.

(** [_.merge] of plain data into a destination that has nothing at that key:
    a primitive is assigned as it is; an array or a plain object is merged
    into a fresh one, element by element and key by key (an object of the
    language has each key once), so the result is a copy, without the keys
    named [__proto__] at any depth. *)
Fixpoint merge_value (v : jsval) : jsval :=
  match v with
  | VArr items => VArr (map merge_value items)
  | VObj props =>
      VObj ((fix merge_props (ps : list (string * jsval)) :=
               match ps with
               | [] => []
               | (k, x) :: ps' =>
                   if unsafe_key k then merge_props ps'
                   else (k, merge_value x) :: merge_props ps'
               end) props)
  | _ => v
  end.

End Lodash.

(* ================================================================= *)
(** ** src/cli-parser.js *)

Module CliParser.

Import Num Js Regex.

(** The option bag: [defaultOpts], the result of the option parser and their
    merge.  The keys that the option parser adds for aliases and for its own
    use ([p], [b], [$0], ...) are left out.

    Scope of the model: an option given on the command line holds a string,
    as the option parser delivers it for a flag given once (all the flags are
    declared [type: 'string']).  A flag given several times, for which the
    option parser delivers an array of strings, is outside this model: every
    statement about option bags below is about bags whose string options are
    each a string, [null] or [undefined]. *)
Record Options : Type := {
  url : opt string;
  args_ : opt (list string);           (* the key [_]: the positionals *)
  point : opt string;
  buffer : opt string;
  zoom : opt string;
  list : opt bool;
  input : opt string;
  method : opt string;
  headers : opt (List.list (string * string));
  concurrency : opt string;
  verbose : opt bool;
  maxRetries : opt string;
  retryBaseTimeout : opt string;
  requestTimeout : opt jsnum
}.

(** A zoom function: [(z) => number], or the function compiled from an
    expression. *)
Inductive zoomfn : Type :=
| ConstFn (number : jsnum)
| CompiledFn (param body : string).

Record Buffer : Type := { radius : jsnum; unit : string }.
Record Point : Type := { lat : opt jsnum; lng : opt jsnum }.

(** The object returned by [validateAndTransformOpts]. *)
Record Config : Type := {
  cfg_url : opt string;
  cfg_args : opt (List.list string);
  cfg_list : opt bool;
  cfg_method : opt string;
  cfg_headers : opt (List.list (string * string));
  cfg_verbose : opt bool;
  cfg_requestTimeout : opt jsnum;
  cfg_buffer : Buffer;
  cfg_zoom : List.list jsnum;
  cfg_point : Point;
  cfg_input : jsval;
  cfg_concurrency : zoomfn;
  cfg_maxRetries : zoomfn;
  cfg_retryBaseTimeout : zoomfn
}.

(** What [new Function(param, body)] does with a body. *)
Inductive compiled : Type :=
| Accepted
| Rejected (message : string).        (* a SyntaxError *)

(** The host: the engine's [JSON.parse] and [Function] constructor, and the
    [argv] getter of the option parser (yargs) configured as in
    [getUserOpts], which is given the current [defaultOpts] for its
    [default:] entries. *)
Class Host : Type := {
  JSON_parse : string -> option jsval;          (* [None]: a SyntaxError *)
  Function_ctor : string -> string -> compiled;
  Function_call : string -> string -> jsnum -> outcome jsval;
  yargs_argv : Options -> List.list string -> outcome Options
}.

(** The state the module runs in: its variable [defaultOpts], the arguments
    of the process (what follows the program name), the files, and the paths
    read so far. *)
Record world : Type := {
  defaults : Options;
  process_argv : List.list string;
  files : string -> option string;
  fs_reads : List.list string
}.

Definition M (A : Type) : Type := world -> outcome A * world.

Definition ret {A : Type} (a : A) : M A := fun w => (Ok a, w).

Definition bind {A B : Type} (m : M A) (k : A -> M B) : M B :=
  fun w =>
    match m w with
    | (Ok a, w') => k a w'
    | (Throw e, w') => (Throw e, w')
    | (Exit c, w') => (Exit c, w')
    end.

Definition lift {A : Type} (o : outcome A) : M A := fun w => (o, w).

Definition get_defaults : M Options := fun w => (Ok (defaults w), w).

Definition set_defaults (o : Options) : M Datatypes.unit :=
  fun w =>
    (Ok tt, {| defaults := o; process_argv := process_argv w;
               files := files w; fs_reads := fs_reads w |}).

Definition get_argv : M (List.list string) :=
  fun w => (Ok (process_argv w), w).

(** [fs.readFileSync(path, {encoding: 'utf8'})] *)
Definition readFileSync (path : string) : M string :=
  fun w =>
    let w' := {| defaults := defaults w; process_argv := process_argv w;
                 files := files w; fs_reads := (fs_reads w ++ [path])%list |} in
    match files w path with
    | Some content => (Ok content, w')
    | None =>
        (Throw (JsError "Error" ("ENOENT: no such file or directory, open '"
                                   ++ path ++ "'") false), w')
    end.

Declare Scope js_scope.
Delimit Scope js_scope with js.
Notation "x <- m ;; k" := (bind m (fun x => k))
  (at level 61, m at next level, right associativity) : js_scope.
Notation "m ;;; k" := (bind m (fun _ => k))
  (at level 61, right associativity) : js_scope.
Notation "x <~ m ;; k" := (bindO m (fun x => k))
  (at level 61, m at next level, right associativity) : js_scope.
Local Open Scope js_scope.

(** The regular-expression literals of the module. *)

(** [/^\d+$/] *)
Definition number_re : regexp := RegExp true (Plus Digit) true.

(** The zoom grammar, line 124: a range [\d+\-\d+] or a list [\d+] followed
    by any number of [,\d+], anchored at both ends. *)
Definition zoom_re : regexp :=
  RegExp true
    (Alt (Seq (Plus Digit) (Seq (Chr "-") (Plus Digit)))
         (Seq (Plus Digit) (Star (Seq (Chr ",") (Plus Digit)))))
    true.

(** [/^https?\:/] *)
Definition url_re : regexp :=
  RegExp true (Seq (Lit "http") (Seq (Opt (Chr "s")) (Chr ":"))) false.

(** [/mi$/] *)
Definition mi_re : regexp := RegExp false (Lit "mi") true.

(** lines 7-20 *)
Definition defaultOpts : Options := {|
  url := Undefined;
  args_ := Undefined;
  point := Undefined;
  buffer := Val "0km";
  zoom := Val "3-9";
  list := Val false;
  input := Null;
  method := Val "GET";
  headers := Val [];
  concurrency := Val "5";
  verbose := Val false;
  maxRetries := Val "5";
  retryBaseTimeout := Val "5000";
  requestTimeout := Val (of_int (10 * 60 * 1000))
|}.

(** lines 159-163 *)
Definition throwArgumentError {A : Type} (message : opt string) : outcome A :=
  Throw (JsError "Error"
           (match message with Undefined => "" | _ => ToString message end)
           true).

(** A TypeError for a method call on [undefined] or [null]. *)
Definition TypeError {A : Type} (message : string) : outcome A :=
  Throw (JsError "TypeError" message false).

(** lines 151-157; [Number(val)] of [undefined] is [NaN], of [null] is 0. *)
Definition assertNumber (val message : opt string) : outcome jsnum :=
  let number :=
    match val with
    | Undefined => NaN
    | Null => Fin 0
    | Val s => Number s
    end in
  if negb (Lodash.isFinite number) then throwArgumentError message
  else Ok number.

(** lines 165-172 *)
Definition parsePoint (point : opt string) : Point :=
  let arr := Str.split "," (ToString point) in
  let nums := map parseFloat arr in
  let at_ i := match nth_error nums i with Some n => Val n | None => Undefined end in
  {| lat := at_ 0%nat; lng := at_ 1%nat |}.

(** lines 174-181 *)
Definition parseBuffer (buffer : opt string) : Buffer :=
  let radius := parseFloat (ToString buffer) in
  let unit := if test mi_re (ToString buffer) then "miles" else "kilometers" in
  {| radius := radius; unit := unit |}.

(** lines 183-193 *)
Definition parseZoomRange (zoom : string) : outcome (List.list jsnum) :=
  if Str.indexOf zoom "-" >? -1 then
    let parts := Str.split "-" zoom in
    let min := Number (nth 0 parts "undefined") in
    let max := Number (nth 1 parts "undefined") in
    Lodash.range min (add max (of_int 1))
  else
    let nums := map (fun s => Number s) (Str.split "," zoom) in
    Ok (Lodash.sortBy nums).

(** lines 220-224 *)
Definition assertTemplateUrlParameter (template : opt string) (param : string)
  : outcome Datatypes.unit :=
  match template with
  | Val t =>
      if Str.indexOf t param =? -1
      then throwArgumentError
             (Val ("Template url is missing parameter: " ++ param))
      else Ok tt
  | _ => TypeError "Cannot read properties of undefined (reading 'indexOf')"
  end.

(** lines 210-218 *)
Definition assertTemplateUrl (template : opt string) : outcome Datatypes.unit :=
  _ <~ (if negb (test url_re (ToString template))
        then throwArgumentError (Val "Invalid url") else Ok tt) ;;
  _ <~ assertTemplateUrlParameter template "{x}" ;;
  _ <~ assertTemplateUrlParameter template "{y}" ;;
  assertTemplateUrlParameter template "{z}".

Section WithHost.

Context {host : Host}.

(** Calling a zoom function. *)
Definition call (f : zoomfn) (z : jsnum) : outcome jsval :=
  match f with
  | ConstFn number => Ok (VNum number)
  | CompiledFn param body => Function_call param body z
  end.

(** lines 138-149 *)
Definition parseNumberOrZoomFunction (val message : opt string)
  : outcome zoomfn :=
  let concurrencyIsNumber := test number_re (ToString val) in
  if concurrencyIsNumber then
    number <~ assertNumber val message ;;
    Ok (ConstFn number)
  else
    let body := "return " ++ ToString val in
    match Function_ctor "z" body with
    | Accepted => Ok (CompiledFn "z" body)
    | Rejected msg => Throw (JsError "SyntaxError" msg false)
    end.

(** lines 195-208 *)
Definition parseInput (input : opt string) : M jsval :=
  if negb (truthy input) then ret VNull
  else
    content <- readFileSync (ToString input) ;;
    match JSON_parse content with
    | Some obj => ret obj
    | None => lift (throwArgumentError (Val "Invalid JSON"))
    end.

(** The property [input] of [_.merge({}, opts, {..., input: parsed})], line
    126: the fresh object first takes [opts.input]; then the parsed value is
    merged over it, and a source that is [undefined] is skipped. *)
Definition merged_input (path : opt string) (parsed : jsval) : jsval :=
  match parsed with
  | VUndef =>
      match path with
      | Val p => VStr p
      | Null => VNull
      | Undefined => VUndef
      end
  | _ => Lodash.merge_value parsed
  end.

(** [_.merge({}, opts, transformed)], line 126: a fresh object takes the
    properties of [opts], then the transformed ones.  Strings, booleans,
    numbers and functions are assigned as they are; the arrays [_] and [zoom]
    and the objects [buffer] and [point] are copied, with the same contents;
    [headers] and the parsed [input] are copied by [_.merge], which skips a
    key named [__proto__]. *)
Definition merge_config (opts : Options) (buffer' : Buffer)
  (zoom' : List.list jsnum) (point' : Point) (input' : jsval)
  (concurrency' maxRetries' retryBaseTimeout' : zoomfn) : Config :=
  {| cfg_url := url opts;
     cfg_args := Lodash.merge_arr Undefined (args_ opts);
     cfg_list := list opts;
     cfg_method := method opts;
     cfg_headers := Lodash.merge_obj Undefined (headers opts);
     cfg_verbose := verbose opts;
     cfg_requestTimeout := requestTimeout opts;
     cfg_buffer := buffer';
     cfg_zoom := zoom';
     cfg_point := point';
     cfg_input := merged_input (input opts) input';
     cfg_concurrency := concurrency';
     cfg_maxRetries := maxRetries';
     cfg_retryBaseTimeout := retryBaseTimeout' |}.

(** lines 119-136.  The object literal is evaluated property by property,
    then merged with [opts] into a fresh object. *)
Definition validateAndTransformOpts (opts : Options) : M Config :=
  (if truthy (point opts) && negb (truthy (buffer opts))
   then lift (throwArgumentError
                (Val "When --point is set, --buffer must also be set"))
   else ret tt) ;;;
  (if negb (test zoom_re (ToString (zoom opts)))
   then lift (throwArgumentError
                (Val ("Invalid " ++ Str.dquote ++ "zoom" ++ Str.dquote
                        ++ " argument")))
   else ret tt) ;;;
  lift (assertTemplateUrl (url opts)) ;;;
  let buffer' := parseBuffer (buffer opts) in
  zoom' <- lift (match zoom opts with
                 | Val z => parseZoomRange z
                 | _ => TypeError
                          "Cannot read properties of undefined (reading 'indexOf')"
                 end) ;;
  let point' := parsePoint (point opts) in
  input' <- parseInput (input opts) ;;
  concurrency' <- lift (parseNumberOrZoomFunction (concurrency opts) Undefined) ;;
  maxRetries' <- lift (parseNumberOrZoomFunction (maxRetries opts) Undefined) ;;
  retryBaseTimeout' <-
    lift (parseNumberOrZoomFunction (retryBaseTimeout opts) Undefined) ;;
  ret (merge_config opts buffer' zoom' point' input'
         concurrency' maxRetries' retryBaseTimeout').

(** lines 28-117: the option parser reads the arguments of the process, its
    [default:] entries are read from [defaultOpts] at the time of the call,
    and [url] is the first positional. *)
Definition getUserOpts : M Options :=
  d <- get_defaults ;;
  argv <- get_argv ;;
  userOpts <- lift (yargs_argv d argv) ;;
  ret {| url := match args_ userOpts with
                | Val (u :: _) => Val u
                | _ => Undefined
                end;
         args_ := args_ userOpts;
         point := point userOpts;
         buffer := buffer userOpts;
         zoom := zoom userOpts;
         list := list userOpts;
         input := input userOpts;
         method := method userOpts;
         headers := headers userOpts;
         concurrency := concurrency userOpts;
         verbose := verbose userOpts;
         maxRetries := maxRetries userOpts;
         retryBaseTimeout := retryBaseTimeout userOpts;
         requestTimeout := requestTimeout userOpts |}.

(** [_.merge(object, source)] on two option bags; the result is also what
    [object] holds afterwards, since [_.merge] changes its first argument. *)
Definition merge (object source : Options) : Options :=
  {| url := Lodash.merge_prim (url object) (url source);
     args_ := Lodash.merge_arr (args_ object) (args_ source);
     point := Lodash.merge_prim (point object) (point source);
     buffer := Lodash.merge_prim (buffer object) (buffer source);
     zoom := Lodash.merge_prim (zoom object) (zoom source);
     list := Lodash.merge_prim (list object) (list source);
     input := Lodash.merge_prim (input object) (input source);
     method := Lodash.merge_prim (method object) (method source);
     headers := Lodash.merge_obj (headers object) (headers source);
     concurrency := Lodash.merge_prim (concurrency object) (concurrency source);
     verbose := Lodash.merge_prim (verbose object) (verbose source);
     maxRetries := Lodash.merge_prim (maxRetries object) (maxRetries source);
     retryBaseTimeout :=
       Lodash.merge_prim (retryBaseTimeout object) (retryBaseTimeout source);
     requestTimeout :=
       Lodash.merge_prim (requestTimeout object) (requestTimeout source) |}.

(** lines 22-26.  The parameter [argv] is not used; [_.merge] writes into
    [defaultOpts], and [opts] is that same object. *)
Definition getOpts (argv : List.list string) : M Config :=
  userOpts <- getUserOpts ;;
  d <- get_defaults ;;
  let opts := merge d userOpts in
  set_defaults opts ;;;
  validateAndTransformOpts opts.

End WithHost.

End CliParser.

(* ================================================================= *)
(** ** A reference host

    A small host on which the module can be run: [JSON.parse] for JSON texts
    over the code units 0..255, a [Function] constructor for bodies
    [return e] where [e] is an arithmetic, comparison or conditional
    expression over [z], and an option parser for the flags declared in
    [getUserOpts], each given as its own argument ([--zoom 3-5], [-b 10km]).
    The theorems below hold for every host; this one runs the examples. *)

Module RefHost.

Import Num Js CliParser.

(** *** JSON.parse *)

Definition is_json_space (c : ascii) : bool :=
  let n := nat_of_ascii c in
  (n =? 32)%nat || (n =? 9)%nat || (n =? 10)%nat || (n =? 13)%nat.

Fixpoint skip_ws (s : string) : string :=
  match s with
  | String c s' => if is_json_space c then skip_ws s' else s
  | "" => ""
  end.

Definition drop (n : nat) (s : string) : string :=
  substring n (String.length s - n) s.

Definition hex4 (s : string) : option Z :=
  if (4 <=? String.length s)%nat then scan_base 16 (substring 0 4 s) 0
  else None.

(** The characters of a string literal, after the opening quote. *)
Fixpoint json_string (fuel : nat) (s : string) : option (string * string) :=
  match fuel, s with
  | S f, String c s' =>
      let n := nat_of_ascii c in
      if (n =? 34)%nat then Some ("", s')
      else if (n <? 32)%nat then None
      else if (n =? 92)%nat then
        match s' with
        | String e s'' =>
            let plain (d : ascii) :=
              match json_string f s'' with
              | Some (t, rest) => Some (String d t, rest)
              | None => None
              end in
            match nat_of_ascii e with
            | 34%nat => plain e
            | 92%nat => plain e
            | 47%nat => plain e
            | 98%nat => plain (ascii_of_nat 8)
            | 102%nat => plain (ascii_of_nat 12)
            | 110%nat => plain (ascii_of_nat 10)
            | 114%nat => plain (ascii_of_nat 13)
            | 116%nat => plain (ascii_of_nat 9)
            | 117%nat =>
                match hex4 s'' with
                | Some code =>
                    if code <? 256 then
                      match json_string f (drop 4 s'') with
                      | Some (t, rest) =>
                          Some (String (ascii_of_nat (Z.to_nat code)) t, rest)
                      | None => None
                      end
                    else None
                | None => None
                end
            | _ => None
            end
        | "" => None
        end
      else
        match json_string f s' with
        | Some (t, rest) => Some (String c t, rest)
        | None => None
        end
  | _, _ => None
  end.

(** A JSON number: an optional minus, an integer part without a leading
    zero, an optional fraction and an optional exponent. *)
Definition json_number (s : string) : option (jsnum * string) :=
  let '(negative, s1) :=
    match s with
    | String c s' => if Ascii.eqb c "-" then (true, s') else (false, s)
    | "" => (false, s)
    end in
  let '(ip, ni, r1) := scan_digits s1 0 0 in
  if (ni =? 0) || ((1 <? ni) && prefix "0" s1) then None
  else
    let frac :=
      match r1 with
      | String c r1' =>
          if Ascii.eqb c "." then
            let '(m, nf, r2) := scan_digits r1' ip 0 in
            if nf =? 0 then None else Some (m, nf, r2)
          else Some (ip, 0, r1)
      | "" => Some (ip, 0, r1)
      end in
    match frac with
    | Some (m, nf, r2) =>
        let '(e, rest) := scan_exponent r2 in
        Some (of_decimal negative m (e - nf), rest)
    | None => None
    end.

Fixpoint obj_set (k : string) (v : jsval) (o : List.list (string * jsval))
  : List.list (string * jsval) :=
  match o with
  | [] => [(k, v)]
  | (k', v') :: o' =>
      if String.eqb k k' then (k, v) :: o' else (k', v') :: obj_set k v o'
  end.

Fixpoint json_value (fuel : nat) (s : string) : option (jsval * string) :=
  match fuel with
  | O => None
  | S f =>
      let s := skip_ws s in
      match s with
      | String c s' =>
          match nat_of_ascii c with
          | 110%nat => if prefix "null" s then Some (VNull, drop 4 s) else None
          | 116%nat =>
              if prefix "true" s then Some (VBool true, drop 4 s) else None
          | 102%nat =>
              if prefix "false" s then Some (VBool false, drop 5 s) else None
          | 34%nat =>
              match json_string (String.length s') s' with
              | Some (t, rest) => Some (VStr t, rest)
              | None => None
              end
          | 91%nat =>
              match skip_ws s' with
              | String "]" rest => Some (VArr [], rest)
              | _ =>
                  match json_items f s' with
                  | Some (items, rest) => Some (VArr items, rest)
                  | None => None
                  end
              end
          | 123%nat =>
              match skip_ws s' with
              | String "}" rest => Some (VObj [], rest)
              | _ =>
                  match json_members f s' [] with
                  | Some (props, rest) => Some (VObj props, rest)
                  | None => None
                  end
              end
          | _ =>
              match json_number s with
              | Some (n, rest) => Some (VNum n, rest)
              | None => None
              end
          end
      | "" => None
      end
  end

with json_items (fuel : nat) (s : string)
  : option (List.list jsval * string) :=
  match fuel with
  | O => None
  | S f =>
      match json_value f s with
      | Some (v, rest) =>
          match skip_ws rest with
          | String "]" rest' => Some ([v], rest')
          | String "," rest' =>
              match json_items f rest' with
              | Some (vs, rest'') => Some (v :: vs, rest'')
              | None => None
              end
          | _ => None
          end
      | None => None
      end
  end

with json_members (fuel : nat) (s : string) (acc : List.list (string * jsval))
  : option (List.list (string * jsval) * string) :=
  match fuel with
  | O => None
  | S f =>
      match skip_ws s with
      | String q s1 =>
          if (nat_of_ascii q =? 34)%nat then
            match json_string (String.length s1) s1 with
            | Some (k, s2) =>
                match skip_ws s2 with
                | String ":" s3 =>
                    match json_value f s3 with
                    | Some (v, s4) =>
                        let acc' := obj_set k v acc in
                        match skip_ws s4 with
                        | String "}" rest => Some (acc', rest)
                        | String "," rest => json_members f rest acc'
                        | _ => None
                        end
                    | None => None
                    end
                | _ => None
                end
            | None => None
            end
          else None
      | "" => None
      end
  end.

Definition JSON_parse (text : string) : option jsval :=
  match json_value (S (String.length text)) text with
  | Some (v, rest) => if String.eqb (skip_ws rest) "" then Some v else None
  | None => None
  end.

(** *** The Function constructor, for bodies [return e] *)

Inductive token : Type :=
| TNum (n : jsnum)
| TZ
| TOp (op : string)
| TLParen
| TRParen
| TQuestion
| TColon
| TSemi.

Inductive expr : Type :=
| ENum (n : jsnum)
| EZ
| EUn (op : string) (e : expr)
| EBin (op : string) (e1 e2 : expr)
| ECond (c a b : expr).

Definition is_ident_char (c : ascii) : bool :=
  let n := nat_of_ascii c in
  ((48 <=? n) && (n <=? 57))%nat || ((65 <=? n) && (n <=? 90))%nat
  || ((97 <=? n) && (n <=? 122))%nat || (n =? 95)%nat || (n =? 36)%nat.

Definition starts_ident (s : string) : bool :=
  match s with
  | String c _ => is_ident_char c
  | "" => false
  end.

Definition operators : List.list string :=
  ["==="; "!=="; "<="; ">="; "=="; "!="; "+"; "-"; "*"; "/"; "<"; ">"; "!"].

Definition take_op (s : string) : option (string * string) :=
  match find (fun op => prefix op s) operators with
  | Some op => Some (op, drop (String.length op) s)
  | None => None
  end.

Fixpoint tokenize (fuel : nat) (s : string) : option (List.list token) :=
  match fuel, s with
  | _, "" => Some []
  | O, _ => None
  | S f, String c s' =>
      let more (t : token) (rest : string) :=
        match tokenize f rest with
        | Some ts => Some (t :: ts)
        | None => None
        end in
      let n := nat_of_ascii c in
      if (n =? 32)%nat || (n =? 9)%nat then tokenize f s'
      else if Str.is_digit c || Ascii.eqb c "." then
        match scan_decimal s with
        | Some (LitDecimal false m e, rest) =>
            if starts_ident rest || (prefix "0" s && Str.is_digit
                 (match s' with String d _ => d | "" => " "%char end))
            then None else more (TNum (of_decimal false m e)) rest
        | _ => None
        end
      else if Ascii.eqb c "z" then
        if starts_ident s' then None else more TZ s'
      else if Ascii.eqb c "(" then more TLParen s'
      else if Ascii.eqb c ")" then more TRParen s'
      else if Ascii.eqb c "?" then more TQuestion s'
      else if Ascii.eqb c ":" then more TColon s'
      else if Ascii.eqb c ";" then more TSemi s'
      else
        match take_op s with
        | Some (op, rest) => more (TOp op) rest
        | None => None
        end
  end.

(** Binding strength of the binary operators. *)
Definition op_level (op : string) : nat :=
  if String.eqb op "==" || String.eqb op "!=" || String.eqb op "==="
     || String.eqb op "!==" then 1
  else if String.eqb op "<" || String.eqb op ">" || String.eqb op "<="
          || String.eqb op ">=" then 2
  else if String.eqb op "+" || String.eqb op "-" then 3
  else if String.eqb op "*" || String.eqb op "/" then 4
  else 0.

Fixpoint parse_cond (fuel : nat) (ts : List.list token)
  : option (expr * List.list token) :=
  match fuel with
  | O => None
  | S f =>
      match parse_bin f 1 ts with
      | Some (c, TQuestion :: r1) =>
          match parse_cond f r1 with
          | Some (a, TColon :: r2) =>
              match parse_cond f r2 with
              | Some (b, r3) => Some (ECond c a b, r3)
              | None => None
              end
          | _ => None
          end
      | other => other
      end
  end

with parse_bin (fuel : nat) (level : nat) (ts : List.list token)
  : option (expr * List.list token) :=
  match fuel with
  | O => None
  | S f =>
      if (4 <? level)%nat then parse_unary f ts
      else
        match parse_bin f (S level) ts with
        | Some (lhs, rest) => parse_rest f level lhs rest
        | None => None
        end
  end

with parse_rest (fuel : nat) (level : nat) (lhs : expr) (ts : List.list token)
  : option (expr * List.list token) :=
  match fuel with
  | O => None
  | S f =>
      match ts with
      | TOp op :: r =>
          if (op_level op =? level)%nat then
            match parse_bin f (S level) r with
            | Some (rhs, r') => parse_rest f level (EBin op lhs rhs) r'
            | None => None
            end
          else Some (lhs, ts)
      | _ => Some (lhs, ts)
      end
  end

with parse_unary (fuel : nat) (ts : List.list token)
  : option (expr * List.list token) :=
  match fuel with
  | O => None
  | S f =>
      match ts with
      | TNum n :: r => Some (ENum n, r)
      | TZ :: r => Some (EZ, r)
      | TLParen :: r =>
          match parse_cond f r with
          | Some (e, TRParen :: r') => Some (e, r')
          | _ => None
          end
      | TOp op :: r =>
          if String.eqb op "-" || String.eqb op "+" || String.eqb op "!" then
            match parse_unary f r with
            | Some (e, r') => Some (EUn op e, r')
            | None => None
            end
          else None
      | _ => None
      end
  end.

(** The expression of a body [return e], [return e;] or [return]; [None]
    when the body is not of that form. *)
Definition parse_body (body : string) : option (option expr) :=
  if prefix "return" body && negb (starts_ident (drop 6 body)) then
    match tokenize (String.length body) (drop 6 body) with
    | Some ts =>
        let ts := match rev ts with TSemi :: r => rev r | _ => ts end in
        match ts with
        | [] => Some None
        | _ =>
            match parse_cond (10 * List.length ts + 10) ts with
            | Some (e, []) => Some (Some e)
            | _ => None
            end
        end
    | None => None
    end
  else None.

Definition to_number (v : jsval) : jsnum :=
  match v with
  | VNum n => n
  | VBool true => of_int 1
  | VBool false | VNull => Fin 0
  | _ => NaN
  end.

Definition truthy_val (v : jsval) : bool :=
  match v with
  | VBool b => b
  | VNum n => Num.truthy n
  | VStr s => negb (String.eqb s "")
  | VUndef | VNull => false
  | _ => true
  end.

Definition same_type (a b : jsval) : bool :=
  match a, b with
  | VNum _, VNum _ | VBool _, VBool _ => true
  | _, _ => false
  end.

Definition leb (x y : jsnum) : bool :=
  negb (is_nan x || is_nan y) && negb (ltb y x).

Definition binop (op : string) (a b : jsval) : jsval :=
  let x := to_number a in
  let y := to_number b in
  if String.eqb op "+" then VNum (add x y)
  else if String.eqb op "-" then VNum (sub x y)
  else if String.eqb op "*" then VNum (mul x y)
  else if String.eqb op "/" then VNum (div x y)
  else if String.eqb op "<" then VBool (ltb x y)
  else if String.eqb op ">" then VBool (gtb x y)
  else if String.eqb op "<=" then VBool (leb x y)
  else if String.eqb op ">=" then VBool (leb y x)
  else if String.eqb op "==" then VBool (strict_eqb x y)
  else if String.eqb op "!=" then VBool (negb (strict_eqb x y))
  else if String.eqb op "===" then VBool (same_type a b && strict_eqb x y)
  else VBool (negb (same_type a b && strict_eqb x y)).

Fixpoint eval (z : jsnum) (e : expr) : jsval :=
  match e with
  | ENum n => VNum n
  | EZ => VNum z
  | EUn op e1 =>
      let v := eval z e1 in
      if String.eqb op "-" then VNum (neg (to_number v))
      else if String.eqb op "+" then VNum (to_number v)
      else VBool (negb (truthy_val v))
  | EBin op e1 e2 => binop op (eval z e1) (eval z e2)
  | ECond c a b => if truthy_val (eval z c) then eval z a else eval z b
  end.

Definition Function_ctor (param body : string) : compiled :=
  match parse_body body with
  | Some _ => Accepted
  | None => Rejected "Unexpected token"
  end.

Definition Function_call (param body : string) (z : jsnum) : outcome jsval :=
  match parse_body body with
  | Some (Some e) => Ok (eval z e)
  | Some None => Ok VUndef
  | None => Throw (JsError "SyntaxError" "Unexpected token" false)
  end.

(** *** The option parser *)

Inductive key : Type :=
| KPoint | KBuffer | KZoom | KInput | KMaxRetries | KRetryBaseTimeout
| KConcurrency | KMethod.

Definition key_eqb (a b : key) : bool :=
  match a, b with
  | KPoint, KPoint | KBuffer, KBuffer | KZoom, KZoom | KInput, KInput
  | KMaxRetries, KMaxRetries | KRetryBaseTimeout, KRetryBaseTimeout
  | KConcurrency, KConcurrency | KMethod, KMethod => true
  | _, _ => false
  end.

Definition string_flags : List.list (string * key) :=
  [("--point", KPoint); ("-p", KPoint); ("--buffer", KBuffer); ("-b", KBuffer);
   ("--zoom", KZoom); ("-z", KZoom); ("--input", KInput); ("-i", KInput);
   ("--max-retries", KMaxRetries); ("--retry-base-timeout", KRetryBaseTimeout);
   ("--concurrency", KConcurrency); ("-c", KConcurrency);
   ("--method", KMethod); ("-m", KMethod)].

Definition lookup_flag (t : string) : option key :=
  match find (fun p => String.eqb (fst p) t) string_flags with
  | Some (_, k) => Some k
  | None => None
  end.

Definition set_string (k : key) (v : string) (o : Options) : Options :=
  let pick (k' : key) (old : opt string) :=
    if key_eqb k k' then Val v else old in
  {| url := url o; args_ := args_ o;
     point := pick KPoint (point o);
     buffer := pick KBuffer (buffer o);
     zoom := pick KZoom (zoom o);
     list := list o;
     input := pick KInput (input o);
     method := pick KMethod (method o);
     headers := headers o;
     concurrency := pick KConcurrency (concurrency o);
     verbose := verbose o;
     maxRetries := pick KMaxRetries (maxRetries o);
     retryBaseTimeout := pick KRetryBaseTimeout (retryBaseTimeout o);
     requestTimeout := requestTimeout o |}.

Definition set_flags (l v : opt bool) (t : opt jsnum) (a : opt (List.list string))
  (o : Options) : Options :=
  {| url := url o; args_ := a; point := point o; buffer := buffer o;
     zoom := zoom o; list := l; input := input o; method := method o;
     headers := headers o; concurrency := concurrency o; verbose := v;
     maxRetries := maxRetries o; retryBaseTimeout := retryBaseTimeout o;
     requestTimeout := t |}.

(** The next argument is the value of a flag unless it looks like a flag
    itself; a negative number is a value. *)
Definition is_value (t : string) : bool :=
  negb (prefix "-" t)
  || Regex.test
       (Regex.RegExp true
          (Regex.Seq (Regex.Chr "-")
             (Regex.Alt
                (Regex.Seq (Regex.Plus Regex.Digit)
                   (Regex.Opt (Regex.Seq (Regex.Chr ".")
                                 (Regex.Plus Regex.Digit))))
                (Regex.Seq (Regex.Chr ".") (Regex.Plus Regex.Digit))))
          true) t.

Fixpoint yargs_loop (toks : List.list string) (o : Options)
  (positionals : List.list string) : outcome Options :=
  match toks with
  | [] =>
      match positionals with
      | [] => Exit 1                      (* [.demand(1)] *)
      | _ =>
          Ok (set_flags (list o) (verbose o) (requestTimeout o)
                (Val (rev positionals)) o)
      end
  | t :: rest =>
      if String.eqb t "--help" || String.eqb t "-h"
         || String.eqb t "--version" || String.eqb t "-v" then Exit 0
      else if String.eqb t "--list" || String.eqb t "-l" then
        yargs_loop rest
          (set_flags (Val true) (verbose o) (requestTimeout o) (args_ o) o)
          positionals
      else if String.eqb t "--verbose" then
        yargs_loop rest
          (set_flags (list o) (Val true) (requestTimeout o) (args_ o) o)
          positionals
      else if String.eqb t "--request-timeout" then
        match rest with
        | v :: rest' =>
            if is_value v then
              yargs_loop rest'
                (if is_nan (Number v) then o
                 else set_flags (list o) (verbose o) (Val (Number v))
                        (args_ o) o)
                positionals
            else yargs_loop rest o positionals
        | [] => yargs_loop rest o positionals
        end
      else
        match lookup_flag t with
        | Some k =>
            match rest with
            | v :: rest' =>
                if is_value v then yargs_loop rest' (set_string k v o) positionals
                else yargs_loop rest (set_string k "" o) positionals
            | [] => yargs_loop rest (set_string k "" o) positionals
            end
        | None =>
            if prefix "-" t then yargs_loop rest o positionals
            else yargs_loop rest o (t :: positionals)
        end
  end.

(** The options start from the [default:] entries, read from the current
    [defaultOpts]; flags the module does not declare are skipped. *)
Definition yargs_argv (defaults : Options) (argv : List.list string)
  : outcome Options :=
  yargs_loop argv
    {| url := Undefined; args_ := Undefined;
       point := point defaults; buffer := buffer defaults;
       zoom := zoom defaults; list := list defaults;
       input := input defaults; method := method defaults;
       headers := Undefined;
       concurrency := concurrency defaults; verbose := verbose defaults;
       maxRetries := maxRetries defaults;
       retryBaseTimeout := retryBaseTimeout defaults;
       requestTimeout := requestTimeout defaults |}
    [].

#[export] Instance ref_host : Host := {|
  CliParser.JSON_parse := JSON_parse;
  CliParser.Function_ctor := Function_ctor;
  CliParser.Function_call := Function_call;
  CliParser.yargs_argv := yargs_argv
|}.

(** A world with the given arguments and files, before any call. *)
Definition initial_world (argv : List.list string)
  (fs : string -> option string) : world :=
  {| defaults := defaultOpts; process_argv := argv; files := fs;
     fs_reads := [] |}.

Definition with_argv (argv : List.list string) (w : world) : world :=
  {| defaults := defaults w; process_argv := argv; files := files w;
     fs_reads := fs_reads w |}.

Definition no_files : string -> option string := fun _ => None.

(** The text [{"type":"Point","coordinates":[1,2]}]. *)
Definition point_json : string :=
  let q := Str.dquote in
  "{" ++ q ++ "type" ++ q ++ ":" ++ q ++ "Point" ++ q ++ ","
      ++ q ++ "coordinates" ++ q ++ ":[1,2]}".

(** Two files: one holds JSON, the other does not. *)
Definition example_files (path : string) : option string :=
  if String.eqb path "area.json" then Some point_json
  else if String.eqb path "broken.json" then Some "{not json"
  else None.

(** An option bag for the tile server of the usage text, with the given
    zoom, input and concurrency. *)
Definition sample_options (z i c : opt string) : Options :=
  {| url := Val "http://tileserver.com/{z}/{x}/{y}.png";
     args_ := Val ["http://tileserver.com/{z}/{x}/{y}.png"];
     point := Undefined; buffer := Val "0km"; zoom := z;
     list := Val false; input := i; method := Val "GET";
     headers := Val []; concurrency := c; verbose := Val false;
     maxRetries := Val "5"; retryBaseTimeout := Val "5000";
     requestTimeout := Val (of_int 600000) |}.

(** An option bag with a point and no buffer. *)
Definition point_only : Options :=
  {| url := Val "http://tileserver.com/{z}/{x}/{y}.png";
     args_ := Val ["http://tileserver.com/{z}/{x}/{y}.png"];
     point := Val "62.31,23.12"; buffer := Undefined; zoom := Val "3-9";
     list := Val false; input := Null; method := Val "GET";
     headers := Val []; concurrency := Val "5"; verbose := Val false;
     maxRetries := Val "5"; retryBaseTimeout := Val "5000";
     requestTimeout := Val (of_int 600000) |}.

End RefHost.

(* ================================================================= *)
(** ** Vocabulary of the statements *)

Module Spec.

Import Num Js.

(** A non-empty run of decimal digits: what [\d+] matches. *)
Definition digits (s : string) : Prop := s <> "" /\ Str.all_digits s = true.

(** The integer that a run of digits denotes. *)
Fixpoint digits_value_from (acc : Z) (s : string) : Z :=
  match s with
  | "" => acc
  | String c s' => digits_value_from (acc * 10 + Str.digit_val c) s'
  end.

Definition digits_value (s : string) : Z := digits_value_from 0 s.

(** [zseq a n] is [a; a+1; ...], [n] numbers. *)
Fixpoint zseq (a : Z) (n : nat) : list Z :=
  match n with
  | O => []
  | S n' => a :: zseq (a + 1) n'
  end.

(** [x <= y] on numbers. *)
Definition le (x y : jsnum) : Prop := ltb x y = true \/ strict_eqb x y = true.

(** [x < y] on numbers. *)
Definition lt (x y : jsnum) : Prop := ltb x y = true.

(** A number other than [NaN]. *)
Definition ordered (x : jsnum) : Prop := is_nan x = false.

(** The code unit occurs in the string. *)
Fixpoint has_unit (c : ascii) (s : string) : bool :=
  match s with
  | "" => false
  | String d s' => Ascii.eqb c d || has_unit c s'
  end.

(** A non-negative integer, as a number: a finite number that is a whole
    multiple of one. *)
Definition whole_number (x : jsnum) : Prop :=
  exists n, 0 <= n /\ x = Fin (n * unit_scale).

(** The next character, if there is one, is not a digit. *)
Definition stops_digits (r : string) : Prop :=
  match r with
  | String c _ => Str.is_digit c = false
  | "" => True
  end.

(** White space only. *)
Fixpoint all_space (s : string) : bool :=
  match s with
  | "" => true
  | String c s' => is_space c && all_space s'
  end.

(** The string does not start with white space. *)
Definition starts_no_space (s : string) : Prop :=
  match s with
  | String c _ => is_space c = false
  | "" => True
  end.

(** The grammar of the language standard for the text of a decimal number,
    [StrDecimalLiteral], and what each text denotes.

    An optional sign. *)
Definition sign_text (negative : bool) (s : string) : Prop :=
  (s = "" /\ negative = false)
  \/ (s = "+" /\ negative = false)
  \/ (s = "-" /\ negative = true).

(** An optional exponent part: [e] or [E], an optional sign, digits. *)
Definition exponent_text (e : Z) (s : string) : Prop :=
  (s = "" /\ e = 0)
  \/ exists mark sg d negative,
       s = mark ++ sg ++ d
       /\ (mark = "e" \/ mark = "E") /\ sign_text negative sg /\ digits d
       /\ e = (if negative then - digits_value d else digits_value d).

(** [Infinity]; digits with an optional exponent; or digits, a dot, digits
    and an optional exponent, with a digit on at least one side of the dot.
    A decimal text denotes its digits, read as an integer, times the power
    of ten that the exponent and the place of the dot give. *)
Inductive decimal_literal : string -> literal -> Prop :=
| DL_infinity (negative : bool) (sg : string) :
    sign_text negative sg ->
    decimal_literal (sg ++ "Infinity") (LitInfinity negative)
| DL_integer (negative : bool) (sg ip ex : string) (e : Z) :
    sign_text negative sg -> digits ip -> exponent_text e ex ->
    decimal_literal (sg ++ ip ++ ex)
      (LitDecimal negative (digits_value ip) e)
| DL_fraction (negative : bool) (sg ip fd ex : string) (e : Z) :
    sign_text negative sg ->
    Str.all_digits ip = true -> Str.all_digits fd = true ->
    ip <> "" \/ fd <> "" -> exponent_text e ex ->
    decimal_literal (sg ++ ip ++ "." ++ fd ++ ex)
      (LitDecimal negative (digits_value (ip ++ fd))
         (e - Z.of_nat (String.length fd))).

(** [parseFloat] as the language standard words it: leading white space is
    dropped; the result is the number denoted by the longest prefix of what
    is left that is a decimal text, and [NaN] when no prefix is one. *)
Definition leading_number (s : string) (x : jsnum) : Prop :=
  exists ws t,
    s = ws ++ t /\ all_space ws = true /\ starts_no_space t
    /\ ((exists lit rest l,
           t = lit ++ rest /\ decimal_literal lit l
           /\ (forall lit' rest' l',
                 t = lit' ++ rest' -> decimal_literal lit' l' ->
                 (String.length lit' <= String.length lit)%nat)
           /\ x = literal_value l)
        \/ ((forall lit' rest' l',
               t = lit' ++ rest' -> ~ decimal_literal lit' l')
            /\ x = NaN)).

(** No object in the value has a key named [__proto__]. *)
Fixpoint proto_free (v : jsval) : bool :=
  match v with
  | VArr items => forallb proto_free items
  | VObj props =>
      (fix free_props (ps : list (string * jsval)) : bool :=
         match ps with
         | [] => true
         | (k, x) :: ps' =>
             negb (Lodash.unsafe_key k) && proto_free x && free_props ps'
         end) props
  | _ => true
  end.

(** The parts of a comma-separated list, joined again. *)
Definition join_commas (parts : list string) : string :=
  String.concat "," parts.

(** The computation leaves [defaultOpts] as it found it. *)
Definition keeps_defaults {A : Type} (m : CliParser.M A) : Prop :=
  forall w, CliParser.defaults (snd (m w)) = CliParser.defaults w.

(** A run of [n] nines. *)
Fixpoint nines (n : nat) : string :=
  match n with
  | O => ""
  | S n' => String "9" (nines n')
  end.

(** The placeholders of a tile URL template. *)
Definition placeholders : list string := ["{x}"; "{y}"; "{z}"].

(** The numbers written in a zoom string, in the order of the text. *)
Definition zoom_numbers (zoom : string) : list Z :=
  map digits_value (flat_map (Str.split ",") (Str.split "-" zoom)).

(** The zoom string is a range, not a list. *)
Definition is_range (zoom : string) : bool := has_unit "-" zoom.

(** The bounds of a range are in order and span at most 2^32 - 1 levels. *)
Definition range_in_order (zoom : string) : Prop :=
  match zoom_numbers zoom with
  | [a; b] => a <= b /\ b - a + 1 <= 2 ^ 32 - 1
  | _ => False
  end.

(** The first of the parameters that the template does not contain. *)
Fixpoint first_missing (template : string) (params : list string)
  : option string :=
  match params with
  | [] => None
  | p :: ps =>
      if Str.indexOf template p =? -1 then Some p
      else first_missing template ps
  end.

(** The character cannot continue a decimal literal that consists of
    digits only. *)
Definition ends_literal (rest : string) : Prop :=
  match rest with
  | "" => True
  | String c _ =>
      Str.is_digit c = false /\ c <> "."%char /\ c <> "e"%char
      /\ c <> "E"%char
  end.

(** A template that starts with [http:] or [https:] and contains the three
    placeholders. *)
Definition valid_template (t : string) : Prop :=
  (Str.starts_with "http:" t \/ Str.starts_with "https:" t)
  /\ Forall (fun p => Str.contains p t) placeholders.

(** The test of line 120: [point] is set and [buffer] is not. *)
Definition point_without_buffer (opts : CliParser.Options) : bool :=
  truthy (CliParser.point opts) && negb (truthy (CliParser.buffer opts)).

(** The world once [path] has been read. *)
Definition after_read (path : string) (w : CliParser.world) : CliParser.world :=
  {| CliParser.defaults := CliParser.defaults w;
     CliParser.process_argv := CliParser.process_argv w;
     CliParser.files := CliParser.files w;
     CliParser.fs_reads := (CliParser.fs_reads w ++ [path])%list |}.

(** The element of an array at an index, [undefined] beyond its end. *)
Definition at_index {A : Type} (l : list A) (i : nat) : opt A :=
  match nth_error l i with
  | Some a => Val a
  | None => Undefined
  end.

(** The array that a previous call left under a key. *)
Definition old_array {A : Type} (v : opt (list A)) : list A :=
  match v with
  | Val a => a
  | _ => []
  end.

End Spec.

(* ================================================================= *)
(** ** Facts about strings *)

Module StrFacts.

Import Str.

Lemma app_nil_r (s : string) : s ++ "" = s.
Proof. induction s; simpl; congruence. Qed.

Lemma app_assoc (s1 s2 s3 : string) : (s1 ++ s2) ++ s3 = s1 ++ (s2 ++ s3).
Proof. induction s1; simpl; congruence. Qed.

Lemma app_eq_nil (s1 s2 : string) : s1 ++ s2 = "" -> s1 = "" /\ s2 = "".
Proof. destruct s1; simpl; intros H; [auto | discriminate]. Qed.

Lemma prefix_starts_with (p s : string) :
  prefix p s = true <-> starts_with p s.
Proof.
  unfold starts_with. revert s.
  induction p as [|c p IH]; intros s; simpl.
  - destruct s; split; intros; eauto.
  - destruct s as [|d s]; simpl.
    + split; [discriminate | intros [b Hb]; discriminate].
    + destruct (ascii_dec c d) as [->|Hne].
      * rewrite IH. split; intros [b Hb]; exists b; congruence.
      * split; [discriminate | intros [b Hb]; congruence].
Qed.

Lemma indexOf_from_eq (needle s : string) (i : Z) :
  indexOf_from needle s i =
  if prefix needle s then i
  else match s with
       | "" => -1
       | String _ s' => indexOf_from needle s' (i + 1)
       end.
Proof. destruct s; reflexivity. Qed.

Lemma indexOf_from_range (needle s : string) (i : Z) :
  indexOf_from needle s i = -1 \/ i <= indexOf_from needle s i.
Proof.
  revert i. induction s as [|c s IH]; intros i; rewrite indexOf_from_eq.
  - destruct (prefix needle ""); [right; lia | now left].
  - destruct (prefix needle (String c s)); [right; lia|].
    destruct (IH (i + 1)); [now left | right; lia].
Qed.

Lemma indexOf_from_contains (needle s : string) (i : Z) :
  0 <= i -> (indexOf_from needle s i <> -1 <-> contains needle s).
Proof.
  revert i. induction s as [|c s IH]; intros i Hi; rewrite indexOf_from_eq.
  - destruct (prefix needle "") eqn:P.
    + split; [intros _ | lia].
      apply prefix_starts_with in P. destruct P as [b Hb].
      exists "", b. exact Hb.
    + split; [congruence|]. intros (f & b & Hfb). exfalso.
      destruct f; [|discriminate]. simpl in Hfb.
      assert (starts_with needle "") as S by (exists b; exact Hfb).
      apply prefix_starts_with in S. congruence.
  - destruct (prefix needle (String c s)) eqn:P.
    + split; [intros _ | lia].
      apply prefix_starts_with in P. destruct P as [b Hb].
      exists "", b. exact Hb.
    + rewrite (IH (i + 1)) by lia. split.
      * intros (f & b & Hfb). exists (String c f), b. simpl. congruence.
      * intros (f & b & Hfb). destruct f as [|d f].
        -- exfalso. simpl in Hfb.
           assert (starts_with needle (String c s)) as S by (exists b; exact Hfb).
           apply prefix_starts_with in S. congruence.
        -- exists f, b. simpl in Hfb. congruence.
Qed.

Lemma indexOf_contains (s needle : string) :
  indexOf s needle <> -1 <-> contains needle s.
Proof. apply indexOf_from_contains. lia. Qed.

Lemma indexOf_nonneg (s needle : string) :
  indexOf s needle = -1 \/ 0 <= indexOf s needle.
Proof. apply indexOf_from_range. Qed.

Lemma is_digit_not (c d : ascii) :
  is_digit c = true -> is_digit d = false -> Ascii.eqb c d = false.
Proof.
  intros Hc Hd. apply Ascii.eqb_neq. intros ->. congruence.
Qed.

Lemma split_nonempty (sep : ascii) (s : string) : split sep s <> [].
Proof.
  induction s as [|c s IH]; simpl; [discriminate|].
  destruct (Ascii.eqb c sep); [discriminate|].
  destruct (split sep s); [congruence | discriminate].
Qed.

(** A run of digits holds no separator: it is one part. *)
Lemma split_digits (sep : ascii) (d : string) :
  is_digit sep = false -> all_digits d = true -> split sep d = [d].
Proof.
  intros Hsep. induction d as [|c d IH]; simpl; [reflexivity|].
  intros H. apply andb_prop in H. destruct H as [Hc Hd].
  rewrite (is_digit_not _ _ Hc Hsep), (IH Hd). reflexivity.
Qed.

Lemma split_digits_sep (sep : ascii) (d rest : string) :
  is_digit sep = false -> all_digits d = true ->
  split sep (d ++ String sep rest) = d :: split sep rest.
Proof.
  intros Hsep. induction d as [|c d IH]; simpl.
  - intros _. now rewrite Ascii.eqb_refl.
  - intros H. apply andb_prop in H. destruct H as [Hc Hd].
    rewrite (is_digit_not _ _ Hc Hsep), (IH Hd). reflexivity.
Qed.

End StrFacts.

(* ================================================================= *)
(** ** Facts about regular expressions: matching decides the language *)

Module RegexFacts.

Import Str Regex StrFacts Spec.

Lemma lang_nil_nullable (r : re) (s : string) :
  lang r s -> s = "" -> nullable r = true.
Proof.
  induction 1; intros E; simpl; try discriminate; auto.
  - apply app_eq_nil in E. destruct E. now rewrite IHlang1, IHlang2.
  - now rewrite IHlang.
  - rewrite IHlang by assumption. apply orb_true_r.
Qed.

Lemma nullable_lang (r : re) : nullable r = true <-> lang r "".
Proof.
  split; [|intros H; now apply (lang_nil_nullable H)].
  induction r; simpl; intros H; try discriminate.
  - constructor.
  - apply andb_prop in H. destruct H.
    change "" with ("" ++ ""). constructor; auto.
  - apply orb_prop in H. destruct H; [apply L_alt_l | apply L_alt_r]; auto.
  - constructor.
Qed.

Lemma deriv_sound (c : ascii) (r : re) :
  forall s, lang (deriv c r) s -> lang r (String c s).
Proof.
  induction r; simpl; intros s H.
  - inversion H.
  - inversion H.
  - destruct (Ascii.eqb_spec c c0); inversion H; subst. constructor.
  - destruct (is_digit c) eqn:D; inversion H; subst. now constructor.
  - inversion H; subst. constructor.
  - destruct (nullable r1) eqn:N.
    + inversion H; subst.
      * match goal with X : lang (Seq _ _) _ |- _ => inversion X; subst end.
        change (String c (s1 ++ s2)) with (String c s1 ++ s2).
        constructor; auto.
      * change (String c s) with ("" ++ String c s).
        constructor; [now apply nullable_lang | auto].
    + inversion H; subst.
      change (String c (s1 ++ s2)) with (String c s1 ++ s2).
      constructor; auto.
  - inversion H; subst; [apply L_alt_l | apply L_alt_r]; auto.
  - inversion H; subst.
    change (String c (s1 ++ s2)) with (String c s1 ++ s2).
    constructor; auto.
Qed.

Lemma deriv_complete (c : ascii) (r : re) (w : string) :
  lang r w -> forall t, w = String c t -> lang (deriv c r) t.
Proof.
  induction 1; intros t E; simpl; try discriminate.
  - injection E as E1 E2; subst. rewrite Ascii.eqb_refl. constructor.
  - injection E as E1 E2; subst. rewrite H. constructor.
  - injection E as E1 E2; subst. constructor.
  - destruct s1 as [|d s1]; simpl in E.
    + subst s2. rewrite (lang_nil_nullable H eq_refl).
      apply L_alt_r. now apply IHlang2.
    + injection E as E1 E2; subst.
      assert (lang (Seq (deriv c r1) r2) (s1 ++ s2)) as S
        by (constructor; auto).
      destruct (nullable r1); [now apply L_alt_l | exact S].
  - apply L_alt_l. auto.
  - apply L_alt_r. auto.
  - destruct s1 as [|d s1]; simpl in E.
    + subst s2. now apply IHlang2.
    + injection E as E1 E2; subst. constructor; auto.
Qed.

Theorem matches_lang (s : string) :
  forall r, matches r s = true <-> lang r s.
Proof.
  induction s as [|c s IH]; intros r; simpl.
  - apply nullable_lang.
  - rewrite IH. split; [apply deriv_sound|].
    intros H. now apply (deriv_complete H).
Qed.

Lemma lang_Lit (l s : string) : lang (Lit l) s <-> s = l.
Proof.
  revert s. induction l as [|c l IH]; simpl; intros s.
  - split; [intros H; now inversion H | intros ->; constructor].
  - split.
    + intros H. inversion H; subst.
      match goal with X : lang (Chr _) _ |- _ => inversion X; subst end.
      simpl. f_equal. now apply IH.
    + intros ->. change (String c l) with (String c "" ++ l).
      constructor; [constructor | now apply IH].
Qed.

Lemma lang_star_any (s : string) : lang (Star AnyUnit) s.
Proof.
  induction s as [|c s IH]; [constructor|].
  change (String c s) with (String c "" ++ s). constructor; [constructor | auto].
Qed.

Lemma lang_seq_eps_l (r : re) (s : string) : lang (Seq Eps r) s <-> lang r s.
Proof.
  split.
  - intros H. inversion H; subst.
    match goal with X : lang Eps _ |- _ => inversion X; subst end. auto.
  - intros H. change s with ("" ++ s). constructor; [constructor | auto].
Qed.

Lemma lang_seq_eps_r (r : re) (s : string) : lang (Seq r Eps) s <-> lang r s.
Proof.
  split.
  - intros H. inversion H; subst.
    match goal with X : lang Eps _ |- _ => inversion X; subst end.
    now rewrite app_nil_r.
  - intros H. rewrite <- (app_nil_r s). constructor; [auto | constructor].
Qed.

(** [/^body$/] *)
Lemma test_anchored (b : re) (s : string) :
  test (RegExp true b true) s = true <-> lang b s.
Proof.
  unfold test; simpl. now rewrite matches_lang, lang_seq_eps_l, lang_seq_eps_r.
Qed.

(** [/^body/] *)
Lemma test_prefix (b : re) (s : string) :
  test (RegExp true b false) s = true <->
  exists s1 s2, s = s1 ++ s2 /\ lang b s1.
Proof.
  unfold test; simpl. rewrite matches_lang, lang_seq_eps_l. split.
  - intros H. inversion H; subst. eauto.
  - intros (s1 & s2 & -> & H). constructor; [auto | apply lang_star_any].
Qed.

(** [/body$/] *)
Lemma test_suffix (b : re) (s : string) :
  test (RegExp false b true) s = true <->
  exists s1 s2, s = s1 ++ s2 /\ lang b s2.
Proof.
  unfold test; simpl. rewrite matches_lang. split.
  - intros H. inversion H; subst.
    match goal with X : lang (Seq b Eps) _ |- _ =>
      apply (proj1 (lang_seq_eps_r _ _)) in X end. eauto.
  - intros (s1 & s2 & -> & H).
    constructor; [apply lang_star_any | now apply lang_seq_eps_r].
Qed.

Lemma all_digits_app (s1 s2 : string) :
  all_digits (s1 ++ s2) = all_digits s1 && all_digits s2.
Proof.
  induction s1 as [|c s1 IH]; simpl; [reflexivity|].
  now rewrite IH, andb_assoc.
Qed.

Lemma lang_star_digit (s : string) :
  lang (Star Digit) s <-> all_digits s = true.
Proof.
  split.
  - intros H. remember (Star Digit) as r eqn:E.
    induction H; try discriminate; [reflexivity|].
    injection E as ->. inversion H; subst. simpl.
    match goal with X : is_digit _ = true |- _ => rewrite X end. auto.
  - induction s as [|c s IH]; simpl; intros H; [constructor|].
    apply andb_prop in H. destruct H as [Hc Hs].
    change (String c s) with (String c "" ++ s).
    constructor; [now constructor | auto].
Qed.

(** [\d+] *)
Lemma lang_plus_digit (s : string) : lang (Plus Digit) s <-> digits s.
Proof.
  unfold Plus, digits. split.
  - intros H. inversion H; subst.
    match goal with X : lang Digit _ |- _ => inversion X; subst end.
    simpl. split; [discriminate|].
    match goal with X : is_digit _ = true |- _ => rewrite X end.
    now apply lang_star_digit.
  - intros [Hne Hd]. destruct s as [|c s]; [congruence|].
    simpl in Hd. apply andb_prop in Hd. destruct Hd as [Hc Hs].
    change (String c s) with (String c "" ++ s).
    constructor; [now constructor | now apply lang_star_digit].
Qed.

(** [/^\d+$/] *)
Lemma test_number_re (s : string) :
  test CliParser.number_re s = true <-> digits s.
Proof. unfold CliParser.number_re. now rewrite test_anchored, lang_plus_digit. Qed.

(** [/mi$/] *)
Lemma test_mi_re (s : string) :
  test CliParser.mi_re s = true <-> ends_with "mi" s.
Proof.
  unfold CliParser.mi_re, ends_with. rewrite test_suffix. split.
  - intros (s1 & s2 & -> & H). apply lang_Lit in H. subst. eauto.
  - intros (f & ->). exists f, "mi". split; [reflexivity | now apply lang_Lit].
Qed.

Lemma lang_seq_inv (r1 r2 : re) (s : string) :
  lang (Seq r1 r2) s <->
  exists s1 s2, s = s1 ++ s2 /\ lang r1 s1 /\ lang r2 s2.
Proof.
  split.
  - intros H. inversion H; subst. eauto.
  - intros (s1 & s2 & -> & H1 & H2). now constructor.
Qed.

Lemma lang_chr (c : ascii) (s : string) : lang (Chr c) s <-> s = String c "".
Proof.
  split; [intros H; now inversion H | intros ->; constructor].
Qed.

Lemma lang_opt (r : re) (s : string) : lang (Opt r) s <-> lang r s \/ s = "".
Proof.
  unfold Opt. split.
  - intros H. inversion H; subst; [now left|].
    match goal with X : lang Eps _ |- _ => inversion X end. now right.
  - intros [H | ->]; [now apply L_alt_l | apply L_alt_r; constructor].
Qed.

(** [/^https?\:/] *)
Lemma test_url_re (s : string) :
  test CliParser.url_re s = true <->
  starts_with "http:" s \/ starts_with "https:" s.
Proof.
  unfold CliParser.url_re, starts_with. rewrite test_prefix. split.
  - intros (s1 & s2 & -> & H).
    apply lang_seq_inv in H. destruct H as (a & b & -> & Ha & Hb).
    apply lang_Lit in Ha. subst a.
    apply lang_seq_inv in Hb. destruct Hb as (o & k & -> & Ho & Hk).
    apply lang_chr in Hk. subst k.
    apply lang_opt in Ho. destruct Ho as [Ho | ->].
    + apply lang_chr in Ho. subst o. right. exists s2. reflexivity.
    + left. exists s2. reflexivity.
  - intros [[b ->] | [b ->]].
    + exists "http:", b. split; [reflexivity|].
      apply lang_seq_inv. exists "http", ":". split; [reflexivity|].
      split; [now apply lang_Lit|].
      apply lang_seq_inv. exists "", ":". split; [reflexivity|].
      split; [apply lang_opt; now right | now apply lang_chr].
    + exists "https:", b. split; [reflexivity|].
      apply lang_seq_inv. exists "http", "s:". split; [reflexivity|].
      split; [now apply lang_Lit|].
      apply lang_seq_inv. exists "s", ":". split; [reflexivity|].
      split; [apply lang_opt; left; now apply lang_chr | now apply lang_chr].
Qed.

End RegexFacts.

(* ================================================================= *)
(** ** Facts about numbers: integers up to 2^53 are computed exactly *)

Module NumFacts.

Import Num.

Lemma unit_scale_pos : 0 < unit_scale.
Proof. reflexivity. Qed.

Lemma round_mag_zero (smin : Z) : round_mag smin 0 = 0.
Proof.
  unfold round_mag. simpl Z.log2.
  destruct (Z.max (0 + 1 - 53) smin <=? 0); [reflexivity|].
  rewrite Z.shiftr_0_l, Z.shiftl_0_l. simpl.
  destruct (Z.shiftl 1 (Z.max (-52) smin - 1) <? 0) eqn:E1; simpl.
  - apply Z.ltb_lt in E1.
    destruct (Z.max (-52) smin - 1) eqn:E2.
    + simpl in E1. lia.
    + rewrite Z.shiftl_mul_pow2 in E1 by lia.
      pose proof (Z.pow_pos_nonneg 2 (Z.pos p)). lia.
    + rewrite Z.shiftl_div_pow2 in E1 by lia.
      pose proof (Z.div_pos 1 (2 ^ (- Z.neg p))).
      pose proof (Z.pow_pos_nonneg 2 (- Z.neg p)). lia.
  - rewrite andb_false_r. apply Z.shiftl_0_l.
Qed.

(** A magnitude of at most 53 significant bits above its trailing zeros is
    its own rounding. *)
Lemma round_mag_exact (smin b j : Z) :
  0 < b < 2 ^ 53 -> 0 <= j -> smin <= j ->
  round_mag smin (b * 2 ^ j) = b * 2 ^ j.
Proof.
  intros Hb Hj Hs. unfold round_mag.
  rewrite Z.log2_mul_pow2 by lia.
  assert (Z.log2 b < 53) as Hl by (apply Z.log2_lt_pow2; lia).
  set (s := Z.max (j + Z.log2 b + 1 - 53) smin).
  assert (s <= j) as Hsj by (unfold s; lia).
  destruct (s <=? 0) eqn:E; [reflexivity|].
  apply Z.leb_gt in E.
  assert (b * 2 ^ j = (b * 2 ^ (j - s)) * 2 ^ s) as Hsplit.
  { rewrite <- Z.mul_assoc, <- Z.pow_add_r by lia. do 2 f_equal. lia. }
  assert (0 < 2 ^ s) as Hp by (apply Z.pow_pos_nonneg; lia).
  assert (Z.shiftr (b * 2 ^ j) s = b * 2 ^ (j - s)) as Hq.
  { rewrite Z.shiftr_div_pow2 by lia. rewrite Hsplit at 1.
    apply Z.div_mul. lia. }
  rewrite Hq.
  assert (Z.shiftl (b * 2 ^ (j - s)) s = b * 2 ^ j) as Hback.
  { rewrite Z.shiftl_mul_pow2 by lia. now rewrite <- Hsplit. }
  rewrite Hback, Z.sub_diag.
  assert (0 < Z.shiftl 1 (s - 1)) as Hh.
  { rewrite Z.shiftl_mul_pow2 by lia.
    pose proof (Z.pow_pos_nonneg 2 (s - 1)). lia. }
  replace (Z.shiftl 1 (s - 1) <? 0) with false by (symmetry; apply Z.ltb_ge; lia).
  replace (0 =? Z.shiftl 1 (s - 1)) with false by (symmetry; apply Z.eqb_neq; lia).
  simpl. exact Hback.
Qed.

Lemma max_units_bound (n : Z) :
  0 <= n <= 2 ^ 53 -> n * unit_scale <= max_units.
Proof.
  intros H. apply Z.le_trans with (2 ^ 53 * unit_scale).
  - apply Z.mul_le_mono_nonneg_r; [pose proof unit_scale_pos|]; lia.
  - apply Z.leb_le. vm_compute. reflexivity.
Qed.

(** Up to 2^53 every integer is a double. *)
Lemma round_mag_int (smin j n : Z) :
  0 < n <= 2 ^ 53 -> 0 <= j -> smin <= j ->
  round_mag smin (n * 2 ^ j) = n * 2 ^ j.
Proof.
  intros Hn Hj Hs.
  destruct (Z.eq_dec n (2 ^ 53)) as [->|Hne].
  - replace (2 ^ 53 * 2 ^ j) with (1 * 2 ^ (53 + j))
      by (rewrite Z.pow_add_r by lia; lia).
    apply round_mag_exact; lia.
  - apply round_mag_exact; lia.
Qed.

Lemma round_mag_units (smin n : Z) :
  0 < n <= 2 ^ 53 -> smin <= 1074 ->
  round_mag smin (n * unit_scale) = n * unit_scale.
Proof. intros Hn Hs. unfold unit_scale. apply round_mag_int; lia. Qed.

Lemma of_units_int (n : Z) :
  0 < n <= 2 ^ 53 -> of_units false (n * unit_scale) = of_int n.
Proof.
  intros Hn. pose proof unit_scale_pos as HU. unfold of_units.
  replace (max_units <? n * unit_scale) with false
    by (symmetry; apply Z.ltb_ge; apply max_units_bound; lia).
  replace (n * unit_scale =? 0) with false by (symmetry; apply Z.eqb_neq; nia).
  reflexivity.
Qed.

Lemma round_units_int (n : Z) :
  0 < n <= 2 ^ 53 -> round_units (n * unit_scale) = of_int n.
Proof.
  intros Hn. pose proof unit_scale_pos as HU. unfold round_units.
  rewrite Z.abs_eq by nia. rewrite round_mag_units by lia.
  replace (n * unit_scale <? 0) with false by (symmetry; apply Z.ltb_ge; nia).
  now apply of_units_int.
Qed.

Lemma quarter_units (n : Z) : n * 2 ^ 1076 = n * unit_scale * 2 ^ 2.
Proof.
  unfold unit_scale. rewrite <- Z.mul_assoc, <- Z.pow_add_r by lia. reflexivity.
Qed.

(** Rounding an integer given in quarter units. *)
Lemma round_quarter_int (n : Z) :
  0 <= n <= 2 ^ 53 ->
  of_units false (Z.shiftr (round_mag 2 (n * 2 ^ 1076)) 2) = of_int n.
Proof.
  intros Hn. destruct (Z.eq_dec n 0) as [->|Hne].
  - simpl (0 * 2 ^ 1076). now rewrite round_mag_zero.
  - rewrite round_mag_int by lia.
    rewrite Z.shiftr_div_pow2, quarter_units, Z.div_mul by lia.
    apply of_units_int. lia.
Qed.

Lemma add_int (a b : Z) :
  0 <= a -> 0 <= b -> a + b <= 2 ^ 53 ->
  add (of_int a) (of_int b) = of_int (a + b).
Proof.
  intros Ha Hb Hab. pose proof unit_scale_pos as HU.
  unfold add, of_int. cbn [units].
  rewrite <- Z.mul_add_distr_r.
  destruct ((a + b) * unit_scale =? 0) eqn:E.
  - apply Z.eqb_eq in E. now rewrite E.
  - apply Z.eqb_neq in E. apply round_units_int. nia.
Qed.

Lemma sub_int (a b : Z) :
  0 <= a <= b -> b <= 2 ^ 53 -> sub (of_int b) (of_int a) = of_int (b - a).
Proof.
  intros Ha Hb. pose proof unit_scale_pos as HU.
  unfold sub, neg, of_int.
  destruct (a * unit_scale =? 0) eqn:E0.
  - apply Z.eqb_eq in E0. assert (a = 0) as -> by nia.
    unfold add. cbn [units]. rewrite Z.add_0_r, Z.sub_0_r.
    destruct (b * unit_scale =? 0) eqn:E.
    + apply Z.eqb_eq in E. now rewrite E.
    + apply Z.eqb_neq in E. apply round_units_int. nia.
  - unfold add. cbn [units].
    replace (b * unit_scale + - (a * unit_scale)) with ((b - a) * unit_scale)
      by ring.
    destruct ((b - a) * unit_scale =? 0) eqn:E.
    + apply Z.eqb_eq in E. now rewrite E.
    + apply Z.eqb_neq in E. apply round_units_int. nia.
Qed.

Lemma ltb_int (a b : Z) : ltb (of_int a) (of_int b) = (a <? b).
Proof.
  pose proof unit_scale_pos as HU. unfold ltb, of_int. cbn [units].
  destruct (a <? b) eqn:E.
  - apply Z.ltb_lt in E. apply Z.ltb_lt. nia.
  - apply Z.ltb_ge in E. apply Z.ltb_ge. nia.
Qed.

Lemma strict_eqb_int (a b : Z) : strict_eqb (of_int a) (of_int b) = (a =? b).
Proof.
  pose proof unit_scale_pos as HU. unfold strict_eqb, of_int. cbn [units].
  destruct (a =? b) eqn:E.
  - apply Z.eqb_eq in E. apply Z.eqb_eq. now subst.
  - apply Z.eqb_neq in E. apply Z.eqb_neq. nia.
Qed.

Lemma of_int_inj (a b : Z) : of_int a = of_int b -> a = b.
Proof.
  pose proof unit_scale_pos as HU. unfold of_int. intros H.
  injection H as H. nia.
Qed.

(** The double nearest to the integer [v], for [v] up to 2^53. *)
Lemma of_decimal_int (v : Z) :
  0 <= v <= 2 ^ 53 -> of_decimal false v 0 = of_int v.
Proof.
  intros Hv. unfold of_decimal, round_ratio. simpl (0 <=? 0).
  cbv iota. rewrite Z.pow_0_r, Z.mul_1_r, Z.mod_1_r, Z.div_1_r. simpl (0 =? 0).
  cbv iota. now apply round_quarter_int.
Qed.

(** Division by one. *)
Lemma div_int_one (n : Z) :
  0 <= n <= 2 ^ 53 -> div (of_int n) (of_int 1) = of_int n.
Proof.
  intros Hn. pose proof unit_scale_pos as HU.
  unfold div, of_int. cbn [units is_neg].
  replace (1 * unit_scale =? 0) with false by (symmetry; apply Z.eqb_neq; lia).
  replace (n * unit_scale <? 0) with false by (symmetry; apply Z.ltb_ge; nia).
  replace (1 * unit_scale <? 0) with false by (symmetry; apply Z.ltb_ge; lia).
  simpl xorb. rewrite !Z.abs_eq by nia. rewrite Z.mul_1_l.
  unfold round_ratio.
  replace (n * unit_scale * 2 ^ 1076) with (n * 2 ^ 1076 * unit_scale) by ring.
  rewrite Z.mod_mul, Z.div_mul by lia. simpl (0 =? 0). cbv iota.
  now apply round_quarter_int.
Qed.

Lemma ceil_int (n : Z) : 0 <= n -> ceil (of_int n) = of_int n.
Proof.
  intros Hn. pose proof unit_scale_pos as HU. unfold ceil, of_int.
  replace (- (n * unit_scale)) with ((- n) * unit_scale) by ring.
  rewrite Z.div_mul by lia.
  replace (- - n * unit_scale) with (n * unit_scale) by ring.
  replace (n * unit_scale <? 0) with false by (symmetry; apply Z.ltb_ge; nia).
  now rewrite andb_false_r.
Qed.

Lemma max_int_zero (n : Z) : 0 <= n -> max (of_int n) (Fin 0) = of_int n.
Proof.
  intros Hn. pose proof unit_scale_pos as HU. unfold max, of_int, ltb. cbn [units].
  replace (n * unit_scale <? 0) with false by (symmetry; apply Z.ltb_ge; nia).
  reflexivity.
Qed.

Lemma array_length_int (n : Z) :
  0 <= n <= 2 ^ 32 - 1 -> array_length (of_int n) = Some n.
Proof.
  intros Hn. pose proof unit_scale_pos as HU. unfold array_length, of_int.
  rewrite Z.mod_mul, Z.div_mul by lia.
  replace (0 <=? n * unit_scale) with true by (symmetry; apply Z.leb_le; nia).
  replace (n <=? 2 ^ 32 - 1) with true by (symmetry; apply Z.leb_le; lia).
  reflexivity.
Qed.

Lemma truthy_one : truthy (of_int 1) = true.
Proof. reflexivity. Qed.

(** The rounding agrees with the Standard Library's binary64 on samples:
    0.1, 0.1 + 0.2, 0.1 - 0.3, 1/3, 0.1 * 3, 2^53 + 1, 2^53 + 3, 10^400 and a
    subnormal quotient. *)
Lemma rounding_agrees_with_binary64 :
  let spec := SpecFloat.binary_normalize 53 1024 in
  let tenth := of_decimal false 1 (-1) in
  to_spec tenth
  = SpecFloat.SFdiv 53 1024 (to_spec (of_int 1)) (to_spec (of_int 10))
  /\ to_spec (add tenth (of_decimal false 2 (-1)))
     = SpecFloat.SFadd 53 1024 (to_spec tenth)
         (to_spec (of_decimal false 2 (-1)))
  /\ to_spec (sub tenth (of_decimal false 3 (-1)))
     = SpecFloat.SFsub 53 1024 (to_spec tenth)
         (to_spec (of_decimal false 3 (-1)))
  /\ to_spec (div (of_int 1) (of_int 3))
     = SpecFloat.SFdiv 53 1024 (to_spec (of_int 1)) (to_spec (of_int 3))
  /\ to_spec (mul tenth (of_int 3))
     = SpecFloat.SFmul 53 1024 (to_spec tenth) (to_spec (of_int 3))
  /\ to_spec (of_decimal false (2 ^ 53 + 1) 0) = spec (2 ^ 53 + 1) 0 false
  /\ to_spec (of_decimal false (2 ^ 53 + 3) 0) = spec (2 ^ 53 + 3) 0 false
  /\ to_spec (of_decimal false 1 400) = spec (10 ^ 400) 0 false
  /\ to_spec (div (of_decimal false 1 (-320)) (of_int 3))
     = SpecFloat.SFdiv 53 1024 (to_spec (of_decimal false 1 (-320)))
         (to_spec (of_int 3)).
Proof. vm_compute. repeat split; reflexivity. Qed.

End NumFacts.

(* ================================================================= *)
(** ** Facts about [Number] and [parseFloat] on runs of digits *)

Module ParseFacts.

Import Num Js Str Spec StrFacts NumFacts.

Lemma digit_char (c : ascii) :
  is_digit c = true ->
  In c ["0"; "1"; "2"; "3"; "4"; "5"; "6"; "7"; "8"; "9"]%char.
Proof.
  destruct c as [[] [] [] [] [] [] [] []]; cbv; intros H;
    try discriminate; intuition.
Qed.

(** Splits a goal about a digit into its ten cases. *)
Ltac digit_cases H :=
  apply digit_char in H; simpl in H;
  repeat (destruct H as [H | H]; [subst | ]); [.. | contradiction].

Lemma digit_val_range (c : ascii) : is_digit c = true -> 0 <= digit_val c <= 9.
Proof. intros H. digit_cases H; cbv; split; discriminate. Qed.

Lemma digit_not_space (c : ascii) : is_digit c = true -> is_space c = false.
Proof. intros H. digit_cases H; reflexivity. Qed.

Lemma digit_not_sign (c : ascii) (s : string) :
  is_digit c = true -> scan_sign (String c s) = (false, String c s).
Proof. intros H. digit_cases H; reflexivity. Qed.

Lemma digit_not_Infinity (c : ascii) (s : string) :
  is_digit c = true -> prefix "Infinity" (String c s) = false.
Proof. intros H. digit_cases H; reflexivity. Qed.

Lemma digit_not_radix (c : ascii) :
  is_digit c = true ->
  (if Ascii.eqb c "x" || Ascii.eqb c "X" then 16
   else if Ascii.eqb c "o" || Ascii.eqb c "O" then 8
   else if Ascii.eqb c "b" || Ascii.eqb c "B" then 2
   else 0) = 0.
Proof. intros H. digit_cases H; reflexivity. Qed.

Lemma digits_value_from_nonneg (d : string) :
  all_digits d = true -> forall acc, 0 <= acc -> 0 <= digits_value_from acc d.
Proof.
  induction d as [|c d IH]; simpl; intros H acc Hacc; [assumption|].
  apply andb_prop in H. destruct H as [Hc Hd].
  apply IH; [assumption|]. pose proof (digit_val_range _ Hc). lia.
Qed.

Lemma digits_value_nonneg (d : string) :
  all_digits d = true -> 0 <= digits_value d.
Proof. intros H. apply digits_value_from_nonneg; [assumption | lia]. Qed.

Lemma starts_nondigit (rest : string) :
  ends_literal rest ->
  match rest with String c _ => is_digit c = false | "" => True end.
Proof. destruct rest; simpl; tauto. Qed.

(** Scanning digits stops at the first character that is not a digit. *)
Lemma scan_digits_run (d rest : string) :
  all_digits d = true ->
  match rest with String c _ => is_digit c = false | "" => True end ->
  forall acc n,
    scan_digits (d ++ rest) acc n
    = (digits_value_from acc d, n + Z.of_nat (String.length d), rest).
Proof.
  intros Hd Hrest. induction d as [|c d IH]; intros acc n.
  - simpl. rewrite Z.add_0_r. destruct rest as [|c r]; [reflexivity|].
    simpl. now rewrite Hrest.
  - simpl in Hd. apply andb_prop in Hd. destruct Hd as [Hc Hd].
    cbn [append scan_digits digits_value_from String.length]. rewrite Hc.
    rewrite (IH Hd). f_equal. f_equal. lia.
Qed.

Lemma trim_start_digits (d : string) :
  all_digits d = true -> trim_start d = d.
Proof.
  destruct d as [|c d]; simpl; [reflexivity|]. intros H.
  apply andb_prop in H. destruct H as [Hc _].
  now rewrite (digit_not_space _ Hc).
Qed.

Lemma trim_end_digits (d : string) :
  all_digits d = true -> trim_end d = d.
Proof.
  induction d as [|c d IH]; simpl; [reflexivity|]. intros H.
  apply andb_prop in H. destruct H as [Hc Hd].
  now rewrite (digit_not_space _ Hc), (IH Hd).
Qed.

Lemma non_decimal_digits (d : string) :
  all_digits d = true -> non_decimal d = None.
Proof.
  destruct d as [|z [|c [|e ds]]]; try reflexivity. simpl. intros H.
  apply andb_prop in H. destruct H as [_ H].
  apply andb_prop in H. destruct H as [Hc _].
  rewrite (digit_not_radix _ Hc). simpl. now rewrite orb_true_r.
Qed.

(** A run of digits, followed by something that cannot continue a literal,
    scans as the integer it denotes. *)
Lemma scan_decimal_digits (d rest : string) :
  digits d -> ends_literal rest ->
  scan_decimal (d ++ rest) = Some (LitDecimal false (digits_value d) 0, rest).
Proof.
  intros [Hne Hd] Hrest. destruct d as [|c d]; [congruence|].
  assert (is_digit c = true) as Hc
    by (simpl in Hd; now apply andb_prop in Hd).
  unfold scan_decimal. change (String c d ++ rest) with (String c (d ++ rest)).
  rewrite (digit_not_sign _ _ Hc), (digit_not_Infinity _ _ Hc).
  change (String c (d ++ rest)) with (String c d ++ rest).
  rewrite (scan_digits_run _ _ Hd (starts_nondigit _ Hrest)).
  assert ((0 + Z.of_nat (String.length (String c d)) =? 0) = false) as Hlen
    by (apply Z.eqb_neq; simpl String.length; lia).
  unfold scan_fraction. destruct rest as [|c0 r].
  - rewrite Hlen. simpl. reflexivity.
  - destruct Hrest as (Hdg & Hdot & He & HE).
    apply Ascii.eqb_neq in Hdot, He, HE.
    rewrite Hdot, Hlen. cbn [andb]. unfold scan_exponent.
    rewrite He, HE. reflexivity.
Qed.

Theorem Number_digits (d : string) :
  digits d -> Number d = of_decimal false (digits_value d) 0.
Proof.
  intros Hd. pose proof Hd as [Hne Hall]. unfold Number.
  rewrite (trim_start_digits _ Hall), (trim_end_digits _ Hall).
  apply String.eqb_neq in Hne. rewrite Hne.
  rewrite (non_decimal_digits _ Hall).
  pose proof (@scan_decimal_digits d "" Hd I) as S.
  rewrite app_nil_r in S. rewrite S. reflexivity.
Qed.

(** Below 2^53 [Number] is exact. *)
Theorem Number_digits_exact (d : string) :
  digits d -> digits_value d <= 2 ^ 53 -> Number d = of_int (digits_value d).
Proof.
  intros Hd Hv. rewrite (Number_digits Hd). apply of_decimal_int.
  split; [apply digits_value_nonneg; apply Hd | assumption].
Qed.

Lemma trim_start_digits_app (d rest : string) :
  digits d -> trim_start (d ++ rest) = d ++ rest.
Proof.
  intros [Hne Hd]. destruct d as [|c d]; [congruence|]. simpl in *.
  apply andb_prop in Hd. destruct Hd as [Hc _].
  now rewrite (digit_not_space _ Hc).
Qed.

Theorem parseFloat_digits (d rest : string) :
  digits d -> ends_literal rest -> digits_value d <= 2 ^ 53 ->
  parseFloat (d ++ rest) = of_int (digits_value d).
Proof.
  intros Hd Hrest Hv. unfold parseFloat.
  rewrite (trim_start_digits_app _ Hd), (@scan_decimal_digits d rest Hd Hrest).
  simpl. apply of_decimal_int.
  split; [apply digits_value_nonneg; apply Hd | assumption].
Qed.

End ParseFacts.

(* ================================================================= *)
(** ** The scanner of decimal literals against the grammar *)

Module LiteralFacts.

Import Num Js Str Spec StrFacts ParseFacts.

Lemma length_app (a b : string) :
  String.length (a ++ b) = (String.length a + String.length b)%nat.
Proof. induction a; simpl; congruence. Qed.

Lemma digits_value_from_app (a b : string) (acc : Z) :
  digits_value_from acc (a ++ b)
  = digits_value_from (digits_value_from acc a) b.
Proof. revert acc. induction a; simpl; intros acc; [reflexivity | apply IHa]. Qed.

Lemma substring_all (s : string) : substring 0 (String.length s) s = s.
Proof. induction s; simpl; congruence. Qed.

(** Every string starts with its longest run of digits. *)
Lemma digit_run_exists (u : string) :
  exists d r, u = d ++ r /\ all_digits d = true /\ stops_digits r.
Proof.
  induction u as [|c u (d & r & E & Hd & Hr)].
  - exists "", "". now repeat split.
  - destruct (is_digit c) eqn:Hc.
    + exists (String c d), r. simpl. rewrite Hc, Hd, <- E. now repeat split.
    + exists "", (String c u). now repeat split.
Qed.

(** A run of digits at the start of a string is part of the longest one. *)
Lemma digits_prefix (a : string) :
  all_digits a = true ->
  forall x d r, a ++ x = d ++ r -> all_digits d = true -> stops_digits r ->
  exists c, d = a ++ c /\ x = c ++ r /\ all_digits c = true.
Proof.
  induction a as [|ch a IH]; intros Ha x d r E Hd Hr.
  - exists d. simpl in E. now repeat split.
  - simpl in Ha. apply andb_prop in Ha. destruct Ha as [Hch Ha].
    destruct d as [|ch' d'].
    + simpl in E. subst r. simpl in Hr. congruence.
    + simpl in E, Hd. injection E as -> E.
      apply andb_prop in Hd. destruct Hd as [_ Hd].
      destruct (IH Ha _ _ _ E Hd Hr) as (c & -> & -> & Hc).
      exists c. now repeat split.
Qed.

Lemma scan_digits_max (u : string) (acc n : Z) :
  exists d r,
    u = d ++ r /\ all_digits d = true /\ stops_digits r
    /\ scan_digits u acc n
       = (digits_value_from acc d, n + Z.of_nat (String.length d), r).
Proof.
  destruct (digit_run_exists u) as (d & r & -> & Hd & Hr).
  exists d, r. repeat split; try assumption. now apply scan_digits_run.
Qed.

Lemma trim_start_spec (s : string) :
  exists ws,
    s = ws ++ trim_start s /\ all_space ws = true
    /\ starts_no_space (trim_start s).
Proof.
  induction s as [|c s (ws & E & Hws & Ht)].
  - exists "". now repeat split.
  - simpl. destruct (is_space c) eqn:Hc.
    + exists (String c ws). simpl. rewrite Hc, Hws, <- E. now repeat split.
    + exists "". now repeat split.
Qed.

(** The sign that the scanner reads is a sign of the grammar. *)
Lemma scan_sign_spec (t : string) :
  exists sg, sign_text (fst (scan_sign t)) sg /\ t = sg ++ snd (scan_sign t).
Proof.
  destruct t as [|c t]; [exists ""; split; [now left | reflexivity]|].
  unfold scan_sign. destruct (Ascii.eqb c "-") eqn:E1.
  - apply Ascii.eqb_eq in E1. subst c. exists "-".
    split; [right; right; now split | reflexivity].
  - destruct (Ascii.eqb c "+") eqn:E2.
    + apply Ascii.eqb_eq in E2. subst c. exists "+".
      split; [right; left; now split | reflexivity].
    + exists "". split; [now left | reflexivity].
Qed.

(** A sign of the grammar is read when what follows is not itself a sign. *)
Lemma scan_sign_text (negative : bool) (sg body : string) :
  sign_text negative sg -> scan_sign body = (false, body) ->
  scan_sign (sg ++ body) = (negative, body).
Proof.
  intros [[-> ->] | [[-> ->] | [-> ->]]] H; [exact H | reflexivity..].
Qed.

Lemma unsigned_digit (c : ascii) (b : string) :
  is_digit c = true ->
  scan_sign (String c b) = (false, String c b)
  /\ prefix "Infinity" (String c b) = false.
Proof.
  intros H. split; [now apply digit_not_sign | now apply digit_not_Infinity].
Qed.

Lemma unsigned_fraction (ip b : string) :
  all_digits ip = true ->
  scan_sign (ip ++ String "." b) = (false, ip ++ String "." b)
  /\ prefix "Infinity" (ip ++ String "." b) = false.
Proof.
  destruct ip as [|c ip]; simpl; intros H; [now split|].
  apply andb_prop in H. destruct H as [Hc _].
  now apply unsigned_digit.
Qed.

Lemma not_digit_mark (c : ascii) :
  Ascii.eqb c "e" || Ascii.eqb c "E" = true -> is_digit c = false.
Proof.
  intros H. apply orb_prop in H.
  destruct H as [H | H]; apply Ascii.eqb_eq in H; subst c; reflexivity.
Qed.

(** What the scanner reads as an exponent is an exponent of the grammar. *)
Lemma scan_exponent_spec (r2 : string) :
  exists ex,
    r2 = ex ++ snd (scan_exponent r2)
    /\ exponent_text (fst (scan_exponent r2)) ex.
Proof.
  destruct r2 as [|c r]; [exists ""; split; [reflexivity | now left]|].
  unfold scan_exponent.
  destruct (Ascii.eqb c "e" || Ascii.eqb c "E") eqn:Em;
    [|exists ""; split; [reflexivity | now left]].
  destruct (scan_sign_spec r) as (sg & Hsg & Er).
  destruct (scan_sign r) as [negative s'']. cbn [fst snd] in Hsg, Er.
  destruct (scan_digits_max s'' 0 0) as (d & r' & -> & Hd & Hr & ->).
  destruct (0 + Z.of_nat (String.length d) =? 0) eqn:Hn.
  - exists "". split; [reflexivity | now left].
  - apply Z.eqb_neq in Hn. cbn [fst snd].
    exists (String c (sg ++ d)). split.
    + simpl. rewrite app_assoc. now rewrite Er.
    + right. exists (String c ""), sg, d, negative.
      split; [reflexivity|]. split.
      * apply orb_prop in Em.
        destruct Em as [E | E]; apply Ascii.eqb_eq in E; subst c; auto.
      * split; [assumption|]. split; [|reflexivity].
        split; [|assumption]. intros ->. simpl in Hn. lia.
Qed.

Lemma scan_exponent_shorter (r2 : string) :
  (String.length (snd (scan_exponent r2)) <= String.length r2)%nat.
Proof.
  destruct (scan_exponent_spec r2) as (ex & E & _).
  rewrite E at 2. rewrite length_app. lia.
Qed.

Lemma length_zero (s : string) : String.length s = 0%nat -> s = "".
Proof. destruct s; [reflexivity | discriminate]. Qed.

Lemma exponent_text_empty (e : Z) : exponent_text e "" -> e = 0.
Proof.
  intros [[_ ->] | (mark & sg & d & negative & E & Hm & _)]; [reflexivity|].
  destruct Hm as [-> | ->]; discriminate.
Qed.

(** Where the scanner reads no exponent, its exponent is zero. *)
Lemma scan_exponent_none (r2 : string) :
  String.length (snd (scan_exponent r2)) = String.length r2 ->
  fst (scan_exponent r2) = 0.
Proof.
  destruct (scan_exponent_spec r2) as (ex & E & Hex). intros Hlen.
  rewrite E in Hlen at 2. rewrite length_app in Hlen.
  assert (ex = "") as -> by (apply length_zero; lia).
  now apply exponent_text_empty.
Qed.

(** An exponent of the grammar that starts where the scanner stands is read,
    and at least as far; when no further, it is the one read. *)
Lemma scan_exponent_max (e : Z) (ex rest' c r2 : string) :
  exponent_text e ex -> all_digits c = true -> ex ++ rest' = c ++ r2 ->
  (String.length (snd (scan_exponent r2)) <= String.length rest')%nat
  /\ (String.length (snd (scan_exponent r2)) = String.length rest' ->
      c = "" /\ fst (scan_exponent r2) = e).
Proof.
  intros [[-> ->] | (mark & sg & d & negative & -> & Hm & Hsg & [Hne Hd] & ->)]
    Hc E.
  - simpl in E. subst rest'. rewrite length_app.
    pose proof (scan_exponent_shorter r2). split; [lia|]. intros Hlen.
    split; [apply length_zero; lia | apply scan_exponent_none; lia].
  - assert (exists m, mark = String m ""
                      /\ Ascii.eqb m "e" || Ascii.eqb m "E" = true)
      as (m & -> & Hmark)
      by (destruct Hm as [-> | ->]; eexists; split; reflexivity).
    destruct c as [|ch c].
    2: { simpl in E, Hc. injection E as <- _.
         apply andb_prop in Hc. destruct Hc as [Hc _].
         rewrite (not_digit_mark _ Hmark) in Hc. discriminate. }
    simpl in E. subst r2. cbn [append]. unfold scan_exponent. rewrite Hmark.
    destruct d as [|c0 d]; [congruence|].
    assert (is_digit c0 = true) as Hc0
      by (simpl in Hd; now apply andb_prop in Hd).
    rewrite app_assoc.
    rewrite (@scan_sign_text negative sg ((String c0 d) ++ rest') Hsg)
      by (apply (unsigned_digit _ _ Hc0)).
    destruct (scan_digits_max (String c0 d ++ rest') 0 0)
      as (dmax & r' & E & Hdmax & Hr' & ->).
    destruct (digits_prefix (String c0 d) Hd _ _ _ E Hdmax Hr')
      as (c' & -> & -> & _).
    replace (0 + Z.of_nat (String.length ((String c0 d) ++ c')) =? 0)
      with false by (symmetry; apply Z.eqb_neq; simpl String.length; lia).
    cbn [fst snd]. rewrite length_app. split; [lia|]. intros Hlen.
    split; [reflexivity|].
    assert (c' = "") as -> by (apply length_zero; lia).
    now rewrite app_nil_r.
Qed.

(** What the scanner reads as a fraction. *)
Lemma scan_fraction_spec (ip : string) (ni : Z) (r1 : string) :
  all_digits ip = true -> ni = Z.of_nat (String.length ip) ->
  forall m nf r2,
    scan_fraction (digits_value ip) ni r1 = (m, nf, r2) ->
    (m = digits_value ip /\ nf = 0 /\ r2 = r1)
    \/ exists fd,
         r1 = "." ++ fd ++ r2 /\ all_digits fd = true
         /\ m = digits_value (ip ++ fd) /\ nf = Z.of_nat (String.length fd)
         /\ (ip <> "" \/ fd <> "").
Proof.
  intros Hip -> m nf r2. unfold scan_fraction.
  destruct r1 as [|c r1]; [intros E; injection E as <- <- <-; now left|].
  destruct (Ascii.eqb c ".") eqn:Hdot;
    [|intros E; injection E as <- <- <-; now left].
  apply Ascii.eqb_eq in Hdot. subst c.
  destruct (scan_digits_max r1 (digits_value ip) 0)
    as (fd & r & -> & Hfd & Hr & ->).
  destruct ((Z.of_nat (String.length ip) =? 0)
            && (0 + Z.of_nat (String.length fd) =? 0)) eqn:Hz;
    intros E; injection E as <- <- <-; [now left|].
  right. exists fd. split; [reflexivity|]. split; [assumption|].
  split; [unfold digits_value; now rewrite digits_value_from_app|].
  split; [lia|].
  apply andb_false_iff in Hz. destruct Hz as [Hz | Hz]; apply Z.eqb_neq in Hz.
  - left. intros ->. simpl in Hz. lia.
  - right. intros ->. simpl in Hz. lia.
Qed.

Lemma scan_fraction_shorter (ip ni : Z) (r1 : string) :
  (String.length (snd (scan_fraction ip ni r1)) <= String.length r1)%nat.
Proof.
  unfold scan_fraction. destruct r1 as [|c r1]; [simpl; lia|].
  destruct (Ascii.eqb c "."); [|simpl; lia].
  destruct (scan_digits_max r1 ip 0) as (fd & r & -> & _ & _ & ->).
  destruct ((ni =? 0) && (0 + Z.of_nat (String.length fd) =? 0));
    cbn [snd]; [simpl; lia|].
  simpl. rewrite length_app. lia.
Qed.

(** Soundness: what the scanner reads is a decimal text, with its
    denotation. *)
Theorem scan_decimal_sound (t : string) (l : literal) (rest : string) :
  scan_decimal t = Some (l, rest) ->
  exists lit, t = lit ++ rest /\ decimal_literal lit l.
Proof.
  unfold scan_decimal.
  destruct (scan_sign_spec t) as (sg & Hsg & Et).
  destruct (scan_sign t) as [negative t1]. cbn [fst snd] in Hsg, Et.
  destruct (prefix "Infinity" t1) eqn:Hinf.
  - intros E. injection E as <- <-.
    apply prefix_starts_with in Hinf. destruct Hinf as [b ->].
    exists (sg ++ "Infinity"). split; [|now constructor].
    rewrite app_assoc, Et. do 2 apply f_equal.
    cbn [append String.length Nat.sub substring].
    now rewrite Nat.sub_0_r, substring_all.
  - destruct (scan_digits_max t1 0 0) as (ip & r1 & -> & Hip & Hr1 & ->).
    destruct (scan_fraction (digits_value_from 0 ip)
                (0 + Z.of_nat (String.length ip)) r1) as [[m nf] r2] eqn:Ef.
    destruct (@scan_fraction_spec ip (0 + Z.of_nat (String.length ip)) r1 Hip
                (Z.add_0_l _) _ _ _ Ef)
      as [(-> & -> & ->) | (fd & -> & Hfd & -> & -> & Hne)].
    + destruct (0 + Z.of_nat (String.length ip) =? 0) eqn:Hn;
        cbn [andb]; [discriminate|].
      destruct (scan_exponent_spec r1) as (ex & Er & Hex).
      destruct (scan_exponent r1) as [e rest0]. cbn [fst snd] in Er, Hex.
      intros E. injection E as <- <-. rewrite Z.sub_0_r.
      exists (sg ++ ip ++ ex). split.
      * rewrite Et, Er at 1. now rewrite !app_assoc.
      * constructor; try assumption. split; [|assumption].
        intros ->. simpl in Hn. discriminate.
    + replace ((0 + Z.of_nat (String.length ip) =? 0)
               && (Z.of_nat (String.length fd) =? 0)) with false.
      2: { symmetry. apply andb_false_iff.
           destruct Hne as [H | H]; [left | right]; apply Z.eqb_neq;
             intros E; apply H; destruct ip, fd; simpl in E;
             try reflexivity; lia. }
      destruct (scan_exponent_spec r2) as (ex & Er & Hex).
      destruct (scan_exponent r2) as [e rest0]. cbn [fst snd] in Er, Hex.
      intros E. injection E as <- <-.
      exists (sg ++ ip ++ "." ++ fd ++ ex). split.
      * rewrite Et, Er at 1. now rewrite !app_assoc.
      * now constructor.
Qed.

(** Where the scanner reads no fraction, the mantissa is the integer part. *)
Lemma scan_fraction_none (ip ni : Z) (r1 : string) :
  String.length (snd (scan_fraction ip ni r1)) = String.length r1 ->
  scan_fraction ip ni r1 = (ip, 0, r1).
Proof.
  unfold scan_fraction. destruct r1 as [|c r1]; [reflexivity|].
  destruct (Ascii.eqb c "."); [|reflexivity].
  destruct (scan_digits_max r1 ip 0) as (fd & r & -> & _ & _ & ->).
  destruct ((ni =? 0) && (0 + Z.of_nat (String.length fd) =? 0));
    [reflexivity|].
  cbn [snd]. simpl String.length. rewrite length_app. lia.
Qed.

(** Maximality: wherever a decimal text starts the string, the scanner reads
    one, and at least as far; when no further, it reads that text. *)
Theorem scan_decimal_max (lit' : string) (l' : literal) (rest' : string) :
  decimal_literal lit' l' ->
  exists l rest,
    scan_decimal (lit' ++ rest') = Some (l, rest)
    /\ (String.length rest <= String.length rest')%nat
    /\ (String.length rest = String.length rest' -> l = l').
Proof.
  intros [negative sg Hsg
         | negative sg ip ex e Hsg [Hne Hip] Hex
         | negative sg ip fd ex e Hsg Hip Hfd Hne Hex].
  - unfold scan_decimal. rewrite app_assoc.
    rewrite (@scan_sign_text negative sg ("Infinity" ++ rest') Hsg)
      by reflexivity.
    assert (prefix "Infinity" ("Infinity" ++ rest') = true) as Hp
      by (apply prefix_starts_with; now exists rest').
    rewrite Hp. eexists _, _. split; [reflexivity|].
    cbn [append String.length Nat.sub substring].
    rewrite Nat.sub_0_r, substring_all. split; [lia | reflexivity].
  - destruct ip as [|c ip]; [congruence|].
    assert (is_digit c = true) as Hc
      by (simpl in Hip; now apply andb_prop in Hip).
    unfold scan_decimal. rewrite !app_assoc.
    destruct (unsigned_digit c (ip ++ ex ++ rest') Hc) as [Hs Hi].
    change (String c ip ++ ex ++ rest') with (String c (ip ++ ex ++ rest')).
    rewrite (@scan_sign_text negative sg _ Hsg Hs), Hi.
    destruct (scan_digits_max (String c (ip ++ ex ++ rest')) 0 0)
      as (ipmax & r1 & E & Hmax & Hr1 & ->).
    destruct (digits_prefix (String c ip) Hip (ex ++ rest') _ _ E Hmax Hr1)
      as (c1 & -> & E1 & Hc1).
    replace (0 + Z.of_nat (String.length (String c ip ++ c1)) =? 0)
      with false by (symmetry; apply Z.eqb_neq; simpl String.length; lia).
    cbn [andb].
    pose proof (scan_fraction_shorter
                  (digits_value_from 0 (String c ip ++ c1))
                  (0 + Z.of_nat (String.length (String c ip ++ c1))) r1) as Hf.
    pose proof (@scan_fraction_none
                  (digits_value_from 0 (String c ip ++ c1))
                  (0 + Z.of_nat (String.length (String c ip ++ c1))) r1) as Hfn.
    destruct (scan_fraction (digits_value_from 0 (String c ip ++ c1))
                (0 + Z.of_nat (String.length (String c ip ++ c1))) r1)
      as [[m nf] r2] eqn:Ef.
    cbn [snd] in Hf, Hfn.
    pose proof (scan_exponent_shorter r2) as He.
    pose proof (scan_exponent_none r2) as Hen.
    pose proof (@scan_exponent_max e ex rest' c1) as Hmaxe.
    destruct (scan_exponent r2) as [e' rest0] eqn:Ee. cbn [fst snd] in He, Hen.
    eexists _, _. split; [reflexivity|].
    destruct Hex as [[-> ->] | Hex'].
    + simpl in E1. subst rest'. rewrite length_app. split; [lia|].
      intros Hlen.
      assert (c1 = "") as -> by (apply length_zero; lia).
      assert ((m, nf, r2)
              = (digits_value_from 0 (String c ip ++ ""),
                 0, r1)) as Efr by (apply Hfn; lia).
      injection Efr as -> -> ->.
      rewrite Hen by lia. now rewrite app_nil_r.
    + assert (c1 = "" /\ (m, nf, r2) = (digits_value (String c ip), 0, r1))
        as [-> Efr].
      { destruct Hex' as (mark & sg' & d & ng & -> & Hm & _).
        destruct c1 as [|ch c1].
        - split; [reflexivity|]. rewrite app_nil_r in Ef.
          simpl in E1. subst r1. unfold scan_fraction in Ef.
          destruct Hm as [-> | ->]; simpl in Ef; now rewrite <- Ef.
        - exfalso. simpl in Hc1. apply andb_prop in Hc1.
          destruct Hc1 as [Hch _].
          destruct Hm as [-> | ->]; simpl in E1; injection E1 as <- _;
            discriminate. }
      injection Efr as -> -> ->.
      specialize (Hmaxe r1 (or_intror Hex') Hc1 E1).
      rewrite Ee in Hmaxe. cbn [fst snd] in Hmaxe.
      destruct Hmaxe as [Hle Heq]. split; [exact Hle|].
      intros Hlen. destruct (Heq Hlen) as [_ ->]. now rewrite Z.sub_0_r.
  - unfold scan_decimal. rewrite !app_assoc.
    change ("." ++ fd ++ ex ++ rest') with (String "." (fd ++ ex ++ rest')).
    destruct (unsigned_fraction ip (fd ++ ex ++ rest') Hip) as [Hs Hi].
    rewrite (@scan_sign_text negative sg _ Hsg Hs), Hi.
    rewrite (@scan_digits_run ip (String "." (fd ++ ex ++ rest')) Hip
               eq_refl).
    unfold scan_fraction. cbn [Ascii.eqb Bool.eqb].
    destruct (scan_digits_max (fd ++ ex ++ rest') (digits_value_from 0 ip) 0)
      as (fdmax & r2 & E & Hmax & Hr2 & ->).
    destruct (digits_prefix fd Hfd (ex ++ rest') _ _ E Hmax Hr2)
      as (c2 & -> & E2 & Hc2).
    assert ((0 + Z.of_nat (String.length ip) =? 0)
            && (0 + Z.of_nat (String.length (fd ++ c2)) =? 0) = false) as Hz.
    { apply andb_false_iff.
      destruct Hne as [H | H]; [left | right]; apply Z.eqb_neq;
        intros E0; apply H; destruct ip, fd; simpl in E0;
        try reflexivity; lia. }
    rewrite Hz. cbn beta iota. rewrite Hz.
    pose proof (@scan_exponent_max e ex rest' c2 r2 Hex Hc2 E2) as Hmaxe.
    destruct (scan_exponent r2) as [e' rest0]. cbn [fst snd] in Hmaxe.
    destruct Hmaxe as [Hle Heq].
    eexists _, _. split; [reflexivity|]. split; [exact Hle|].
    intros Hlen. destruct (Heq Hlen) as [-> ->].
    rewrite app_nil_r, Z.add_0_l. unfold digits_value.
    now rewrite digits_value_from_app.
Qed.

Lemma trim_start_unique (ws t : string) :
  all_space ws = true -> starts_no_space t -> trim_start (ws ++ t) = t.
Proof.
  intros Hws Ht. induction ws as [|c ws IH]; simpl in *.
  - destruct t as [|c t]; [reflexivity|]. simpl in *. now rewrite Ht.
  - apply andb_prop in Hws. destruct Hws as [Hc Hws]. rewrite Hc. now apply IH.
Qed.

(** [parseFloat] gives the number of the longest decimal text that starts
    the string after its white space, and [NaN] when there is none. *)
Theorem parseFloat_leading_number (s : string) :
  leading_number s (parseFloat s).
Proof.
  destruct (trim_start_spec s) as (ws & Es & Hws & Ht).
  exists ws, (trim_start s). repeat split; try assumption.
  unfold parseFloat.
  destruct (scan_decimal (trim_start s)) as [[l rest]|] eqn:Hscan.
  - left. destruct (scan_decimal_sound _ Hscan) as (lit & Et & Hlit).
    exists lit, rest, l. repeat split; try assumption.
    intros lit' rest' l' Et' Hlit'.
    destruct (@scan_decimal_max lit' l' rest' Hlit')
      as (l0 & rest0 & E0 & Hlen & _).
    rewrite <- Et', Hscan in E0. injection E0 as <- <-.
    assert (String.length (lit ++ rest) = String.length (lit' ++ rest'))
      as Hl by congruence.
    rewrite !length_app in Hl. lia.
  - right. split; [|reflexivity].
    intros lit' rest' l' Et' Hlit'.
    destruct (@scan_decimal_max lit' l' rest' Hlit') as (l0 & rest0 & E0 & _).
    rewrite <- Et', Hscan in E0. discriminate.
Qed.

(** The wording determines the number: it is the one [parseFloat] gives. *)
Theorem leading_number_unique (s : string) (x : jsnum) :
  leading_number s x -> x = parseFloat s.
Proof.
  intros (ws & t & -> & Hws & Ht & H). unfold parseFloat.
  rewrite (trim_start_unique _ _ Hws Ht).
  destruct H as [(lit & rest & l & -> & Hlit & Hmax & ->) | [Hnone ->]].
  - destruct (@scan_decimal_max lit l rest Hlit)
      as (l0 & rest0 & E0 & Hlen & Hsame).
    rewrite E0.
    destruct (scan_decimal_sound _ E0) as (lit0 & Et0 & Hlit0).
    pose proof (Hmax _ _ _ Et0 Hlit0) as Hle.
    assert (String.length (lit ++ rest) = String.length (lit0 ++ rest0))
      as Hl by congruence.
    rewrite !length_app in Hl. rewrite Hsame by lia. reflexivity.
  - destruct (scan_decimal t) as [[l rest]|] eqn:Hscan; [|reflexivity].
    destruct (scan_decimal_sound _ Hscan) as (lit & Et & Hlit).
    exfalso. exact (Hnone _ _ _ Et Hlit).
Qed.

End LiteralFacts.

(* ================================================================= *)
(** ** Facts about the lodash functions *)

Module LodashFacts.

Import Num Js Lodash Spec NumFacts.

Lemma baseRange_fill_ints (n : nat) :
  forall a, 0 <= a -> a + Z.of_nat n <= 2 ^ 53 ->
  baseRange_fill n (of_int a) (of_int 1) = map of_int (zseq a n).
Proof.
  induction n as [|n IH]; intros a Ha Hn; [reflexivity|].
  cbn [baseRange_fill zseq map]. f_equal.
  rewrite add_int by lia. apply IH; lia.
Qed.

(** [_.range(a, b + 1)] on integers: [a, a+1, ..., b]. *)
Theorem range_ints (a b : Z) :
  0 <= a <= b -> b + 1 <= 2 ^ 53 -> b - a + 1 <= 2 ^ 32 - 1 ->
  range (of_int a) (of_int (b + 1))
  = Ok (map of_int (zseq a (Z.to_nat (b - a + 1)))).
Proof.
  intros Hab Hb Hlen. unfold range.
  change (toFinite (of_int a)) with (of_int a).
  change (toFinite (of_int (b + 1))) with (of_int (b + 1)).
  rewrite ltb_int. replace (a <? b + 1) with true by (symmetry; apply Z.ltb_lt; lia).
  unfold baseRange. rewrite truthy_one.
  rewrite sub_int by lia. rewrite div_int_one by lia.
  rewrite ceil_int by lia. rewrite max_int_zero by lia.
  replace (b + 1 - a) with (b - a + 1) by ring.
  rewrite array_length_int by lia.
  rewrite baseRange_fill_ints by lia. reflexivity.
Qed.

Lemma zseq_length (n : nat) : forall a, List.length (zseq a n) = n.
Proof. induction n; intros a; simpl; auto. Qed.

Lemma zseq_In (n : nat) :
  forall a x, In x (zseq a n) <-> a <= x < a + Z.of_nat n.
Proof.
  induction n as [|n IH]; intros a x; simpl zseq.
  - simpl. lia.
  - simpl In. rewrite IH. lia.
Qed.

Lemma zseq_sorted (n : nat) :
  forall a, StronglySorted Z.lt (zseq a n).
Proof.
  induction n as [|n IH]; intros a; simpl; constructor; [apply IH|].
  apply Forall_forall. intros x Hx. apply zseq_In in Hx. lia.
Qed.

(** *** sortBy *)

Lemma trichotomy (x y : jsnum) :
  ordered x -> ordered y ->
  ltb x y = true \/ strict_eqb x y = true \/ ltb y x = true.
Proof.
  unfold ordered.
  destruct x, y; cbn [is_nan ltb strict_eqb units]; intros Hx Hy;
    try discriminate; auto;
    rewrite ?Z.ltb_lt, ?Z.eqb_eq; lia.
Qed.

Lemma compare_le (x y : jsnum) :
  ordered x -> ordered y -> compareAscending x y <= 0 -> le x y.
Proof.
  intros Hx Hy. unfold compareAscending, le, gtb.
  destruct (strict_eqb x y) eqn:E; [auto|].
  rewrite Hx, Hy, !orb_false_r.
  destruct (ltb y x) eqn:G; [lia|].
  destruct (trichotomy Hx Hy) as [L | [L | L]]; [auto | congruence | congruence].
Qed.

Lemma compare_gt (x y : jsnum) :
  ordered x -> ordered y -> ~ compareAscending x y <= 0 -> le y x.
Proof.
  intros Hx Hy. unfold compareAscending, le, gtb.
  destruct (strict_eqb x y) eqn:E; [lia|].
  rewrite Hx, Hy, !orb_false_r.
  destruct (ltb y x) eqn:G; [auto|].
  destruct (ltb x y); lia.
Qed.

Lemma insert_sorted_perm (x : jsnum) (l : list jsnum) :
  Permutation (x :: l) (insert_sorted x l).
Proof.
  induction l as [|y l IH]; simpl; [reflexivity|].
  destruct (compareAscending x y <=? 0); [reflexivity|].
  rewrite perm_swap. now constructor.
Qed.

(** Sorting keeps every element, duplicates included. *)
Theorem sortBy_perm (l : list jsnum) : Permutation l (sortBy l).
Proof.
  induction l as [|x l IH]; simpl; [constructor|].
  rewrite <- insert_sorted_perm. now constructor.
Qed.

Lemma insert_sorted_hd (x y : jsnum) (l : list jsnum) :
  le y x -> HdRel le y l -> HdRel le y (insert_sorted x l).
Proof.
  intros Hyx H. destruct l as [|z l]; simpl; [now constructor|].
  destruct (compareAscending x z <=? 0); constructor; auto.
  now inversion H.
Qed.

Lemma insert_sorted_sorted (x : jsnum) (l : list jsnum) :
  ordered x -> Forall ordered l -> Sorted le l -> Sorted le (insert_sorted x l).
Proof.
  intros Hx Hl Hs. induction l as [|y l IH]; simpl.
  - repeat constructor.
  - inversion Hl; subst. inversion Hs; subst.
    destruct (compareAscending x y <=? 0) eqn:E.
    + apply Z.leb_le in E. constructor; [assumption|].
      constructor. now apply compare_le.
    + apply Z.leb_gt in E. constructor; [now apply IH|].
      apply insert_sorted_hd; [|assumption]. apply compare_gt; auto. lia.
Qed.

Lemma sortBy_ordered (l : list jsnum) :
  Forall ordered l -> Forall ordered (sortBy l).
Proof.
  intros H. apply Forall_forall. intros x Hx.
  rewrite Forall_forall in H. apply H.
  eapply Permutation_in; [symmetry; apply sortBy_perm | exact Hx].
Qed.

(** On numbers without [NaN] the result is in ascending order. *)
Theorem sortBy_sorted (l : list jsnum) :
  Forall ordered l -> Sorted le (sortBy l).
Proof.
  induction 1 as [|x l Hx Hl IH]; simpl; [constructor|].
  apply insert_sorted_sorted; auto. now apply sortBy_ordered.
Qed.

Lemma of_units_ordered (sgn : bool) (a : Z) : ordered (of_units sgn a).
Proof.
  unfold ordered, of_units.
  destruct (max_units <? a), (a =? 0), sgn; reflexivity.
Qed.

Lemma of_decimal_ordered (sgn : bool) (m e : Z) : ordered (of_decimal sgn m e).
Proof.
  unfold of_decimal, round_ratio. destruct (0 <=? e); apply of_units_ordered.
Qed.

End LodashFacts.

(* ================================================================= *)
(** ** Facts about the zoom grammar and [parseZoomRange] *)

Module ZoomFacts.

Import Num Js Str Regex Spec StrFacts RegexFacts NumFacts ParseFacts LodashFacts
  CliParser.

Lemma lang_comma_digits (s : string) :
  lang (Seq (Chr ",") (Plus Digit)) s <-> exists d, digits d /\ s = "," ++ d.
Proof.
  rewrite lang_seq_inv. split.
  - intros (a & b & -> & Ha & Hb). apply lang_chr in Ha. subst a.
    apply lang_plus_digit in Hb. eauto.
  - intros (d & Hd & ->). exists ",", d. split; [reflexivity|].
    split; [now apply lang_chr | now apply lang_plus_digit].
Qed.

Lemma lang_comma_tail (t : string) :
  lang (Star (Seq (Chr ",") (Plus Digit))) t ->
  forall d, exists ps, Forall digits ps /\ d ++ t = String.concat "," (d :: ps).
Proof.
  intros H. remember (Star (Seq (Chr ",") (Plus Digit))) as r eqn:E.
  induction H; try discriminate; intros d.
  - exists []. split; [constructor | apply app_nil_r].
  - injection E as ->. apply lang_comma_digits in H.
    destruct H as (d1 & Hd1 & ->).
    destruct (IHlang2 eq_refl d1) as (ps & Hps & Eq).
    exists (d1 :: ps). split; [now constructor|].
    change (String.concat "," (d :: d1 :: ps))
      with (d ++ "," ++ String.concat "," (d1 :: ps)).
    rewrite <- Eq, !app_assoc. reflexivity.
Qed.

(** What the zoom grammar accepts: a range or a comma-separated list. *)
Theorem zoom_re_shape (zoom : string) :
  test zoom_re zoom = true ->
  (exists d1 d2, digits d1 /\ digits d2 /\ zoom = d1 ++ "-" ++ d2)
  \/ (exists parts, parts <> [] /\ Forall digits parts
                    /\ zoom = join_commas parts).
Proof.
  unfold zoom_re. rewrite test_anchored. intros H.
  inversion H; subst.
  - left. match goal with X : lang (Seq _ _) _ |- _ =>
      apply lang_seq_inv in X; destruct X as (d1 & t & -> & H1 & Ht) end.
    apply lang_plus_digit in H1.
    apply lang_seq_inv in Ht. destruct Ht as (m & d2 & -> & Hm & H2).
    apply lang_chr in Hm. subst m. apply lang_plus_digit in H2.
    exists d1, d2. auto.
  - right. match goal with X : lang (Seq _ _) _ |- _ =>
      apply lang_seq_inv in X; destruct X as (d1 & t & -> & H1 & Ht) end.
    apply lang_plus_digit in H1.
    destruct (lang_comma_tail Ht d1) as (ps & Hps & Eq).
    exists (d1 :: ps). split; [discriminate|]. split; [now constructor | exact Eq].
Qed.

Lemma indexOf_unit (c : ascii) (s : string) :
  has_unit c s = false -> indexOf s (String c "") = -1.
Proof.
  unfold indexOf. generalize 0. induction s as [|d s IH]; intros i H.
  - reflexivity.
  - simpl in H. apply orb_false_elim in H. destruct H as [Hd Hs].
    rewrite indexOf_from_eq. cbn [prefix].
    destruct (ascii_dec c d) as [->|Hne];
      [rewrite Ascii.eqb_refl in Hd; discriminate|].
    now apply IH.
Qed.

Lemma has_unit_app (c : ascii) (s1 s2 : string) :
  has_unit c (s1 ++ s2) = has_unit c s1 || has_unit c s2.
Proof.
  induction s1 as [|d s1 IH]; simpl; [reflexivity|].
  now rewrite IH, orb_assoc.
Qed.

Lemma has_unit_digits (c : ascii) (d : string) :
  is_digit c = false -> all_digits d = true -> has_unit c d = false.
Proof.
  intros Hc. induction d as [|e d IH]; simpl; [reflexivity|]. intros H.
  apply andb_prop in H. destruct H as [He Hd]. rewrite (IH Hd), orb_false_r.
  rewrite Ascii.eqb_sym. now apply is_digit_not.
Qed.

Lemma join_commas_no_dash (parts : List.list string) :
  Forall digits parts -> has_unit "-" (join_commas parts) = false.
Proof.
  unfold join_commas. induction 1 as [|d ps [_ Hd] Hps IH]; [reflexivity|].
  destruct ps as [|d' ps].
  - simpl. now apply has_unit_digits.
  - change (String.concat "," (d :: d' :: ps))
      with (d ++ "," ++ String.concat "," (d' :: ps)).
    rewrite !has_unit_app, IH.
    rewrite has_unit_digits by auto. reflexivity.
Qed.

Lemma split_join_commas (parts : List.list string) :
  parts <> [] -> Forall digits parts ->
  split "," (join_commas parts) = parts.
Proof.
  unfold join_commas. intros Hne H. induction H as [|d ps [_ Hd] Hps IH];
    [congruence|].
  destruct ps as [|d' ps].
  - simpl. now apply split_digits.
  - change (String.concat "," (d :: d' :: ps))
      with (d ++ String "," (String.concat "," (d' :: ps))).
    rewrite split_digits_sep by auto. f_equal. apply IH. discriminate.
Qed.

(** A comma-separated list is sorted, whatever its numbers. *)
Theorem parseZoomRange_list (parts : List.list string) :
  parts <> [] -> Forall digits parts ->
  parseZoomRange (join_commas parts) = Ok (Lodash.sortBy (map Number parts)).
Proof.
  intros Hne H. unfold parseZoomRange.
  rewrite (indexOf_unit _ _ (join_commas_no_dash H)).
  simpl (-1 >? -1). cbv iota. now rewrite split_join_commas.
Qed.

Lemma Number_digits_ordered (parts : List.list string) :
  Forall digits parts -> Forall ordered (map Number parts).
Proof.
  induction 1 as [|d ps Hd Hps IH]; simpl; constructor; [|assumption].
  rewrite (Number_digits Hd). apply of_decimal_ordered.
Qed.

(** On a range [parseZoomRange] takes the first branch: the two bounds go
    to [_.range], the upper one plus one. *)
Lemma parseZoomRange_range_call (d1 d2 : string) :
  digits d1 -> digits d2 ->
  parseZoomRange (d1 ++ "-" ++ d2)
  = Lodash.range (Number d1) (add (Number d2) (of_int 1)).
Proof.
  intros H1 H2. unfold parseZoomRange.
  assert ((indexOf (d1 ++ "-" ++ d2) "-" >? -1) = true) as Hidx.
  { apply Z.gtb_lt.
    assert (indexOf (d1 ++ "-" ++ d2) "-" <> -1) as Hne
      by (apply indexOf_contains; exists d1, d2; reflexivity).
    destruct (indexOf_nonneg (d1 ++ "-" ++ d2) "-"); [congruence | lia]. }
  rewrite Hidx.
  change ("-" ++ d2) with (String "-" d2).
  rewrite split_digits_sep by (reflexivity || apply H1).
  rewrite split_digits by (reflexivity || apply H2).
  reflexivity.
Qed.

End ZoomFacts.

(* ================================================================= *)
(** ** The zoom parser (lines 183-193) *)

Module ZoomParser.

Import Num Js Str Regex Spec StrFacts RegexFacts NumFacts ParseFacts LodashFacts
  ZoomFacts CliParser.

Lemma split_no_sep (sep : ascii) (s : string) :
  has_unit sep s = false -> split sep s = [s].
Proof.
  induction s as [|c s IH]; simpl; [reflexivity|]. intros H.
  apply orb_false_elim in H. destruct H as [Hc Hs].
  rewrite Ascii.eqb_sym, Hc, (IH Hs). reflexivity.
Qed.

Lemma is_range_range (d1 d2 : string) : is_range (d1 ++ "-" ++ d2) = true.
Proof.
  unfold is_range. rewrite has_unit_app. simpl. apply orb_true_r.
Qed.

Lemma zoom_numbers_range (d1 d2 : string) :
  digits d1 -> digits d2 ->
  zoom_numbers (d1 ++ "-" ++ d2) = [digits_value d1; digits_value d2].
Proof.
  intros [_ H1] [_ H2]. unfold zoom_numbers.
  change ("-" ++ d2) with (String "-" d2).
  rewrite split_digits_sep by (reflexivity || assumption).
  rewrite split_digits by (reflexivity || assumption).
  cbn [flat_map]. rewrite !split_digits by (reflexivity || assumption).
  reflexivity.
Qed.

Lemma zoom_numbers_list (parts : List.list string) :
  parts <> [] -> Forall digits parts ->
  zoom_numbers (join_commas parts) = map digits_value parts.
Proof.
  intros Hne H. unfold zoom_numbers.
  rewrite (split_no_sep _ _ (join_commas_no_dash H)).
  cbn [flat_map]. rewrite List.app_nil_r. now rewrite split_join_commas.
Qed.

Lemma of_int_lt_sorted (l : List.list Z) :
  StronglySorted Z.lt l -> StronglySorted lt (map of_int l).
Proof.
  induction 1 as [|x l Hs IH Hx]; simpl; constructor; [assumption|].
  apply Forall_forall. intros y Hy. apply in_map_iff in Hy.
  destruct Hy as (n & <- & Hn). rewrite Forall_forall in Hx.
  unfold lt. rewrite ltb_int. apply Z.ltb_lt. now apply Hx.
Qed.

Lemma lt_sorted_le (l : List.list jsnum) :
  StronglySorted lt l -> Sorted le l.
Proof.
  intros H. apply StronglySorted_Sorted.
  induction H as [|x l Hs IH Hx]; constructor; [assumption|].
  eapply Forall_impl; [|exact Hx]. intros y Hy. now left.
Qed.

Lemma lt_irrefl (x : jsnum) : ~ lt x x.
Proof.
  unfold lt. destruct x; cbn [ltb units]; try discriminate;
    rewrite Z.ltb_irrefl; discriminate.
Qed.

Lemma lt_sorted_NoDup (l : List.list jsnum) : StronglySorted lt l -> NoDup l.
Proof.
  induction 1 as [|x l Hs IH Hx]; constructor; [|assumption].
  intros Hin. rewrite Forall_forall in Hx. exact (lt_irrefl (Hx _ Hin)).
Qed.

(** Rounding a whole multiple of a power of two gives a whole multiple of
    it. *)
Lemma round_mag_multiple (smin v j : Z) :
  0 <= v -> 0 <= j -> smin <= j ->
  exists m, 0 <= m /\ round_mag smin (v * 2 ^ j) = m * 2 ^ j.
Proof.
  intros Hv Hj Hs. unfold round_mag.
  set (a := v * 2 ^ j). set (s := Z.max (Z.log2 a + 1 - 53) smin).
  destruct (s <=? 0) eqn:E; [exists v; now split|].
  apply Z.leb_gt in E.
  assert (0 < 2 ^ s) as Hp by (apply Z.pow_pos_nonneg; lia).
  destruct (Z.le_gt_cases s j) as [Hsj | Hsj].
  - exists v. split; [assumption|].
    assert (a = (v * 2 ^ (j - s)) * 2 ^ s) as Hsplit.
    { unfold a. rewrite <- Z.mul_assoc, <- Z.pow_add_r by lia.
      do 2 f_equal. lia. }
    assert (Z.shiftr a s = v * 2 ^ (j - s)) as Hq.
    { rewrite Z.shiftr_div_pow2 by lia. rewrite Hsplit at 1.
      apply Z.div_mul. lia. }
    rewrite Hq.
    assert (Z.shiftl (v * 2 ^ (j - s)) s = a) as Hback.
    { rewrite Z.shiftl_mul_pow2 by lia. now rewrite <- Hsplit. }
    rewrite Hback, Z.sub_diag.
    assert (0 < Z.shiftl 1 (s - 1)) as Hh.
    { rewrite Z.shiftl_mul_pow2 by lia.
      pose proof (Z.pow_pos_nonneg 2 (s - 1)). lia. }
    replace (Z.shiftl 1 (s - 1) <? 0) with false
      by (symmetry; apply Z.ltb_ge; lia).
    replace (0 =? Z.shiftl 1 (s - 1)) with false
      by (symmetry; apply Z.eqb_neq; lia).
    simpl. exact Hback.
  - assert (0 <= Z.shiftr a s) as Hq
      by (apply Z.shiftr_nonneg; unfold a; apply Z.mul_nonneg_nonneg;
          [assumption | apply Z.pow_nonneg; lia]).
    match goal with |- context [if ?b then _ else _] => set (up := b) end.
    exists ((if up then Z.shiftr a s + 1 else Z.shiftr a s) * 2 ^ (s - j)).
    split.
    + apply Z.mul_nonneg_nonneg; [destruct up; lia | apply Z.pow_nonneg; lia].
    + rewrite Z.shiftl_mul_pow2 by lia.
      rewrite <- Z.mul_assoc, <- Z.pow_add_r by lia. do 2 f_equal. lia.
Qed.

(** A run of digits denotes a whole number, unless it is beyond the
    doubles. *)
Lemma Number_digits_whole (d : string) :
  digits d -> isFinite (Number d) = true -> whole_number (Number d).
Proof.
  intros Hd. rewrite (Number_digits Hd).
  pose proof (digits_value_nonneg _ (proj2 Hd)) as Hv.
  unfold of_decimal, round_ratio. simpl (0 <=? 0).
  rewrite Z.pow_0_r, Z.mul_1_r, Z.div_1_r, Z.mod_1_r. simpl (0 =? 0).
  destruct (@round_mag_multiple 2 (digits_value d) 1076 Hv) as (m & Hm & ->);
    [lia | lia|].
  rewrite Z.shiftr_div_pow2, quarter_units, Z.div_mul by lia.
  unfold of_units.
  destruct (max_units <? m * unit_scale); [discriminate|]. intros _.
  destruct (m * unit_scale =? 0).
  - exists 0. split; [lia | reflexivity].
  - exists m. now split.
Qed.

Lemma of_int_whole (n : Z) : 0 <= n -> whole_number (of_int n).
Proof. intros Hn. exists n. now split. Qed.




(** A number of 400 digits is beyond the doubles: the level is [Infinity]. *)
Lemma zoom_level_infinite :
  test zoom_re (nines 400) = true /\ parseZoomRange (nines 400) = Ok [PInf].
Proof. split; vm_compute; reflexivity. Qed.

(** From 2^53 on adding one changes nothing: the range from 2^53 to 2^53 is
    empty, and a range that crosses 2^53 repeats a level. *)
Lemma zoom_range_across_exact_integers :
  digits_value "9007199254740992" = 2 ^ 53
  /\ parseZoomRange "9007199254740992-9007199254740992" = Ok []
  /\ parseZoomRange "9007199254740990-9007199254740994"
     = Ok (map of_int [2 ^ 53 - 2; 2 ^ 53 - 1; 2 ^ 53; 2 ^ 53; 2 ^ 53; 2 ^ 53]).
Proof. repeat split; vm_compute; reflexivity. Qed.

(** A range of 2^32 levels is more than an array holds. *)
Lemma zoom_range_too_long :
  test zoom_re "0-4294967295" = true
  /\ parseZoomRange "0-4294967295" = Throw Lodash.RangeError.
Proof. split; vm_compute; reflexivity. Qed.

(** C4, as amended.  For non-negative integers [a <= b < 2^53] that span at
    most 2^32 - 1 levels, written in decimal, the range [a-b] is parsed into
    [a, a+1, ..., b]. *)
Theorem zoom_range_expansion (d1 d2 : string) :
  digits d1 -> digits d2 ->
  digits_value d1 <= digits_value d2 ->
  digits_value d2 < 2 ^ 53 ->
  digits_value d2 - digits_value d1 + 1 <= 2 ^ 32 - 1 ->
  parseZoomRange (d1 ++ "-" ++ d2)
  = Ok (map of_int
          (zseq (digits_value d1)
             (Z.to_nat (digits_value d2 - digits_value d1 + 1)))).
Proof.
  intros H1 H2 Hle Hb Hlen.
  pose proof (digits_value_nonneg _ (proj2 H1)) as Ha.
  rewrite (parseZoomRange_range_call H1 H2).
  (* both bounds are exact, and so is the upper bound plus one *)
  rewrite (Number_digits_exact H1), (Number_digits_exact H2) by lia.
  rewrite add_int by lia.
  (* the loop of [baseRange] then counts from [a] to [b] *)
  apply range_ints; lia.
Qed.

Lemma zoom_range_expansion_witness :
  parseZoomRange "3-9" = Ok (map of_int [3; 4; 5; 6; 7; 8; 9]).
Proof.
  apply (@zoom_range_expansion "3" "9").
  - split; [discriminate | reflexivity].
  - split; [discriminate | reflexivity].
  - vm_compute. discriminate.
  - reflexivity.
  - vm_compute. discriminate.
Defined.

(** C4, as stated, fails: 9007199254740993 = 2^53 + 1 is not a double.
    [Number] gives 2^53, adding one gives 2^53 again, and the range from 2^53
    to 2^53 is empty. *)
Lemma zoom_range_beyond_exact_integers :
  digits_value "9007199254740993" = 2 ^ 53 + 1
  /\ Number "9007199254740993" = of_int (2 ^ 53)
  /\ add (of_int (2 ^ 53)) (of_int 1) = of_int (2 ^ 53)
  /\ parseZoomRange "9007199254740993-9007199254740993" = Ok []
  /\ parseZoomRange "9007199254740993-9007199254740993"
     <> Ok (map of_int (zseq (digits_value "9007199254740993") 1)).
Proof.
  split; [reflexivity|]. split; [vm_compute; reflexivity|].
  split; [vm_compute; reflexivity|].
  assert (parseZoomRange "9007199254740993-9007199254740993" = Ok []) as E
    by (vm_compute; reflexivity).
  split; [exact E|]. rewrite E. discriminate.
Qed.

(** C5.  A comma-separated list of numbers is parsed into the same numbers in
    ascending order, every duplicate kept: [9,3,5] gives [3,5,9] and [3,3,5]
    gives [3,3,5]. *)
Theorem zoom_list_sorted (parts : List.list string) :
  parts <> [] -> Forall digits parts ->
  (exists l,
     parseZoomRange (join_commas parts) = Ok l
     /\ Sorted le l
     /\ Permutation (map Number parts) l
     /\ List.length l = List.length parts
     /\ (Forall (fun d => digits_value d <= 2 ^ 53) parts ->
         Permutation (map of_int (map digits_value parts)) l))
  /\ parseZoomRange "9,3,5" = Ok [of_int 3; of_int 5; of_int 9]
  /\ parseZoomRange "3,3,5" = Ok [of_int 3; of_int 3; of_int 5].
Proof.
  intros Hne Hp. split; [|split; vm_compute; reflexivity].
  pose proof (sortBy_perm (map Number parts)) as Hperm.
  exists (Lodash.sortBy (map Number parts)).
  split; [now apply parseZoomRange_list|].
  split; [apply sortBy_sorted; now apply Number_digits_ordered|].
  split; [exact Hperm|].
  split; [rewrite <- (Permutation_length Hperm); apply length_map|].
  intros Hv. rewrite map_map.
  replace (map (fun d => of_int (digits_value d)) parts) with (map Number parts);
    [exact Hperm|].
  apply map_ext_in. intros d Hd.
  rewrite Forall_forall in Hp, Hv. apply Number_digits_exact; auto.
Qed.

Lemma zoom_list_sorted_witness :
  exists l,
    parseZoomRange "9,3,5" = Ok l /\ Sorted le l
    /\ Permutation (map Number ["9"; "3"; "5"]) l.
Proof.
  destruct (@zoom_list_sorted ["9"; "3"; "5"]) as [(l & H1 & H2 & H3 & _) _].
  - discriminate.
  - repeat constructor; discriminate.
  - exists l. auto.
Defined.

End ZoomParser.

(* ================================================================= *)
(** ** The validators, the primitive parsers and the entry point *)

Module Validation.

Import Num Js Str Regex Spec StrFacts RegexFacts NumFacts ParseFacts
  LiteralFacts CliParser.

Lemma first_missing_some (t p : string) (ps : List.list string) :
  first_missing t ps = Some p -> In p ps /\ ~ contains p t.
Proof.
  induction ps as [|q ps IH]; simpl; [discriminate|].
  destruct (indexOf t q =? -1) eqn:E.
  - intros H. injection H as <-. split; [now left|].
    apply Z.eqb_eq in E. intros C. apply indexOf_contains in C. congruence.
  - intros H. destruct (IH H). split; [now right | assumption].
Qed.

Lemma first_missing_none (t : string) (ps : List.list string) :
  first_missing t ps = None <-> Forall (fun p => contains p t) ps.
Proof.
  induction ps as [|q ps IH]; simpl; [split; [constructor | reflexivity]|].
  destruct (indexOf t q =? -1) eqn:E.
  - split; [discriminate|]. intros H. inversion H; subst.
    apply Z.eqb_eq in E.
    match goal with C : contains q t |- _ => apply indexOf_contains in C end.
    congruence.
  - rewrite IH. apply Z.eqb_neq in E. apply indexOf_contains in E.
    split; [now constructor | intros H; now inversion H].
Qed.

Lemma scheme_needs_string (template : opt string) :
  test url_re (ToString template) = true ->
  exists t, template = Val t.
Proof.
  destruct template; simpl; intros H;
    [discriminate H | discriminate H | eauto].
Qed.

(** C7, as amended.  A template passes exactly when it starts with [http:] or
    [https:] and contains [{x}], [{y}] and [{z}]; every other template,
    an absent one included, fails with an argument error.  When the scheme
    is wrong the message is [Invalid url], whatever placeholders are there;
    when the scheme is right the message names the first placeholder, in the
    order [{x}], [{y}], [{z}], that the template does not contain. *)
Theorem template_url_validation (template : opt string) :
  let t := ToString template in
  let scheme_ok := starts_with "http:" t \/ starts_with "https:" t in
  (assertTemplateUrl template = Ok tt <->
   scheme_ok /\ Forall (fun p => contains p t) placeholders)
  /\ (~ scheme_ok ->
      assertTemplateUrl template = Throw (JsError "Error" "Invalid url" true))
  /\ (scheme_ok -> forall p,
      first_missing t placeholders = Some p ->
      assertTemplateUrl template
      = Throw (JsError "Error" ("Template url is missing parameter: " ++ p) true)
      /\ In p placeholders /\ ~ contains p t)
  /\ (assertTemplateUrl template = Ok tt
      \/ exists e, assertTemplateUrl template = Throw e
                   /\ argumentError e = true).
Proof.
  intros t scheme_ok.
  assert (test url_re t = true <-> scheme_ok) as Hscheme
    by apply test_url_re.
  assert (~ scheme_ok ->
          assertTemplateUrl template
          = Throw (JsError "Error" "Invalid url" true)) as HB.
  { intros Hn. unfold assertTemplateUrl. fold t.
    destruct (test url_re t) eqn:E; [exfalso; apply Hn, Hscheme; reflexivity|].
    reflexivity. }
  assert (scheme_ok ->
          assertTemplateUrl template
          = match first_missing t placeholders with
            | Some p =>
                Throw (JsError "Error"
                         ("Template url is missing parameter: " ++ p) true)
            | None => Ok tt
            end) as HC.
  { intros Hs. apply Hscheme in Hs.
    destruct (scheme_needs_string template Hs) as [u ->].
    unfold assertTemplateUrl, assertTemplateUrlParameter, placeholders.
    cbn [ToString first_missing] in *. subst t. rewrite Hs. cbn [negb bindO].
    destruct (indexOf u "{x}" =? -1); [reflexivity|]. cbn [bindO].
    destruct (indexOf u "{y}" =? -1); [reflexivity|]. cbn [bindO].
    destruct (indexOf u "{z}" =? -1); reflexivity. }
  split; [|split; [exact HB | split]].
  - split.
    + intros Hok.
      assert (scheme_ok) as Hs.
      { destruct (test url_re t) eqn:E; [now apply Hscheme|].
        exfalso. rewrite HB in Hok; [discriminate|].
        intros Hs. apply Hscheme in Hs. congruence. }
      split; [exact Hs|]. rewrite (HC Hs) in Hok.
      destruct (first_missing t placeholders) eqn:F; [discriminate|].
      now apply first_missing_none.
    + intros [Hs Hall]. rewrite (HC Hs).
      apply first_missing_none in Hall. now rewrite Hall.
  - intros Hs p F. rewrite (HC Hs), F.
    split; [reflexivity | now apply first_missing_some].
  - destruct (test url_re t) eqn:E.
    + assert (scheme_ok) as Hs by now apply Hscheme.
      rewrite (HC Hs). destruct (first_missing t placeholders); eauto.
    + right. rewrite HB; [eauto|]. intros Hs. apply Hscheme in Hs. congruence.
Qed.

Lemma template_url_validation_witness :
  assertTemplateUrl (Val "https://tiles.example/{x}/{y}.png")
  = Throw (JsError "Error" "Template url is missing parameter: {z}" true)
  /\ assertTemplateUrl (Val "tiles.example/{z}/{x}/{y}.png")
     = Throw (JsError "Error" "Invalid url" true).
Proof.
  pose proof (template_url_validation (Val "https://tiles.example/{x}/{y}.png"))
    as (_ & _ & H & _).
  pose proof (template_url_validation (Val "tiles.example/{z}/{x}/{y}.png"))
    as (_ & H' & _).
  split.
  - apply H; [right; exists "//tiles.example/{x}/{y}.png"; reflexivity|].
    reflexivity.
  - apply H'. intros [[b Hb] | [b Hb]]; discriminate.
Defined.

(** C7, as stated, fails: for a template with a wrong scheme that also lacks
    [{z}] the error is [Invalid url] and names no placeholder. *)
Lemma missing_placeholder_not_named :
  assertTemplateUrl (Val "ftp://tiles.example/{x}/{y}.png")
  = Throw (JsError "Error" "Invalid url" true)
  /\ indexOf "ftp://tiles.example/{x}/{y}.png" "{z}" = -1
  /\ indexOf "Invalid url" "{z}" = -1.
Proof. repeat split; reflexivity. Qed.



Section AnyHost.

Context {host : Host}.

(** C6.  For a string of digits whose number is finite,
    [parseNumberOrZoomFunction] returns the function that answers that
    number at every zoom; the number is the integer written, when that is at
    most 2^53.  When the number is not finite it throws an argument error.
    For [5] the function answers 5. *)
Theorem number_directive_is_constant (s : string) (message : opt string) :
  test number_re s = true ->
  (isFinite (Number s) = true ->
   parseNumberOrZoomFunction (Val s) message = Ok (ConstFn (Number s))
   /\ forall z, call (ConstFn (Number s)) z = Ok (VNum (Number s)))
  /\ (isFinite (Number s) = false ->
      exists e, parseNumberOrZoomFunction (Val s) message = Throw e
                /\ argumentError e = true)
  /\ (digits_value s <= 2 ^ 53 -> Number s = of_int (digits_value s))
  /\ (parseNumberOrZoomFunction (Val "5") message = Ok (ConstFn (of_int 5))
      /\ forall z, call (ConstFn (of_int 5)) z = Ok (VNum (of_int 5))).
Proof.
  intros Hre.
  assert (forall v, test number_re v = true ->
            parseNumberOrZoomFunction (Val v) message
            = if isFinite (Number v) then Ok (ConstFn (Number v))
              else throwArgumentError message) as Hrun.
  { intros v Hv. unfold parseNumberOrZoomFunction, assertNumber.
    cbn [ToString]. rewrite Hv. unfold Lodash.isFinite.
    destruct (isFinite (Number v)); reflexivity. }
  split; [|split; [|split; [|split]]].
  - intros Hfin. rewrite (Hrun _ Hre), Hfin. split; reflexivity.
  - intros Hinf. rewrite (Hrun _ Hre), Hinf.
    eexists. split; reflexivity.
  - intros Hv. apply Number_digits_exact; [now apply test_number_re | exact Hv].
  - rewrite Hrun by reflexivity. vm_compute. reflexivity.
  - reflexivity.
Qed.

(** C2: the expression path.  When the string is not a run of digits and
    the engine rejects the body [return <string>], the error that
    [parseNumberOrZoomFunction] throws is the engine's SyntaxError, which
    does not carry [argumentError: true]. *)
Theorem syntax_error_is_not_argument_error (val message : opt string)
  (msg : string) :
  test number_re (ToString val) = false ->
  Function_ctor "z" ("return " ++ ToString val) = Rejected msg ->
  parseNumberOrZoomFunction val message
  = Throw (JsError "SyntaxError" msg false).
Proof.
  intros Hre Hrej. unfold parseNumberOrZoomFunction. now rewrite Hre, Hrej.
Qed.

(** C8.  When [point] is set and [buffer] is not, validation throws an
    argument error at once: nothing is returned, no file is read and the
    state is left as it was. *)
Theorem point_without_buffer_fails (opts : Options) (w : world) :
  truthy (point opts) = true -> truthy (buffer opts) = false ->
  validateAndTransformOpts opts w
  = (Throw (JsError "Error" "When --point is set, --buffer must also be set"
              true), w).
Proof.
  intros Hp Hb. unfold validateAndTransformOpts, bind, lift.
  rewrite Hp, Hb. reflexivity.
Qed.

(** The world after [path] has been read. *)
Lemma readFileSync_found (path content : string) (w : world) :
  files w path = Some content ->
  readFileSync path w
  = (Ok content,
     {| defaults := defaults w; process_argv := process_argv w;
        files := files w; fs_reads := (fs_reads w ++ [path])%list |}).
Proof. intros H. unfold readFileSync. now rewrite H. Qed.

(** C9.  Without a path [parseInput] returns [null] and reads no file.
    With the path of a file whose text is not JSON it throws the argument
    error [Invalid JSON]; when the text is JSON it returns what
    [JSON.parse] gives, as it is. *)
Theorem parseInput_cases (w : world) :
  (forall input, truthy input = false ->
     parseInput input w = (Ok VNull, w))
  /\ (forall path content, path <> "" -> files w path = Some content ->
      (JSON_parse content = None ->
       fst (parseInput (Val path) w)
       = Throw (JsError "Error" "Invalid JSON" true))
      /\ (forall obj, JSON_parse content = Some obj ->
          fst (parseInput (Val path) w) = Ok obj)
      /\ fs_reads (snd (parseInput (Val path) w))
         = (fs_reads w ++ [path])%list).
Proof.
  split.
  - intros input Hf. unfold parseInput. now rewrite Hf.
  - intros path content Hne Hfile.
    assert (truthy (Val path) = true) as Ht
      by (simpl; apply String.eqb_neq in Hne; now rewrite Hne).
    unfold parseInput, bind. rewrite Ht. cbn [negb ToString].
    rewrite (readFileSync_found _ _ Hfile).
    destruct (JSON_parse content) as [obj|].
    + split; [discriminate|]. split; [|reflexivity].
      intros o E. injection E as <-. reflexivity.
    + split; [reflexivity|]. split; [discriminate | reflexivity].
Qed.

Lemma keeps_ret (A : Type) (a : A) : keeps_defaults (ret a).
Proof. intros w. reflexivity. Qed.

Lemma keeps_lift (A : Type) (o : outcome A) : keeps_defaults (lift o).
Proof. intros w. reflexivity. Qed.

Lemma keeps_bind (A B : Type) (m : M A) (k : A -> M B) :
  keeps_defaults m -> (forall a, keeps_defaults (k a)) ->
  keeps_defaults (bind m k).
Proof.
  intros Hm Hk w. unfold bind. specialize (Hm w).
  destruct (m w) as [[a | e | c] w']; cbn [snd] in *; [|assumption..].
  now rewrite Hk.
Qed.

Lemma keeps_readFileSync (path : string) : keeps_defaults (readFileSync path).
Proof. intros w. unfold readFileSync. destruct (files w path); reflexivity. Qed.

Lemma keeps_parseInput (input : opt string) : keeps_defaults (parseInput input).
Proof.
  unfold parseInput. destruct (negb (truthy input)); [apply keeps_ret|].
  apply keeps_bind; [apply keeps_readFileSync|]. intros content.
  destruct (JSON_parse content); [apply keeps_ret | apply keeps_lift].
Qed.

(** Validation and transformation do not touch [defaultOpts]. *)
Lemma keeps_validateAndTransformOpts (opts : Options) :
  keeps_defaults (validateAndTransformOpts opts).
Proof.
  unfold validateAndTransformOpts.
  repeat first
    [ apply keeps_ret | apply keeps_lift | apply keeps_parseInput
    | apply keeps_bind; [|intros ?]
    | match goal with |- keeps_defaults (if ?b then _ else _) => destruct b end ].
Qed.

Lemma getUserOpts_world (w : world) : snd (getUserOpts w) = w.
Proof.
  unfold getUserOpts, bind, get_defaults, get_argv, lift, ret.
  destruct (yargs_argv (defaults w) (process_argv w)); reflexivity.
Qed.

(** X12.  What [getOpts] leaves in [defaultOpts]: the merge of the old value and
    the options of this call, whether or not validation passes. *)
Lemma getOpts_writes_defaultOpts (argv : List.list string) (w : world)
  (u : Options) :
  fst (getUserOpts w) = Ok u ->
  defaults (snd (getOpts argv w)) = merge (defaults w) u.
Proof.
  intros Hu. pose proof (getUserOpts_world w) as Hw.
  unfold getOpts, bind at 1.
  destruct (getUserOpts w) as [[u' | e | c] w']; cbn [fst snd] in *;
    try discriminate.
  injection Hu as ->. subst w'.
  unfold bind at 1, get_defaults. unfold bind at 1, set_defaults.
  rewrite keeps_validateAndTransformOpts. reflexivity.
Qed.

End AnyHost.

End Validation.

(* ================================================================= *)
(** ** Runs on the reference host *)

Module Runs.

Import Num Js Str Regex Spec CliParser RefHost Validation.

(** C1: [getOpts] writes into [defaultOpts].  A call with
    [--point 62.31,23.12 --buffer 10km] leaves those two values in
    [defaultOpts]; a later call that gives only the url then gets a buffer of
    10 km and that point, where the same call made first gets a buffer of 0
    and no point. *)
Theorem getOpts_shares_defaultOpts :
  let tiles := "http://tileserver.com/{z}/{x}/{y}.png" in
  let first := [tiles; "--point"; "62.31,23.12"; "--buffer"; "10km"] in
  let second := [tiles] in
  let w0 := initial_world first no_files in
  let w1 := snd (getOpts first w0) in
  (buffer (defaults w0) = Val "0km" /\ point (defaults w0) = Undefined)
  /\ (buffer (defaults w1) = Val "10km"
      /\ point (defaults w1) = Val "62.31,23.12")
  /\ (exists c,
        fst (getOpts second (with_argv second w1)) = Ok c
        /\ cfg_buffer c = {| radius := of_int 10; unit := "kilometers" |}
        /\ lat (cfg_point c) = Val (of_decimal false 6231 (-2)))
  /\ (exists c,
        fst (getOpts second (initial_world second no_files)) = Ok c
        /\ cfg_buffer c = {| radius := of_int 0; unit := "kilometers" |}
        /\ lat (cfg_point c) = Val NaN).
Proof.
  cbv zeta.
  split; [split; reflexivity|].
  split; [split; vm_compute; reflexivity|].
  split; eexists; (split; [vm_compute; reflexivity|]);
    split; vm_compute; reflexivity.
Qed.

(** The samples of the primitive parsers. *)
Lemma parsePoint_sample :
  parsePoint (Val "62.31,23.12")
  = {| lat := Val (of_decimal false 6231 (-2));
       lng := Val (of_decimal false 2312 (-2)) |}.
Proof. vm_compute. reflexivity. Qed.

Lemma zoom_function_sample :
  exists f,
    parseNumberOrZoomFunction (Val "z < 8 ? 2 : z * 2") Undefined = Ok f
    /\ call f (of_int 5) = Ok (VNum (of_int 2))
    /\ call f (of_int 10) = Ok (VNum (of_int 20)).
Proof.
  eexists. split; [reflexivity|]. split; vm_compute; reflexivity.
Qed.

(** A reversed range matches the grammar; with lodash 4 it counts down and
    stops two short of its lower bound. *)
Lemma reversed_range_sample :
  test zoom_re "9-3" = true
  /\ parseZoomRange "9-3" = Ok (map of_int [9; 8; 7; 6; 5]).
Proof. split; vm_compute; reflexivity. Qed.

Lemma syntax_error_is_not_argument_error_witness :
  parseNumberOrZoomFunction (Val "z <") Undefined
  = Throw (JsError "SyntaxError" "Unexpected token" false).
Proof.
  apply (@syntax_error_is_not_argument_error ref_host (Val "z <") Undefined).
  - reflexivity.
  - reflexivity.
Defined.

Lemma number_directive_is_constant_witness :
  parseNumberOrZoomFunction (Val "12") Undefined = Ok (ConstFn (Number "12"))
  /\ exists e,
       parseNumberOrZoomFunction (Val (nines 400)) Undefined = Throw e
       /\ argumentError e = true.
Proof.
  split.
  - apply (@number_directive_is_constant ref_host "12" Undefined);
      vm_compute; reflexivity.
  - apply (@number_directive_is_constant ref_host (nines 400) Undefined);
      vm_compute; reflexivity.
Defined.

Lemma point_without_buffer_fails_witness :
  validateAndTransformOpts point_only (initial_world [] example_files)
  = (Throw (JsError "Error" "When --point is set, --buffer must also be set"
              true),
     initial_world [] example_files).
Proof.
  apply (@point_without_buffer_fails ref_host); reflexivity.
Defined.

Lemma parseInput_cases_witness :
  let w := initial_world [] example_files in
  parseInput Undefined w = (Ok VNull, w)
  /\ fst (parseInput (Val "broken.json") w)
     = Throw (JsError "Error" "Invalid JSON" true)
  /\ fst (parseInput (Val "area.json") w)
     = Ok (VObj [("type", VStr "Point");
                 ("coordinates", VArr [VNum (of_int 1); VNum (of_int 2)])]).
Proof.
  intros w.
  destruct (@parseInput_cases ref_host w) as [Habsent Hfile].
  split; [apply Habsent; reflexivity|].
  split.
  - apply (Hfile "broken.json" "{not json");
      [discriminate | reflexivity | reflexivity].
  - apply (Hfile "area.json" point_json);
      [discriminate | reflexivity | vm_compute; reflexivity].
Defined.

End Runs.

(* ================================================================= *)
(** ** The zoom check of line 124 and lists that are already in order *)

Module ZoomGrammar.

Import Num Js Str Regex Spec StrFacts RegexFacts NumFacts ParseFacts LodashFacts
  ZoomFacts CliParser.

Lemma comma_tail_lang (ps : List.list string) :
  Forall digits ps ->
  forall d, exists t,
    String.concat "," (d :: ps) = d ++ t
    /\ lang (Star (Seq (Chr ",") (Plus Digit))) t.
Proof.
  induction 1 as [|p ps Hp Hps IH]; intros d.
  - exists "". split; [symmetry; apply app_nil_r | constructor].
  - destruct (IH p) as (t & Et & Lt).
    exists (("," ++ p) ++ t). split.
    + change (String.concat "," (d :: p :: ps))
        with (d ++ "," ++ String.concat "," (p :: ps)).
      rewrite Et, !app_assoc. reflexivity.
    + constructor; [|exact Lt]. apply lang_comma_digits. eauto.
Qed.

(** X1.  The zoom check accepts a range [d-d] of two runs of digits, or runs of
    digits separated by single commas, and nothing else. *)
Theorem zoom_grammar_exact (zoom : string) :
  test zoom_re zoom = true <->
  (exists d1 d2, digits d1 /\ digits d2 /\ zoom = d1 ++ "-" ++ d2)
  \/ (exists parts, parts <> [] /\ Forall digits parts
                    /\ zoom = join_commas parts).
Proof.
  split; [apply zoom_re_shape|].
  unfold zoom_re. rewrite test_anchored.
  intros [(d1 & d2 & H1 & H2 & ->) | (parts & Hne & Hp & ->)].
  - apply L_alt_l. apply lang_seq_inv. exists d1, ("-" ++ d2).
    split; [reflexivity|]. split; [now apply lang_plus_digit|].
    apply lang_seq_inv. exists "-", d2. split; [reflexivity|].
    split; [now apply lang_chr | now apply lang_plus_digit].
  - destruct parts as [|d ps]; [congruence|].
    inversion Hp as [|? ? Hd Hps]; subst.
    destruct (comma_tail_lang Hps d) as (t & Et & Lt).
    unfold join_commas. rewrite Et.
    apply L_alt_r. apply lang_seq_inv. exists d, t.
    split; [reflexivity|]. split; [now apply lang_plus_digit | exact Lt].
Qed.

(** What the check turns away: the empty string, a sign, a space, an empty
    item, a range of three numbers. *)
Lemma zoom_grammar_rejects :
  Forall (fun zoom => test zoom_re zoom = false)
    [""; "-3"; "3-"; "3, 5"; "3,,5"; "3,"; "1-2-3"; "3-5,7"; "3.5"; "abc"].
Proof. repeat constructor. Qed.

Lemma ltb_asym (x y : jsnum) : ltb x y = true -> ltb y x = false.
Proof.
  destruct x, y; cbn [ltb units]; try discriminate; try reflexivity;
    rewrite Z.ltb_lt, Z.ltb_ge; lia.
Qed.

Lemma ltb_not_eq (x y : jsnum) : ltb x y = true -> strict_eqb x y = false.
Proof.
  destruct x, y; cbn [ltb strict_eqb units]; try discriminate; try reflexivity;
    rewrite Z.ltb_lt, Z.eqb_neq; lia.
Qed.

Lemma le_compare (x y : jsnum) : le x y -> Lodash.compareAscending x y <= 0.
Proof.
  unfold Lodash.compareAscending. intros [L | E]; [|rewrite E; lia].
  rewrite (ltb_not_eq _ _ L). unfold gtb. rewrite (ltb_asym _ _ L), L.
  destruct x; cbn [is_nan orb]; try lia. discriminate L.
Qed.

(** Sorting a list that is in ascending order changes nothing. *)
Lemma sortBy_sorted_id (l : List.list jsnum) :
  Sorted le l -> Lodash.sortBy l = l.
Proof.
  induction 1 as [|x l Hs IH Hx]; [reflexivity|].
  cbn [Lodash.sortBy fold_right]. fold (Lodash.sortBy l). rewrite IH.
  destruct Hx as [|y l' Hxy]; [reflexivity|].
  cbn [Lodash.insert_sorted].
  apply le_compare, Z.leb_le in Hxy. now rewrite Hxy.
Qed.

(** X2.  A comma-separated list whose numbers are already in ascending order is
    returned as it was written, one number per item. *)
Theorem ascending_list_unchanged (parts : List.list string) :
  parts <> [] -> Forall digits parts ->
  Sorted le (map Number parts) ->
  parseZoomRange (join_commas parts) = Ok (map Number parts).
Proof.
  intros Hne Hp Hs. rewrite (parseZoomRange_list Hne Hp).
  now rewrite sortBy_sorted_id.
Qed.

Lemma ascending_list_unchanged_witness :
  parseZoomRange "3,5,5,12" = Ok (map Number ["3"; "5"; "5"; "12"]).
Proof.
  apply (@ascending_list_unchanged ["3"; "5"; "5"; "12"]).
  - discriminate.
  - repeat constructor; discriminate.
  - repeat (apply Sorted_cons || apply Sorted_nil || apply HdRel_cons
            || apply HdRel_nil); vm_compute; auto.
Defined.

End ZoomGrammar.

(* ================================================================= *)
(** ** Numeric directives and points *)

Module Directives.

Import Num Js Str Regex Spec StrFacts RegexFacts NumFacts ParseFacts CliParser.

(** Rounding moves a magnitude up by less than one unit of its last
    place. *)
Lemma round_mag_upper (smin a : Z) :
  0 <= a -> round_mag smin a <= a + 2 ^ Z.max (Z.log2 a + 1 - 53) smin.
Proof.
  intros Ha. unfold round_mag. set (s := Z.max (Z.log2 a + 1 - 53) smin).
  destruct (s <=? 0) eqn:E.
  - pose proof (Z.pow_nonneg 2 s). lia.
  - apply Z.leb_gt in E.
    assert (0 < 2 ^ s) as Hp by (apply Z.pow_pos_nonneg; lia).
    rewrite Z.shiftr_div_pow2 by lia.
    set (q := a / 2 ^ s).
    assert (2 ^ s * q <= a) as Hq by (apply Z.mul_div_le; lia).
    rewrite Z.shiftl_mul_pow2 by lia.
    destruct ((Z.shiftl 1 (s - 1) <? a - Z.shiftl q s)
              || (a - Z.shiftl q s =? Z.shiftl 1 (s - 1)) && Z.odd q); nia.
Qed.

Lemma digits_value_from_lt (d : string) :
  all_digits d = true ->
  forall acc, 0 <= acc ->
    digits_value_from acc d < (acc + 1) * 10 ^ Z.of_nat (String.length d).
Proof.
  induction d as [|c d IH]; intros H acc Hacc.
  - simpl. lia.
  - simpl in H. apply andb_prop in H. destruct H as [Hc Hd].
    pose proof (digit_val_range _ Hc) as Hv.
    cbn [digits_value_from String.length].
    specialize (IH Hd (acc * 10 + digit_val c) ltac:(lia)).
    rewrite Nat2Z.inj_succ, Z.pow_succ_r by lia.
    assert (0 < 10 ^ Z.of_nat (String.length d)) by (apply Z.pow_pos_nonneg; lia).
    nia.
Qed.

(** A run of [n] digits denotes a number below [10^n]. *)
Lemma digits_value_lt (d : string) :
  all_digits d = true -> digits_value d < 10 ^ Z.of_nat (String.length d).
Proof.
  intros H. pose proof (@digits_value_from_lt d H 0 ltac:(lia)) as B.
  unfold digits_value. lia.
Qed.

Lemma of_units_finite (a : Z) :
  a <= max_units -> isFinite (of_units false a) = true.
Proof.
  intros H. unfold of_units.
  replace (max_units <? a) with false by (symmetry; apply Z.ltb_ge; exact H).
  destruct (a =? 0); reflexivity.
Qed.

(** Every integer below [10^308] rounds to a finite double. *)
Lemma of_decimal_finite (v : Z) :
  0 <= v < 10 ^ 308 -> isFinite (of_decimal false v 0) = true.
Proof.
  intros Hv. unfold of_decimal, round_ratio. simpl (0 <=? 0). cbv iota.
  rewrite Z.pow_0_r, Z.mul_1_r, Z.mod_1_r, Z.div_1_r. simpl (0 =? 0). cbv iota.
  apply of_units_finite.
  remember (10 ^ 308 * 2 ^ 1076) as T eqn:ET.
  remember (Z.max (Z.log2 T + 1 - 53) 2) as K eqn:EK.
  assert (T + 2 ^ K <= 4 * max_units) as Hbig
    by (subst K T; apply Z.leb_le; vm_compute; reflexivity).
  assert (0 <= v * 2 ^ 1076 <= T) as Ht.
  { subst T. pose proof (Z.pow_pos_nonneg 2 1076). nia. }
  pose proof (round_mag_upper 2 (proj1 Ht)) as Hr.
  assert (2 ^ Z.max (Z.log2 (v * 2 ^ 1076) + 1 - 53) 2 <= 2 ^ K) as Hk.
  { apply Z.pow_le_mono_r; [lia|]. subst K.
    pose proof (Z.log2_le_mono _ _ (proj2 Ht)). lia. }
  rewrite Z.shiftr_div_pow2 by lia.
  change (2 ^ 2) with 4.
  apply Z.div_le_upper_bound; lia.
Qed.

Section AnyHost.

Context {host : Host}.

(** X3.  A numeric directive of at most 308 digits is always accepted: its number
    is finite, and the directive becomes the function that answers it. *)
Theorem short_number_directive_accepted (s : string) (message : opt string) :
  test number_re s = true -> (String.length s <= 308)%nat ->
  isFinite (Number s) = true
  /\ parseNumberOrZoomFunction (Val s) message = Ok (ConstFn (Number s)).
Proof.
  intros Hre Hlen. apply test_number_re in Hre.
  assert (isFinite (Number s) = true) as Hfin.
  { rewrite (Number_digits Hre). apply of_decimal_finite.
    split; [apply digits_value_nonneg, Hre|].
    apply Z.lt_le_trans with (10 ^ Z.of_nat (String.length s));
      [apply digits_value_lt, Hre|].
    apply Z.pow_le_mono_r; lia. }
  split; [exact Hfin|].
  unfold parseNumberOrZoomFunction, assertNumber. cbn [ToString].
  replace (test number_re s) with true
    by (symmetry; now apply test_number_re).
  unfold Lodash.isFinite. rewrite Hfin. reflexivity.
Qed.

End AnyHost.

Lemma short_number_directive_accepted_witness :
  parseNumberOrZoomFunction (host := RefHost.ref_host) (Val "5000") Undefined
  = Ok (ConstFn (Number "5000")).
Proof.
  apply (@short_number_directive_accepted RefHost.ref_host "5000" Undefined).
  - reflexivity.
  - vm_compute. repeat constructor.
Defined.

Lemma split_part_sep (sep : ascii) (d rest : string) :
  has_unit sep d = false ->
  split sep (d ++ String sep rest) = d :: split sep rest.
Proof.
  induction d as [|c d IH]; simpl.
  - intros _. now rewrite Ascii.eqb_refl.
  - intros H. apply orb_false_elim in H. destruct H as [Hc Hd].
    rewrite Ascii.eqb_sym, Hc, (IH Hd). reflexivity.
Qed.

Lemma split_join (sep : ascii) (parts : List.list string) :
  parts <> [] -> Forall (fun p => has_unit sep p = false) parts ->
  split sep (String.concat (String sep "") parts) = parts.
Proof.
  intros Hne H. induction H as [|d ps Hd Hps IH]; [congruence|].
  destruct ps as [|d' ps].
  - simpl. now apply ZoomParser.split_no_sep.
  - change (String.concat (String sep "") (d :: d' :: ps))
      with (d ++ String sep (String.concat (String sep "") (d' :: ps))).
    rewrite split_part_sep by assumption. f_equal. apply IH. discriminate.
Qed.

(** X4.  [parsePoint] never fails.  The latitude is [parseFloat] of what stands
    before the first comma and the longitude [parseFloat] of what stands
    between the first and the second; what follows a second comma is
    dropped.  Without a comma the longitude is [undefined], and without a
    point the latitude is [NaN].  Two integers give those integers. *)
Theorem parsePoint_parts :
  (forall a, has_unit "," a = false ->
     parsePoint (Val a) = {| lat := Val (parseFloat a); lng := Undefined |})
  /\ (forall a b more,
        Forall (fun p => has_unit "," p = false) (a :: b :: more) ->
        parsePoint (Val (join_commas (a :: b :: more)))
        = {| lat := Val (parseFloat a); lng := Val (parseFloat b) |})
  /\ (forall a b, digits a -> digits b ->
        digits_value a <= 2 ^ 53 -> digits_value b <= 2 ^ 53 ->
        parsePoint (Val (a ++ "," ++ b))
        = {| lat := Val (of_int (digits_value a));
             lng := Val (of_int (digits_value b)) |})
  /\ parsePoint Undefined = {| lat := Val NaN; lng := Undefined |}.
Proof.
  assert (forall a b more,
            Forall (fun p => has_unit "," p = false) (a :: b :: more) ->
            parsePoint (Val (join_commas (a :: b :: more)))
            = {| lat := Val (parseFloat a); lng := Val (parseFloat b) |}) as Two.
  { intros a b more H. unfold parsePoint, join_commas. cbn [ToString].
    rewrite split_join by (assumption || discriminate). reflexivity. }
  split; [|split; [exact Two | split; [|reflexivity]]].
  - intros a Ha. unfold parsePoint. cbn [ToString].
    rewrite (ZoomParser.split_no_sep _ _ Ha). reflexivity.
  - intros a b Ha Hb Va Vb.
    assert (forall d, digits d -> has_unit "," d = false) as Hno
      by (intros d [_ Hd]; now apply ZoomFacts.has_unit_digits).
    specialize (Two a b [] ltac:(repeat constructor; auto)).
    unfold join_commas in Two. cbn [String.concat] in Two. rewrite Two.
    rewrite <- (app_nil_r a) at 1. rewrite <- (app_nil_r b) at 1.
    rewrite !parseFloat_digits by (simpl; auto). reflexivity.
Qed.

Lemma parsePoint_parts_witness :
  parsePoint (Val "62,23,7") = {| lat := Val (parseFloat "62");
                                  lng := Val (parseFloat "23") |}
  /\ parsePoint (Val "62") = {| lat := Val (parseFloat "62"); lng := Undefined |}
  /\ parsePoint (Val "62,23") = {| lat := Val (of_int 62); lng := Val (of_int 23) |}.
Proof.
  destruct parsePoint_parts as (One & Two & Ints & _).
  split; [|split].
  - apply (Two "62" "23" ["7"]). repeat constructor.
  - apply One. reflexivity.
  - apply (Ints "62" "23").
    + split; [discriminate | reflexivity].
    + split; [discriminate | reflexivity].
    + vm_compute. discriminate.
    + vm_compute. discriminate.
Defined.

End Directives.

(* ================================================================= *)
(** ** validateAndTransformOpts as a whole (lines 119-136) *)

Module Pipeline.

Import Num Js Str Regex Spec StrFacts RegexFacts NumFacts ParseFacts LodashFacts
  ZoomFacts CliParser Validation.

Lemma zoom_needs_string (zoom : opt string) :
  test zoom_re (ToString zoom) = true -> exists z, zoom = Val z.
Proof.
  destruct zoom; simpl; intros H; [discriminate H | discriminate H | eauto].
Qed.

(** [assertTemplateUrl] passes or throws an argument error. *)
Lemma assertTemplateUrl_cases (template : opt string) :
  assertTemplateUrl template = Ok tt
  \/ exists e, assertTemplateUrl template = Throw e
               /\ argumentError e = true /\ err_name e = "Error".
Proof.
  destruct template as [| |t]; [right; eexists; now split ..|].
  unfold assertTemplateUrl, assertTemplateUrlParameter. cbn [ToString].
  destruct (test url_re t); cbn [negb bindO];
    [|right; eexists; now split].
  destruct (indexOf t "{x}" =? -1); cbn [bindO throwArgumentError];
    [right; eexists; now split|].
  destruct (indexOf t "{y}" =? -1); cbn [bindO throwArgumentError];
    [right; eexists; now split|].
  destruct (indexOf t "{z}" =? -1); [right; eexists; now split | now left].
Qed.

(** [assertTemplateUrl] passes exactly on the valid templates. *)
Lemma assertTemplateUrl_ok_iff (template : opt string) :
  assertTemplateUrl template = Ok tt <-> valid_template (ToString template).
Proof.
  unfold valid_template. rewrite <- test_url_re, <- first_missing_none.
  destruct template as [| |t]; cbn [ToString].
  - split; [discriminate | intros [H _]; discriminate H].
  - split; [discriminate | intros [H _]; discriminate H].
  - unfold assertTemplateUrl, assertTemplateUrlParameter, placeholders.
    cbn [ToString first_missing].
    destruct (test url_re t); cbn [negb bindO];
      [|split; [discriminate | intros [H _]; discriminate H]].
    destruct (indexOf t "{x}" =? -1); cbn [bindO throwArgumentError];
      [split; [discriminate | intros [_ H]; discriminate H]|].
    destruct (indexOf t "{y}" =? -1); cbn [bindO throwArgumentError];
      [split; [discriminate | intros [_ H]; discriminate H]|].
    destruct (indexOf t "{z}" =? -1);
      [split; [discriminate | intros [_ H]; discriminate H] | now split].
Qed.

(** Induction on plain data, through arrays and objects. *)
Lemma jsval_induction (P : jsval -> Prop) :
  P VUndef -> P VNull -> (forall b, P (VBool b)) -> (forall n, P (VNum n)) ->
  (forall s, P (VStr s)) ->
  (forall items, Forall P items -> P (VArr items)) ->
  (forall props, Forall (fun kv => P (snd kv)) props -> P (VObj props)) ->
  forall v, P v.
Proof.
  intros H1 H2 H3 H4 H5 Harr Hobj. fix IH 1.
  intros [| | b | n | s | items | props];
    [exact H1 | exact H2 | apply H3 | apply H4 | apply H5 | |].
  - apply Harr. induction items as [|x xs IHxs]; constructor;
      [apply IH | exact IHxs].
  - apply Hobj. induction props as [|[k x] ps IHps]; constructor;
      [apply IH | exact IHps].
Qed.

(** The copy that [_.merge] makes has no key named [__proto__]. *)
Lemma merge_value_proto_free (v : jsval) :
  proto_free (Lodash.merge_value v) = true.
Proof.
  induction v as [| | b | n | s | items IH | props IH] using jsval_induction;
    try reflexivity.
  - cbn [Lodash.merge_value proto_free].
    induction IH as [|x xs Hx _ IHxs]; [reflexivity|].
    cbn [map forallb]. now rewrite Hx, IHxs.
  - cbn [Lodash.merge_value proto_free].
    induction IH as [|[k x] ps Hx _ IHps]; [reflexivity|].
    cbn [snd] in Hx. destruct (Lodash.unsafe_key k) eqn:Hk; [exact IHps|].
    rewrite Hk, Hx, IHps. reflexivity.
Qed.

(** Without such keys the copy equals the original. *)
Lemma merge_value_id (v : jsval) :
  proto_free v = true -> Lodash.merge_value v = v.
Proof.
  induction v as [| | b | n | s | items IH | props IH] using jsval_induction;
    try reflexivity.
  - cbn [Lodash.merge_value proto_free]. intros H. f_equal.
    induction IH as [|x xs Hx _ IHxs]; [reflexivity|].
    cbn [map forallb] in *. apply andb_prop in H. destruct H as [H1 H2].
    now rewrite (Hx H1), (IHxs H2).
  - cbn [Lodash.merge_value proto_free]. intros H. f_equal.
    induction IH as [|[k x] ps Hx _ IHps]; [reflexivity|].
    cbn [snd] in Hx. apply andb_prop in H. destruct H as [H H3].
    apply andb_prop in H. destruct H as [H1 H2].
    apply negb_true_iff in H1. rewrite H1, (Hx H2), (IHps H3). reflexivity.
Qed.

(** What the configuration holds as [input], for a parsed value. *)
Lemma merged_input_parsed (path : opt string) (v : jsval) :
  v <> VUndef ->
  proto_free (merged_input path v) = true
  /\ (proto_free v = true -> merged_input path v = v).
Proof.
  intros Hv. unfold merged_input.
  destruct v; try congruence;
    (split; [apply merge_value_proto_free | apply merge_value_id]).
Qed.

Lemma assign_fresh (k v : string) (o : List.list (string * string)) :
  ~ In k (map fst o) -> Lodash.assign k v o = (o ++ [(k, v)])%list.
Proof.
  induction o as [|[k' v'] o IH]; simpl; intros H; [reflexivity|].
  destruct (String.eqb k k') eqn:E;
    [apply String.eqb_eq in E; subst; tauto|].
  rewrite IH by tauto. reflexivity.
Qed.

(** An object of strings whose keys are distinct, none of them [__proto__],
    is copied as it is. *)
Lemma merge_obj_fresh (h : List.list (string * string)) :
  NoDup (map fst h) -> Forall (fun kv => Lodash.unsafe_key (fst kv) = false) h ->
  Lodash.merge_obj Undefined (Val h) = Val h.
Proof.
  intros Hnd Hsafe. unfold Lodash.merge_obj. f_equal.
  assert (forall base,
            (forall k, In k (map fst base) -> ~ In k (map fst h)) ->
            fold_left
              (fun o kv =>
                 if Lodash.unsafe_key (fst kv) then o
                 else Lodash.assign (fst kv) (snd kv) o) h base
            = (base ++ h)%list) as H.
  { induction h as [|[k v] h IH]; intros base Hb;
      [symmetry; apply List.app_nil_r|].
    cbn [fold_left fst snd map] in *.
    inversion Hnd as [|? ? Hk Hnd']; subst.
    inversion Hsafe as [|? ? Hs Hsafe']; subst. cbn [fst] in Hs. rewrite Hs.
    rewrite assign_fresh by (intros Hin; apply (Hb _ Hin); now left).
    rewrite IH; [now rewrite <- List.app_assoc | assumption | assumption|].
    intros k' Hin Hin'. rewrite map_app, in_app_iff in Hin.
    destruct Hin as [Hin | [<- | []]]; [|contradiction].
    apply (Hb _ Hin). now right. }
  apply (H []). intros k [].
Qed.

(** Merged into a fresh object, an array is a copy with the same elements. *)
Lemma merge_arr_fresh (A : Type) (a : opt (List.list A)) :
  Lodash.merge_arr Undefined a = a.
Proof.
  destruct a as [| |l]; [reflexivity | reflexivity|].
  unfold Lodash.merge_arr. now rewrite skipn_nil, List.app_nil_r.
Qed.

(** The only error of [parseZoomRange] is the RangeError of an array that
    is too long. *)
Lemma parseZoomRange_outcome (zoom : string) :
  match parseZoomRange zoom with
  | Ok _ => True
  | Throw e => e = Lodash.RangeError
  | Exit _ => False
  end.
Proof.
  unfold parseZoomRange, Lodash.range, Lodash.baseRange.
  destruct (indexOf zoom "-" >? -1); [|exact I].
  match goal with |- context [array_length ?x] => destruct (array_length x) end;
    [exact I | reflexivity].
Qed.

Section AnyHost.

Context {host : Host}.

(** The errors of [parseNumberOrZoomFunction]: the argument error of a
    number that is not finite, or the SyntaxError of the engine. *)
Lemma parseNumberOrZoomFunction_outcome (val message : opt string) :
  match parseNumberOrZoomFunction val message with
  | Ok _ => True
  | Throw e =>
      (err_name e = "Error" /\ argumentError e = true)
      \/ (err_name e = "SyntaxError" /\ argumentError e = false)
  | Exit _ => False
  end.
Proof.
  unfold parseNumberOrZoomFunction, assertNumber, throwArgumentError.
  destruct (test number_re (ToString val)).
  - match goal with |- context [negb ?b] => destruct b end;
      cbn [negb bindO]; [exact I | left; now split].
  - destruct (Function_ctor "z" ("return " ++ ToString val));
      [exact I | right; now split].
Qed.

(** [parseInput] reads nothing without a path and its path otherwise; its
    errors are named [Error]. *)
Lemma parseInput_outcome (input : opt string) (w : world) :
  (truthy input = false /\ parseInput input w = (Ok VNull, w))
  \/ (truthy input = true
      /\ snd (parseInput input w) = after_read (ToString input) w
      /\ match fst (parseInput input w) with
         | Ok _ => True
         | Throw e => err_name e = "Error"
         | Exit _ => False
         end).
Proof.
  unfold parseInput, bind, readFileSync, lift, ret, after_read.
  destruct (truthy input); cbn [negb]; [right | left; now split].
  split; [reflexivity|].
  destruct (files w (ToString input)) as [content|]; cbn [fst snd].
  - split; [destruct (JSON_parse content); reflexivity|].
    destruct (JSON_parse content); cbn [fst]; [exact I | reflexivity].
  - split; reflexivity.
Qed.

(** The steps of [validateAndTransformOpts], in the order in which they
    run. *)
Lemma validate_steps (opts : Options) (w : world) :
  validateAndTransformOpts opts w =
  if point_without_buffer opts then
    (Throw (JsError "Error" "When --point is set, --buffer must also be set"
              true), w)
  else if negb (test zoom_re (ToString (zoom opts))) then
    (Throw (JsError "Error"
              ("Invalid " ++ dquote ++ "zoom" ++ dquote ++ " argument") true),
     w)
  else
    match assertTemplateUrl (url opts) with
    | Throw e => (Throw e, w)
    | Exit c => (Exit c, w)
    | Ok _ =>
        match (match zoom opts with
               | Val z => parseZoomRange z
               | _ => TypeError
                        "Cannot read properties of undefined (reading 'indexOf')"
               end) with
        | Throw e => (Throw e, w)
        | Exit c => (Exit c, w)
        | Ok zoom' =>
            match parseInput (input opts) w with
            | (Throw e, w') => (Throw e, w')
            | (Exit c, w') => (Exit c, w')
            | (Ok input', w') =>
                match parseNumberOrZoomFunction (concurrency opts) Undefined with
                | Throw e => (Throw e, w')
                | Exit c => (Exit c, w')
                | Ok concurrency' =>
                    match parseNumberOrZoomFunction (maxRetries opts)
                            Undefined with
                    | Throw e => (Throw e, w')
                    | Exit c => (Exit c, w')
                    | Ok maxRetries' =>
                        match parseNumberOrZoomFunction
                                (retryBaseTimeout opts) Undefined with
                        | Throw e => (Throw e, w')
                        | Exit c => (Exit c, w')
                        | Ok retryBaseTimeout' =>
                            (Ok (merge_config opts (parseBuffer (buffer opts))
                                   zoom' (parsePoint (point opts)) input'
                                   concurrency' maxRetries' retryBaseTimeout'),
                             w')
                        end
                    end
                end
            end
        end
    end.
Proof.
  unfold validateAndTransformOpts, point_without_buffer, bind, lift, ret.
  destruct (truthy (point opts) && negb (truthy (buffer opts))); [reflexivity|].
  destruct (negb (test zoom_re (ToString (zoom opts)))); [reflexivity|].
  destruct (assertTemplateUrl (url opts)); reflexivity.
Qed.

Lemma number_directive_run (s : string) (message : opt string) :
  test number_re s = true -> isFinite (Number s) = true ->
  parseNumberOrZoomFunction (Val s) message = Ok (ConstFn (Number s)).
Proof.
  intros Hre Hfin. unfold parseNumberOrZoomFunction, assertNumber.
  cbn [ToString]. rewrite Hre. unfold Lodash.isFinite. now rewrite Hfin.
Qed.

Lemma number_needs_string (val : opt string) :
  test number_re (ToString val) = true -> exists s, val = Val s.
Proof.
  destruct val; simpl; intros H; [discriminate H | discriminate H | eauto].
Qed.

(** A zoom string that passes the check is parsed, provided its numbers are
    exact and its range, if it is one, is in order. *)
Lemma parseZoomRange_ok (zoom : string) :
  test zoom_re zoom = true ->
  Forall (fun n => n < 2 ^ 53) (zoom_numbers zoom) ->
  (is_range zoom = true -> range_in_order zoom) ->
  exists l, parseZoomRange zoom = Ok l.
Proof.
  intros Hre Hex Hord.
  destruct (zoom_re_shape _ Hre)
    as [(d1 & d2 & H1 & H2 & ->) | (parts & Hne & Hp & ->)].
  - specialize (Hord (ZoomParser.is_range_range d1 d2)).
    unfold range_in_order in Hord.
    rewrite (ZoomParser.zoom_numbers_range H1 H2) in Hex, Hord.
    destruct Hord as [Hle Hlen].
    assert (digits_value d2 < 2 ^ 53) as Hb
      by (inversion Hex as [|? ? _ Hex']; now inversion Hex').
    pose proof (digits_value_nonneg _ (proj2 H1)) as Ha.
    rewrite (parseZoomRange_range_call H1 H2).
    rewrite (Number_digits_exact H1), (Number_digits_exact H2) by lia.
    rewrite add_int by lia. rewrite range_ints by lia. eauto.
  - rewrite (parseZoomRange_list Hne Hp). eauto.
Qed.

(** X5.  The three checks come first.  When [point] is set without [buffer], when
    the zoom string does not match the grammar, or when the url is not a valid
    template, [validateAndTransformOpts] throws an argument error and the
    state is as before: no file has been read, even if [input] names
    one. *)
Theorem validators_fail_fast (opts : Options) (w : world) :
  point_without_buffer opts = true
  \/ test zoom_re (ToString (zoom opts)) = false
  \/ ~ valid_template (ToString (url opts)) ->
  exists e,
    validateAndTransformOpts opts w = (Throw e, w)
    /\ argumentError e = true /\ err_name e = "Error".
Proof.
  intros H. rewrite validate_steps.
  destruct (point_without_buffer opts); [eexists; now split|].
  destruct (test zoom_re (ToString (zoom opts))); cbn [negb];
    [|eexists; now split].
  destruct H as [H | [H | H]]; [discriminate | discriminate|].
  destruct (assertTemplateUrl_cases (url opts)) as [Hok | (e & He & Ha & Hn)].
  - exfalso. now apply H, assertTemplateUrl_ok_iff.
  - rewrite He. eauto.
Qed.


(** X8.  [validateAndTransformOpts] reads at most one file, the one that [input]
    names, and changes nothing else of the state.  When it returns a
    configuration that file has been read, or, without [input], no file has
    been read and the configuration's [input] is [null]. *)
Theorem validation_reads_only_input (opts : Options) (w : world) :
  (snd (validateAndTransformOpts opts w) = w
   \/ (truthy (input opts) = true
       /\ snd (validateAndTransformOpts opts w)
          = after_read (ToString (input opts)) w))
  /\ (forall c, fst (validateAndTransformOpts opts w) = Ok c ->
      if truthy (input opts)
      then snd (validateAndTransformOpts opts w)
           = after_read (ToString (input opts)) w
      else snd (validateAndTransformOpts opts w) = w /\ cfg_input c = VNull).
Proof.
  rewrite validate_steps.
  destruct (point_without_buffer opts);
    [split; [now left | discriminate]|].
  destruct (negb (test zoom_re (ToString (zoom opts))));
    [split; [now left | discriminate]|].
  destruct (assertTemplateUrl (url opts));
    [|split; [now left | discriminate] ..].
  destruct (match zoom opts with Val z => parseZoomRange z | _ => _ end);
    [|split; [now left | discriminate] ..].
  destruct (parseInput_outcome (input opts) w) as [[Ht Hi] | (Ht & Hw & _)].
  - rewrite Hi, Ht.
    destruct (parseNumberOrZoomFunction (concurrency opts) Undefined);
      [|split; [now left | discriminate] ..].
    destruct (parseNumberOrZoomFunction (maxRetries opts) Undefined);
      [|split; [now left | discriminate] ..].
    destruct (parseNumberOrZoomFunction (retryBaseTimeout opts) Undefined);
      [|split; [now left | discriminate] ..].
    split; [now left|]. intros c E. injection E as <-. now split.
  - rewrite Ht.
    destruct (parseInput (input opts) w) as [[input' | e | x] w'];
      cbn [snd] in Hw; subst w';
      [|split; [right; now split | discriminate] ..].
    destruct (parseNumberOrZoomFunction (concurrency opts) Undefined);
      [|split; [right; now split | discriminate] ..].
    destruct (parseNumberOrZoomFunction (maxRetries opts) Undefined);
      [|split; [right; now split | discriminate] ..].
    destruct (parseNumberOrZoomFunction (retryBaseTimeout opts) Undefined);
      [|split; [right; now split | discriminate] ..].
    split; [right; now split | reflexivity].
Qed.

(** X9.  Well-formed options are accepted.  With no point lacking its buffer, a
    zoom string of the grammar whose numbers are exact and in order, a valid
    url, no input file and three directives of at most 308 digits,
    [validateAndTransformOpts] returns a configuration and leaves the state
    as it was. *)
Theorem well_formed_options_accepted (opts : Options) (w : world)
  (z : string) :
  point_without_buffer opts = false ->
  zoom opts = Val z -> test zoom_re z = true ->
  Forall (fun n => n < 2 ^ 53) (zoom_numbers z) ->
  (is_range z = true -> range_in_order z) ->
  valid_template (ToString (url opts)) ->
  truthy (input opts) = false ->
  Forall (fun d => test number_re (ToString d) = true
                   /\ (String.length (ToString d) <= 308)%nat)
    [concurrency opts; maxRetries opts; retryBaseTimeout opts] ->
  exists c,
    validateAndTransformOpts opts w = (Ok c, w)
    /\ parseZoomRange z = Ok (cfg_zoom c)
    /\ cfg_input c = VNull.
Proof.
  intros Hpb Ez Hz Hex Hord Hu Hi Hd.
  assert (forall d, test number_re (ToString d) = true
                    /\ (String.length (ToString d) <= 308)%nat ->
            exists f, parseNumberOrZoomFunction d Undefined = Ok f) as Hrun.
  { intros d [Hre Hlen]. destruct (number_needs_string _ Hre) as [s ->].
    cbn [ToString] in *. eexists. apply number_directive_run; [exact Hre|].
    pose proof (proj1 (test_number_re s) Hre) as Hs.
    rewrite (Number_digits Hs). apply Directives.of_decimal_finite.
    split; [apply digits_value_nonneg, Hs|].
    apply Z.lt_le_trans with (10 ^ Z.of_nat (String.length s));
      [apply Directives.digits_value_lt, Hs|].
    apply Z.pow_le_mono_r; lia. }
  inversion Hd as [|? ? H1 Hd1]; subst.
  inversion Hd1 as [|? ? H2 Hd2]; subst.
  inversion Hd2 as [|? ? H3 _]; subst.
  destruct (Hrun _ H1) as [f1 E1]. destruct (Hrun _ H2) as [f2 E2].
  destruct (Hrun _ H3) as [f3 E3].
  destruct (@parseZoomRange_ok z Hz Hex Hord) as [l El].
  apply assertTemplateUrl_ok_iff in Hu.
  rewrite validate_steps, Hpb, Ez. cbn [ToString]. rewrite Hz. cbn [negb].
  rewrite Hu, El.
  destruct (parseInput_outcome (input opts) w) as [[_ Hin] | [Ht _]];
    [|congruence].
  rewrite Hin, E1, E2, E3. eexists. split; [reflexivity|]. now split.
Qed.

(** X10.  The directives are compiled after the input file has been read: when
    the checks pass and the file parses, an expression that the engine
    rejects surfaces as a SyntaxError once the file has been read. *)
Theorem directive_checked_after_read (opts : Options) (w : world)
  (z path : string) (l : List.list jsnum) (v : jsval) (msg : string) :
  point_without_buffer opts = false ->
  zoom opts = Val z -> test zoom_re z = true -> parseZoomRange z = Ok l ->
  valid_template (ToString (url opts)) ->
  input opts = Val path -> path <> "" ->
  fst (parseInput (Val path) w) = Ok v ->
  test number_re (ToString (concurrency opts)) = false ->
  Function_ctor "z" ("return " ++ ToString (concurrency opts)) = Rejected msg ->
  validateAndTransformOpts opts w
  = (Throw (JsError "SyntaxError" msg false), after_read path w).
Proof.
  intros Hpb Ez Hz El Hu Ei Hne Hv Hre Hrej.
  apply assertTemplateUrl_ok_iff in Hu.
  rewrite validate_steps, Hpb, Ez, Ei. cbn [ToString]. rewrite Hz. cbn [negb].
  rewrite Hu, El.
  destruct (parseInput_outcome (Val path) w) as [[Ht _] | (_ & Hw & _)].
  { simpl in Ht. apply String.eqb_neq in Hne. rewrite Hne in Ht. discriminate. }
  destruct (parseInput (Val path) w) as [[v' | |] w'];
    cbn [fst snd ToString] in *; try discriminate. subst w'.
  unfold parseNumberOrZoomFunction at 1. now rewrite Hre, Hrej.
Qed.

(** X11.  A path that names no file: [fs.readFileSync] throws, outside the [try],
    so the error is not an argument error and [JSON.parse] is not reached. *)
Theorem missing_input_file_not_argument_error (path : string) (w : world) :
  path <> "" -> files w path = None ->
  exists e,
    parseInput (Val path) w = (Throw e, after_read path w)
    /\ argumentError e = false.
Proof.
  intros Hne Hfile. apply String.eqb_neq in Hne.
  unfold parseInput. cbn [truthy ToString]. rewrite Hne. cbn [negb].
  unfold bind, readFileSync, after_read. rewrite Hfile.
  eexists. split; reflexivity.
Qed.

End AnyHost.

(** A key named [__proto__] in the parsed input does not reach the
    configuration. *)
Lemma merged_input_drops_proto_key :
  merged_input (Val "area.json")
    (VObj [("__proto__", VObj [("polluted", VBool true)]);
           ("type", VStr "Point")])
  = VObj [("type", VStr "Point")].
Proof. reflexivity. Qed.

Lemma validators_fail_fast_witness :
  let opts := RefHost.sample_options (Val "3-") (Val "area.json") (Val "5") in
  let w := RefHost.initial_world [] RefHost.example_files in
  exists e,
    validateAndTransformOpts (host := RefHost.ref_host) opts w = (Throw e, w)
    /\ argumentError e = true /\ err_name e = "Error".
Proof.
  intros opts w. apply (@validators_fail_fast RefHost.ref_host opts w).
  right. left. reflexivity.
Defined.


Lemma well_formed_options_accepted_witness :
  let opts := RefHost.sample_options (Val "3-9") Null (Val "5") in
  let w := RefHost.initial_world [] RefHost.example_files in
  exists c,
    validateAndTransformOpts (host := RefHost.ref_host) opts w = (Ok c, w)
    /\ parseZoomRange "3-9" = Ok (cfg_zoom c)
    /\ cfg_input c = VNull.
Proof.
  intros opts w.
  apply (@well_formed_options_accepted RefHost.ref_host opts w "3-9").
  - reflexivity.
  - reflexivity.
  - reflexivity.
  - repeat constructor.
  - intros _. vm_compute. split; discriminate.
  - split; [left; exists "//tileserver.com/{z}/{x}/{y}.png"; reflexivity|].
    repeat constructor.
    + exists "http://tileserver.com/{z}/", "/{y}.png". reflexivity.
    + exists "http://tileserver.com/{z}/{x}/", ".png". reflexivity.
    + exists "http://tileserver.com/", "/{x}/{y}.png". reflexivity.
  - reflexivity.
  - repeat constructor; vm_compute; repeat constructor.
Defined.

Lemma directive_checked_after_read_witness :
  let opts := RefHost.sample_options (Val "3-9") (Val "area.json") (Val "z <") in
  let w := RefHost.initial_world [] RefHost.example_files in
  validateAndTransformOpts (host := RefHost.ref_host) opts w
  = (Throw (JsError "SyntaxError" "Unexpected token" false),
     after_read "area.json" w).
Proof.
  intros opts w.
  eapply (@directive_checked_after_read RefHost.ref_host opts w "3-9" "area.json").
  - reflexivity.
  - reflexivity.
  - reflexivity.
  - vm_compute. reflexivity.
  - split; [left; exists "//tileserver.com/{z}/{x}/{y}.png"; reflexivity|].
    repeat constructor.
    + exists "http://tileserver.com/{z}/", "/{y}.png". reflexivity.
    + exists "http://tileserver.com/{z}/{x}/", ".png". reflexivity.
    + exists "http://tileserver.com/", "/{x}/{y}.png". reflexivity.
  - reflexivity.
  - discriminate.
  - vm_compute. reflexivity.
  - reflexivity.
  - reflexivity.
Defined.

Lemma validation_reads_only_input_witness :
  let opts := RefHost.sample_options (Val "3-9") (Val "area.json") (Val "5") in
  let w := RefHost.initial_world [] RefHost.example_files in
  snd (validateAndTransformOpts (host := RefHost.ref_host) opts w)
  = after_read "area.json" w.
Proof.
  intros opts w.
  assert (exists c, fst (validateAndTransformOpts (host := RefHost.ref_host)
                           opts w) = Ok c) as [c E]
    by (eexists; vm_compute; reflexivity).
  exact (proj2 (@validation_reads_only_input RefHost.ref_host opts w) c E).
Defined.

Lemma missing_input_file_not_argument_error_witness :
  let w := RefHost.initial_world [] RefHost.example_files in
  exists e,
    parseInput (host := RefHost.ref_host) (Val "nowhere.json") w
    = (Throw e, after_read "nowhere.json" w)
    /\ argumentError e = false.
Proof.
  intros w.
  apply (@missing_input_file_not_argument_error RefHost.ref_host).
  - discriminate.
  - reflexivity.
Defined.

End Pipeline.

(* ================================================================= *)
(** ** getOpts (lines 22-26) after the option parser has run *)

Module EntryPoint.

Import Num Js Str Regex Spec StrFacts RegexFacts CliParser Validation Pipeline.

Section AnyHost.

Context {host : Host}.

Lemma validate_ok_url (opts : Options) (w : world) (c : Config) :
  fst (validateAndTransformOpts opts w) = Ok c ->
  valid_template (ToString (url opts))
  /\ cfg_url c = url opts /\ cfg_args c = args_ opts.
Proof.
  rewrite validate_steps.
  destruct (point_without_buffer opts); [discriminate|].
  destruct (negb (test zoom_re (ToString (zoom opts)))); [discriminate|].
  destruct (assertTemplateUrl (url opts)) as [[] | |] eqn:Hu; try discriminate.
  apply assertTemplateUrl_ok_iff in Hu.
  destruct (match zoom opts with Val z => parseZoomRange z | _ => _ end);
    try discriminate.
  destruct (parseInput (input opts) w) as [[input' | |] w']; try discriminate.
  destruct (parseNumberOrZoomFunction (concurrency opts) Undefined);
    try discriminate.
  destruct (parseNumberOrZoomFunction (maxRetries opts) Undefined);
    try discriminate.
  destruct (parseNumberOrZoomFunction (retryBaseTimeout opts) Undefined);
    try discriminate.
  cbn [fst]. intros E. injection E as <-.
  cbn [merge_config cfg_url cfg_args]. rewrite merge_arr_fresh. now split.
Qed.

(** What [getOpts] validates: the merge of [defaultOpts] and the options of
    the call, whose [url] is the first positional. *)
Lemma getOpts_run (argv : List.list string) (w : world) (u : Options) :
  yargs_argv (defaults w) (process_argv w) = Ok u ->
  exists u' w',
    fst (getUserOpts w) = Ok u'
    /\ url u' = match args_ u with Val (t :: _) => Val t | _ => Undefined end
    /\ args_ u' = args_ u
    /\ fst (getOpts argv w)
       = fst (validateAndTransformOpts (merge (defaults w) u') w').
Proof.
  intros Hy. unfold getOpts, getUserOpts, bind, get_defaults, get_argv, lift,
    ret, set_defaults. rewrite Hy. cbn [fst].
  do 2 eexists. split; [reflexivity|]. split; [reflexivity|].
  split; reflexivity.
Qed.

(** X13.  The url of a configuration that [getOpts] returns is the first
    positional of the call, and it is a valid template.  The array [_] of the
    configuration holds the positionals of the call, followed by those that
    an earlier call left in [defaultOpts] at higher indexes. *)
Theorem getOpts_url_is_first_positional (argv : List.list string) (w : world)
  (u : Options) (t : string) (rest : List.list string) (c : Config) :
  yargs_argv (defaults w) (process_argv w) = Ok u ->
  args_ u = Val (t :: rest) ->
  fst (getOpts argv w) = Ok c ->
  cfg_url c = Val t
  /\ valid_template t
  /\ cfg_args c
     = Val ((t :: rest)
              ++ skipn (List.length (t :: rest))
                   (old_array (args_ (defaults w))))%list.
Proof.
  intros Hy Ha Hc.
  destruct (getOpts_run argv w Hy) as (u' & w' & _ & Hurl & Hargs & Hrun).
  rewrite Hrun in Hc. apply validate_ok_url in Hc.
  destruct Hc as (Hvalid & Hcu & Hca).
  rewrite Ha in Hurl.
  assert (url (merge (defaults w) u') = Val t) as Eu
    by (cbn [merge url]; rewrite Hurl; reflexivity).
  rewrite Eu in Hvalid, Hcu. cbn [ToString] in Hvalid.
  split; [exact Hcu|]. split; [exact Hvalid|].
  rewrite Hca. cbn [merge args_]. rewrite Hargs, Ha.
  unfold Lodash.merge_arr, old_array.
  destruct (args_ (defaults w)); reflexivity.
Qed.

End AnyHost.

Lemma getOpts_url_is_first_positional_witness :
  let first := ["http://a.example/{z}/{x}/{y}"; "extra"; "more"] in
  let second := ["https://b.example/{x}/{y}/{z}"] in
  let w1 := snd (getOpts (host := RefHost.ref_host) first
                   (RefHost.initial_world first RefHost.no_files)) in
  exists c,
    fst (getOpts (host := RefHost.ref_host) second (RefHost.with_argv second w1))
    = Ok c
    /\ cfg_url c = Val "https://b.example/{x}/{y}/{z}"
    /\ cfg_args c = Val ["https://b.example/{x}/{y}/{z}"; "extra"; "more"].
Proof.
  intros first second w1.
  assert (exists c, fst (getOpts (host := RefHost.ref_host) second
                           (RefHost.with_argv second w1)) = Ok c) as [c E]
    by (eexists; vm_compute; reflexivity).
  assert (exists u,
            @yargs_argv RefHost.ref_host
              (defaults (RefHost.with_argv second w1))
              (process_argv (RefHost.with_argv second w1)) = Ok u
            /\ args_ u = Val ["https://b.example/{x}/{y}/{z}"])
    as (u & Hy & Ha) by (eexists; split; vm_compute; reflexivity).
  destruct (@getOpts_url_is_first_positional RefHost.ref_host second
              (RefHost.with_argv second w1) u _ [] c Hy Ha E)
    as (Hu & _ & Hargs).
  exists c. split; [exact E|]. split; [exact Hu|].
  rewrite Hargs. vm_compute. reflexivity.
Defined.

(** A call that validation rejects has still written its options into
    [defaultOpts]. *)
Lemma getOpts_writes_defaultOpts_witness :
  let argv := ["http://tileserver.com/{z}/{x}/{y}.png"; "--zoom"; "all"] in
  let w := RefHost.initial_world argv RefHost.no_files in
  (exists e, fst (getOpts (host := RefHost.ref_host) argv w) = Throw e)
  /\ zoom (defaults w) = Val "3-9"
  /\ zoom (defaults (snd (getOpts (host := RefHost.ref_host) argv w)))
     = Val "all".
Proof.
  intros argv w.
  split; [eexists; vm_compute; reflexivity|]. split; [reflexivity|].
  assert (exists u, fst (getUserOpts (host := RefHost.ref_host) w) = Ok u
                    /\ zoom u = Val "all") as (u & Hu & Hz)
    by (eexists; split; vm_compute; reflexivity).
  rewrite (@getOpts_writes_defaultOpts RefHost.ref_host argv w u Hu).
  cbn [merge zoom]. rewrite Hz. reflexivity.
Defined.

End EntryPoint.
